(** * GestureTree: the particle tree, its integrator and its scripted effects

    A shallow embedding of [src/components/GestureTree.tsx].

    Numbers.  JavaScript numbers are idealised as real numbers: [Math.sqrt],
    [Math.sin], [Math.cos] and [Math.floor] are the functions of the real
    library, and the rounding done by a store into a [Float32Array] is not
    represented.  Comparisons are the decidable comparisons on [R].

    Randomness.  [Math.random()] reads the next element of a fixed sequence
    [rng : nat -> R] of numbers in [0, 1); the world counts the calls made so
    far, so that two calls never read the same element.

    State.  The component keeps its data in refs and typed arrays that every
    handler and the frame callback mutate in place.  The embedding threads one
    [World] through a small state-and-exception monad. *)

From Stdlib Require Import Reals Lra Lia ZArith Bool Psatz.
From Stdlib Require Import String.
From stdpp Require Import base list.

Open Scope R_scope.

(** ** Vectors of three reals *)

Definition vec3 : Type := R * R * R.

Definition vx (v : vec3) : R := fst (fst v).
Definition vy (v : vec3) : R := snd (fst v).
Definition vz (v : vec3) : R := snd v.

Definition vadd (a b : vec3) : vec3 := (vx a + vx b, vy a + vy b, vz a + vz b).
Definition vsub (a b : vec3) : vec3 := (vx a - vx b, vy a - vy b, vz a - vz b).
Definition vscale (k : R) (a : vec3) : vec3 := (k * vx a, k * vy a, k * vz a).
Definition vdot (a b : vec3) : R := vx a * vx b + vy a * vy b + vz a * vz b.
Definition vnorm (a : vec3) : R := sqrt (vx a * vx a + vy a * vy a + vz a * vz a).

(** ** Typed arrays *)

(** A [Float32Array] is a list of reals.  A read past the end yields
    [undefined] in JavaScript; every loop of the component keeps its indices
    below the length, and the model reads [0] there.  A write past the end is
    ignored, as it is by a typed array. *)

Definition Float32Array (n : nat) : list R := replicate n 0.

Definition get (a : list R) (i : nat) : R := default 0 (a !! i).

Definition set (a : list R) (i : nat) (v : R) : list R := <[i := v]> a.

(** The particle [i] of a flat array: the three entries from [3 * i]. *)
Definition vec3_at (a : list R) (i : nat) : vec3 :=
  (get a (i * 3), get a (i * 3 + 1), get a (i * 3 + 2)).

(** The buffers of the main particle set. *)
Inductive Buffer : Type :=
| Positions | Velocities | TargetTree | TargetExploded | Colors | Sizes | Alphas.

Definition Buffer_eqb (a b : Buffer) : bool :=
  match a, b with
  | Positions, Positions | Velocities, Velocities | TargetTree, TargetTree
  | TargetExploded, TargetExploded | Colors, Colors | Sizes, Sizes
  | Alphas, Alphas => true
  | _, _ => false
  end.

Definition Store : Type := Buffer -> list R.

Definition store_set (s : Store) (b : Buffer) (i : nat) (v : R) : Store :=
  fun b' => if Buffer_eqb b b' then set (s b') i v else s b'.

(** ** Device-dependent constants *)

Definition PARTICLE_COUNT (mobile : bool) : nat := if mobile then 1200%nat else 5000%nat.
Definition SNOW_COUNT (mobile : bool) : nat := if mobile then 300%nat else 1000%nat.
Definition TREE_HEIGHT (mobile : bool) : R := if mobile then 20 else 25.
Definition TREE_RADIUS (mobile : bool) : R := if mobile then 8 else 10.

(** ** Exceptions and the state monad *)

(** What a computation can raise.  [TypeError] is JavaScript's own.
    [DivisionByNearZero] is raised by the checked division below: JavaScript
    would go on with an infinite, undefined or blown-up quotient, and the
    model records the event instead. *)
Inductive JsError : Type := TypeError | DivisionByNearZero.

Inductive Outcome (A : Type) : Type :=
| Ok (a : A)
| Throw (e : JsError).
Arguments Ok {A} a.
Arguments Throw {A} e.

(** A computation over a state [S]: it returns a value or raises, and in both
    cases leaves a state behind (what was written before a [throw] stays
    written). *)
Definition M (S A : Type) : Type := S -> Outcome A * S.

Definition ret {S A : Type} (a : A) : M S A := fun s => (Ok a, s).

Definition throw {S A : Type} (e : JsError) : M S A := fun s => (Throw e, s).

Definition bind {S A B : Type} (m : M S A) (k : A -> M S B) : M S B :=
  fun s =>
    match m s with
    | (Ok a, s') => k a s'
    | (Throw e, s') => (Throw e, s')
    end.

Notation "'let*' x ':=' m 'in' k" := (bind m (fun x => k))
  (at level 10, x name, m at level 100, k at level 200).
Notation "m ';;' k" := (bind m (fun _ => k))
  (at level 100, k at level 200, right associativity).

(** [for (let i = lo; i < lo + n; i++) body(i)] *)
Fixpoint for_loop {S : Type} (n : nat) (lo : nat) (body : nat -> M S unit) : M S unit :=
  match n with
  | O => ret tt
  | Datatypes.S n' => body lo ;; for_loop n' (Datatypes.S lo) body
  end.

(** [a / b], checked: a divisor of magnitude at most [0.01] is an error. *)
Definition div {S : Type} (a b : R) : M S R :=
  if Rle_dec (Rabs b) 0.01 then throw DivisionByNearZero else ret (a / b).

(** The final state and the result of a run. *)
Definition exec {S A : Type} (m : M S A) (s : S) : S := snd (m s).
Definition returns {S A : Type} (m : M S A) (s : S) : Prop := exists a, fst (m s) = Ok a.

(** ** The main particle set *)

(** The refs of the particle system: the seven typed arrays, the number of
    [Math.random()] calls made so far, the theme index with the label shown
    for it, and whether [particlesRef.current] is set. *)
Record Particles : Type := mkParticles {
  mem : Store;
  draws : nat;
  colorTheme : nat;
  currentTheme : string;
  particlesRef : bool
}.

Definition set_mem (f : Store) (w : Particles) : Particles :=
  mkParticles f (draws w) (colorTheme w) (currentTheme w) (particlesRef w).
Definition set_draws (n : nat) (w : Particles) : Particles :=
  mkParticles (mem w) n (colorTheme w) (currentTheme w) (particlesRef w).
Definition set_colorTheme (n : nat) (w : Particles) : Particles :=
  mkParticles (mem w) (draws w) n (currentTheme w) (particlesRef w).
Definition set_currentTheme (t : string) (w : Particles) : Particles :=
  mkParticles (mem w) (draws w) (colorTheme w) t (particlesRef w).
Definition set_particlesRef (b : bool) (w : Particles) : Particles :=
  mkParticles (mem w) (draws w) (colorTheme w) (currentTheme w) b.

Section Program.

(** The device test [isMobile()] and the sequence behind [Math.random()]. *)
Variable mobile : bool.
Variable rng : nat -> R.

(** [a[i]] *)
Definition read (b : Buffer) (i : nat) : M Particles R :=
  fun w => (Ok (get (mem w b) i), w).

(** [a[i] = v] *)
Definition write (b : Buffer) (i : nat) (v : R) : M Particles unit :=
  fun w => (Ok tt, set_mem (store_set (mem w) b i v) w).

(** [a[i] += v] and [a[i] *= v] *)
Definition add_to (b : Buffer) (i : nat) (v : R) : M Particles unit :=
  let* old := read b i in write b i (old + v).
Definition mul_by (b : Buffer) (i : nat) (v : R) : M Particles unit :=
  let* old := read b i in write b i (old * v).

(** [Math.random()] *)
Definition Math_random : M Particles R :=
  fun w => (Ok (rng (draws w)), set_draws (S (draws w)) w).

(** *** The per-frame integrator ([animate], the loop over the particles) *)

Definition GRAVITY_STRENGTH : R := 0.35.
Definition EXPLOSION_STRENGTH : R := 0.25.
Definition DAMPING : R := 0.90.
Definition BROWN_MOTION : R := 0.03.

Definition animate_body (pinchStrength : R) (i : nat) : M Particles unit :=
  let i3 := (i * 3)%nat in
  let* x := read Positions i3 in
  let* y := read Positions (i3 + 1) in
  let* z := read Positions (i3 + 2) in
  (if Rgt_dec pinchStrength 0.01 then
     let* targetX := read TargetTree i3 in
     let* targetY := read TargetTree (i3 + 1) in
     let* targetZ := read TargetTree (i3 + 2) in
     let dx := targetX - x in
     let dy := targetY - y in
     let dz := targetZ - z in
     let dist := sqrt (dx * dx + dy * dy + dz * dz) in
     if Rgt_dec dist 0.01 then
       let force := GRAVITY_STRENGTH * pinchStrength in
       let* qx := div dx dist in add_to Velocities i3 (qx * force) ;;
       let* qy := div dy dist in add_to Velocities (i3 + 1) (qy * force) ;;
       let* qz := div dz dist in add_to Velocities (i3 + 2) (qz * force)
     else ret tt
   else
     let* targetX := read TargetExploded i3 in
     let* targetY := read TargetExploded (i3 + 1) in
     let* targetZ := read TargetExploded (i3 + 2) in
     let dx := targetX - x in
     let dy := targetY - y in
     let dz := targetZ - z in
     let dist := sqrt (dx * dx + dy * dy + dz * dz) in
     (if Rgt_dec dist 0.01 then
        let force := EXPLOSION_STRENGTH in
        let* qx := div dx dist in add_to Velocities i3 (qx * force) ;;
        let* qy := div dy dist in add_to Velocities (i3 + 1) (qy * force) ;;
        let* qz := div dz dist in add_to Velocities (i3 + 2) (qz * force)
      else ret tt) ;;
     let* r1 := Math_random in add_to Velocities i3 ((r1 - 0.5) * BROWN_MOTION) ;;
     let* r2 := Math_random in add_to Velocities (i3 + 1) ((r2 - 0.5) * BROWN_MOTION) ;;
     let* r3 := Math_random in add_to Velocities (i3 + 2) ((r3 - 0.5) * BROWN_MOTION)) ;;
  mul_by Velocities i3 DAMPING ;;
  mul_by Velocities (i3 + 1) DAMPING ;;
  mul_by Velocities (i3 + 2) DAMPING ;;
  let* v1 := read Velocities i3 in add_to Positions i3 v1 ;;
  let* v2 := read Velocities (i3 + 1) in add_to Positions (i3 + 1) v2 ;;
  let* v3 := read Velocities (i3 + 2) in add_to Positions (i3 + 2) v3.

Definition animate_particles (pinchStrength : R) : M Particles unit :=
  for_loop (PARTICLE_COUNT mobile) 0 (animate_body pinchStrength).

End Program.

(** *** The update of one particle, in the words of the specification *)

(** 1. The active target. *)
Definition active_target (pinchStrength : R) (tree exploded : vec3) : vec3 :=
  if Rgt_dec pinchStrength 0.01 then tree else exploded.

(** 2. The force constant of the active branch. *)
Definition force_constant (pinchStrength : R) : R :=
  if Rgt_dec pinchStrength 0.01 then 0.35 * pinchStrength else 0.25.

Definition unit_toward (p target : vec3) : vec3 :=
  vscale (/ vnorm (vsub target p)) (vsub target p).

(** 3. The jitter of the exploded branch, from three draws. *)
Definition jitter (r1 r2 r3 : R) : vec3 :=
  ((r1 - 0.5) * 0.03, (r2 - 0.5) * 0.03, (r3 - 0.5) * 0.03).

(** Steps 1 to 5 for a particle at [p] with velocity [v]: the new position
    and the new velocity. *)
Definition integrate (pinchStrength : R) (tree exploded : vec3) (j : vec3)
    (p v : vec3) : vec3 * vec3 :=
  let target := active_target pinchStrength tree exploded in
  let v1 :=
    if Rgt_dec (vnorm (vsub target p)) 0.01
    then vadd v (vscale (force_constant pinchStrength) (unit_toward p target))
    else v in
  let v2 := if Rgt_dec pinchStrength 0.01 then v1 else vadd v1 j in
  let v3 := vscale 0.90 v2 in
  (vadd p v3, v3).

(** The buffers have the length the mount effect gave them. *)
Definition buffers_sized (n : nat) (w : Particles) : Prop :=
  length (mem w Positions) = (n * 3)%nat /\
  length (mem w Velocities) = (n * 3)%nat /\
  length (mem w TargetTree) = (n * 3)%nat /\
  length (mem w TargetExploded) = (n * 3)%nat /\
  length (mem w Colors) = (n * 3)%nat /\
  length (mem w Sizes) = n /\
  length (mem w Alphas) = n.

(** The jitter of a particle whose first draw is number [d]. *)
Definition jitter_at (rng : nat -> R) (d : nat) : vec3 :=
  jitter (rng d) (rng (S d)) (rng (S (S d))).

(** The number of draws one particle takes in a frame. *)
Definition draws_per_particle (pinchStrength : R) : nat :=
  if Rgt_dec pinchStrength 0.01 then 0%nat else 3%nat.

(** The live position and the velocity of particle [i]. *)
Definition particle (w : Particles) (i : nat) : vec3 * vec3 :=
  (vec3_at (mem w Positions) i, vec3_at (mem w Velocities) i).

(** A computation that returns from every state. *)
Definition total {S A : Type} (m : M S A) : Prop :=
  forall s, exists a s', m s = (Ok a, s').

(** What a pass of the integrator may not touch: every buffer other than the
    live positions and the velocities, and the theme fields. *)
Definition integrator_frame (w w' : Particles) : Prop :=
  (forall b, b <> Positions -> b <> Velocities -> mem w' b = mem w b) /\
  colorTheme w' = colorTheme w /\
  currentTheme w' = currentTheme w /\
  particlesRef w' = particlesRef w.

(** A computation that returns from every state and respects the frame. *)
Definition steady {A : Type} (m : M Particles A) : Prop :=
  forall w, exists a w', m w = (Ok a, w') /\ integrator_frame w w'.

(** A world whose buffers are filled with zeros, as allocated. *)
Definition blank_store (n : nat) : Store :=
  fun b =>
    match b with
    | Sizes | Alphas => Float32Array n
    | _ => Float32Array (n * 3)
    end.

Definition blank_particles (mobile : bool) : Particles :=
  mkParticles (blank_store (PARTICLE_COUNT mobile)) 0 0 EmptyString true.

(** *** Frames with the pinch strength held fixed *)

(** The world after [n] frames. *)
Fixpoint frames (mobile : bool) (rng : nat -> R) (pinchStrength : R) (n : nat)
    (w : Particles) : Particles :=
  match n with
  | O => w
  | S n' => exec (animate_particles mobile rng pinchStrength) (frames mobile rng pinchStrength n' w)
  end.

(** The distance of particle [i] to its tree target, and its speed. *)
Definition tree_distance (w : Particles) (i : nat) : R :=
  vnorm (vsub (vec3_at (mem w TargetTree) i) (vec3_at (mem w Positions) i)).

Definition speed_of (w : Particles) (i : nat) : R :=
  vnorm (vec3_at (mem w Velocities) i).

(** The step of one particle toward the tree target [t], at pinch strength 1:
    the state is the pair of the position and the velocity. *)
Definition tree_step (t : vec3) (s : vec3 * vec3) : vec3 * vec3 :=
  integrate 1 t t (0, 0, 0) (fst s) (snd s).

Definition dist_to (t : vec3) (s : vec3 * vec3) : R := vnorm (vsub t (fst s)).
Definition speed (s : vec3 * vec3) : R := vnorm (snd s).

(** The energy of the particle: kinetic energy, and the potential of a force
    of constant magnitude [0.35] seen through the damping [0.90]. *)
Definition energy (t : vec3) (s : vec3 * vec3) : R :=
  speed s * speed s / 2 + 7 / 18 * dist_to t s.

(** The region the particle ends up in: speed at most [3.16], energy at most
    that of a particle that crosses the ball of radius [1.7] at full speed. *)
Definition settled (t : vec3) (s : vec3 * vec3) : Prop :=
  speed s <= 3.16 /\ energy t s <= 3.16 * 3.16 / 2 + 7 / 18 * (1.7 + 3.16).

(** A world whose particle 0 is at [x] on the first axis with velocity [v]
    along it, every target at the origin. *)
Definition one_particle_world (x v : R) : Particles :=
  set_mem
    (store_set (store_set (blank_store (PARTICLE_COUNT false)) Positions 0 x) Velocities 0 v)
    (blank_particles false).

(** ** The library functions the component calls *)

(** [Math.floor], [Math.pow] on a nonnegative base, [Math.max]. *)
Definition Math_floor (x : R) : R := IZR (Zfloor x).
Definition Math_pow (x y : R) : R := if Rle_dec x 0 then 0 else Rpower x y.
Definition Math_max (x y : R) : R := Rmax x y.

(** [new THREE.Color(hex)]: the three channels of the hexadecimal triplet,
    each divided by 255 (the conversion of [Color.setHex], before any change
    of colour space).  [c.multiplyScalar(s)] scales the three channels and does
    not clamp them. *)
Definition Color (hex : Z) : vec3 :=
  (IZR (Z.land (Z.shiftr hex 16) 255) / 255,
   IZR (Z.land (Z.shiftr hex 8) 255) / 255,
   IZR (Z.land hex 255) / 255).

Definition multiplyScalar (c : vec3) (s : R) : vec3 := (vx c * s, vy c * s, vz c * s).

Definition colorGold : vec3 := Color 0xFFD700.
Definition colorWhite : vec3 := Color 0xFFFFFF.
Definition colorRed : vec3 := Color 0xFF6B6B.
Definition colorGreen : vec3 := Color 0x4ECDC4.
Definition colorBlue : vec3 := Color 0x4169E1.
Definition colorSilver : vec3 := Color 0xC0C0C0.
Definition colorPink : vec3 := Color 0xFF69B4.
Definition colorPurple : vec3 := Color 0x9370DB.

(** ** The target generator (the mount effect) *)

(** 3D noise function for the explosion state. *)
Definition noise3D (x y z : R) : R :=
  let n := sin (x * 12.9898 + y * 78.233 + z * 37.719) * 43758.5453 in
  n - Math_floor n.

Definition GOLDEN_ANGLE : R := 2.399963229728653.

Section Mount.

Variable mobile : bool.
Variable rng : nat -> R.

Definition init_body (i : nat) : M Particles unit :=
  let i3 := (i * 3)%nat in
  (* Tree shape *)
  let* randomCheck := Math_random rng in
  let layerPct := INR i / INR (PARTICLE_COUNT mobile) in
  (if Rgt_dec randomCheck (1 - layerPct * 0.7) then
     let* r0 := Math_random rng in
     let redistributedPct := r0 * 0.5 in
     let actualLayerPct := redistributedPct in
     let layerIndex := Math_floor (actualLayerPct * 12) in
     let normalizedY := layerIndex / 12 in
     let linearFactor := 1 - normalizedY in
     let curvedFactor := Math_pow (1 - normalizedY) 1.3 in
     let layerRadiusMax := TREE_RADIUS mobile * (linearFactor * 0.8 + curvedFactor * 0.2) in
     let angle := INR i * GOLDEN_ANGLE in
     let* r1 := Math_random rng in
     let r := layerRadiusMax * sqrt r1 in
     let y := - TREE_HEIGHT mobile / 2 + normalizedY * TREE_HEIGHT mobile in
     let droop := r * 0.4 in
     let y := y - droop in
     let* r2 := Math_random rng in
     let yRandomness := (r2 - 0.5) * 0.6 in
     let* r3 := Math_random rng in
     let depthJitter := (r3 - 0.5) * (0.8 + normalizedY * 1.2) in
     write TargetTree i3 (cos angle * r + depthJitter * 0.3) ;;
     write TargetTree (i3 + 1) (y + yRandomness) ;;
     write TargetTree (i3 + 2) (sin angle * r + depthJitter * 0.3)
   else
     let layerIndex := Math_floor (layerPct * 12) in
     let normalizedY := layerIndex / 12 in
     let linearFactor := 1 - normalizedY in
     let curvedFactor := Math_pow (1 - normalizedY) 1.3 in
     let layerRadiusMax := TREE_RADIUS mobile * (linearFactor * 0.8 + curvedFactor * 0.2) in
     let minRadius := 0.2 in
     let finalRadius := Math_max minRadius layerRadiusMax in
     let angle := INR i * GOLDEN_ANGLE in
     let* r1 := Math_random rng in
     let r := finalRadius * sqrt r1 in
     let y := - TREE_HEIGHT mobile / 2 + normalizedY * TREE_HEIGHT mobile in
     let droop := r * 0.4 in
     let y := y - droop in
     let* r2 := Math_random rng in
     let yRandomness := (r2 - 0.5) * 0.6 in
     let* r3 := Math_random rng in
     let depthJitter := (r3 - 0.5) * (0.8 + normalizedY * 1.2) in
     write TargetTree i3 (cos angle * r + depthJitter * 0.3) ;;
     write TargetTree (i3 + 1) (y + yRandomness) ;;
     write TargetTree (i3 + 2) (sin angle * r + depthJitter * 0.3)) ;;
  (* Exploded state *)
  let spread := 60 in
  let noiseX := noise3D (INR i) 0 0 in
  let noiseY := noise3D 0 (INR i) 0 in
  let noiseZ := noise3D 0 0 (INR i) in
  write TargetExploded i3 ((noiseX - 0.5) * spread) ;;
  write TargetExploded (i3 + 1) ((noiseY - 0.5) * spread) ;;
  write TargetExploded (i3 + 2) ((noiseZ - 0.5) * spread) ;;
  (* Start in the exploded state *)
  let* e1 := read TargetExploded i3 in write Positions i3 e1 ;;
  let* e2 := read TargetExploded (i3 + 1) in write Positions (i3 + 1) e2 ;;
  let* e3 := read TargetExploded (i3 + 2) in write Positions (i3 + 2) e3 ;;
  (* Initial velocities *)
  write Velocities i3 0 ;;
  write Velocities (i3 + 1) 0 ;;
  write Velocities (i3 + 2) 0 ;;
  (* Colours *)
  let* rand := Math_random rng in
  let tempColor :=
    if Rgt_dec rand 0.7 then multiplyScalar colorWhite 1.3
    else if Rgt_dec rand 0.4 then multiplyScalar colorGold 1.5
    else if Rgt_dec rand 0.25 then multiplyScalar colorRed 1.2
    else colorGreen in
  write Colors i3 (vx tempColor) ;;
  write Colors (i3 + 1) (vy tempColor) ;;
  write Colors (i3 + 2) (vz tempColor) ;;
  (* Sizes and alphas *)
  let* s := Math_random rng in write Sizes i (0.8 + s * 0.6) ;;
  let* a := Math_random rng in write Alphas i (0.7 + a * 0.3).

(** The particle part of the mount effect: allocate the seven arrays, fill
    them, and store the refs. *)
Definition mount : M Particles unit :=
  (fun w => (Ok tt, set_mem (blank_store (PARTICLE_COUNT mobile)) w)) ;;
  for_loop (PARTICLE_COUNT mobile) 0 init_body ;;
  (fun w => (Ok tt, set_particlesRef true w)).

(** *** The tree target, in the words of the specification *)

(** [draw k] is the [k]-th draw of particle [i]. *)

(** Whether the particle takes a fresh random layer: [random() > 1 - (i/N) * 0.7]. *)
Definition takes_fresh_layer (i : nat) (draw : nat -> R) : bool :=
  if Rgt_dec (draw 0%nat) (1 - INR i / INR (PARTICLE_COUNT mobile) * 0.7) then true else false.

(** The layer fraction: a fresh draw (scaled into the lower half), or [i/N]. *)
Definition layer_fraction (i : nat) (draw : nat -> R) : R :=
  if takes_fresh_layer i draw then draw 1%nat * 0.5 else INR i / INR (PARTICLE_COUNT mobile).

(** The index of the draw that follows the choice of the layer. *)
Definition next_draw (i : nat) (draw : nat -> R) : nat :=
  if takes_fresh_layer i draw then 2%nat else 1%nat.

(** The height of the layer: the fraction, rounded down to twelfths. *)
Definition layer_height (i : nat) (draw : nat -> R) : R :=
  Math_floor (layer_fraction i draw * 12) / 12.

(** The maximum radius at height [h]: a blend of the linear falloff (weight
    0.8) and the power-1.3 falloff (weight 0.2) of the tree radius. *)
Definition layer_max_radius (h : R) : R :=
  TREE_RADIUS mobile * ((1 - h) * 0.8 + Math_pow (1 - h) 1.3 * 0.2).

(** The radius: [maxRadius * sqrt(random())]. *)
Definition tree_radius (i : nat) (draw : nat -> R) : R :=
  layer_max_radius (layer_height i draw) * sqrt (draw (next_draw i draw)).

(** The golden-angle increment. *)
Definition tree_angle (i : nat) : R := INR i * 2.399963229728653.

(** The droop, proportional to the radius, and the two jitters. *)
Definition tree_droop (i : nat) (draw : nat -> R) : R := tree_radius i draw * 0.4.

Definition tree_y_jitter (i : nat) (draw : nat -> R) : R :=
  (draw (next_draw i draw + 1)%nat - 0.5) * 0.6.

Definition tree_depth_jitter (i : nat) (draw : nat -> R) : R :=
  (draw (next_draw i draw + 2)%nat - 0.5) * (0.8 + layer_height i draw * 1.2) * 0.3.

(** Polar to Cartesian, plus droop and jitter. *)
Definition tree_target (i : nat) (draw : nat -> R) : vec3 :=
  (tree_radius i draw * cos (tree_angle i) + tree_depth_jitter i draw,
   - TREE_HEIGHT mobile / 2 + layer_height i draw * TREE_HEIGHT mobile
     - tree_droop i draw + tree_y_jitter i draw,
   tree_radius i draw * sin (tree_angle i) + tree_depth_jitter i draw).

(** *** The exploded target, in the words of the specification *)

Definition exploded_target (i : nat) : vec3 :=
  vscale 60 (noise3D (INR i) 0 0 - 0.5, noise3D 0 (INR i) 0 - 0.5, noise3D 0 0 (INR i) - 0.5).

End Mount.

(** ** The colour themes ([changeTheme]) *)

Definition themeNames : list string :=
  ["经典圣诞"%string; "冰雪奇缘"%string; "梦幻粉紫"%string].

Section Theme.

Variable mobile : bool.
Variable rng : nat -> R.

Definition changeTheme_body (newTheme : nat) (i : nat) : M Particles unit :=
  let i3 := (i * 3)%nat in
  let* rand := Math_random rng in
  let tempColor :=
    if (newTheme =? 0)%nat then
      if Rgt_dec rand 0.7 then multiplyScalar colorWhite 1.3
      else if Rgt_dec rand 0.4 then multiplyScalar colorGold 1.5
      else if Rgt_dec rand 0.25 then multiplyScalar colorRed 1.2
      else colorGreen
    else if (newTheme =? 1)%nat then
      if Rgt_dec rand 0.6 then multiplyScalar colorWhite 1.4
      else if Rgt_dec rand 0.3 then multiplyScalar colorBlue 1.5
      else multiplyScalar colorSilver 1.3
    else
      if Rgt_dec rand 0.6 then multiplyScalar colorWhite 1.4
      else if Rgt_dec rand 0.3 then multiplyScalar colorPink 1.5
      else multiplyScalar colorPurple 1.3 in
  write Colors i3 (vx tempColor) ;;
  write Colors (i3 + 1) (vy tempColor) ;;
  write Colors (i3 + 2) (vz tempColor).

Definition changeTheme : M Particles unit :=
  fun w =>
    let newTheme := ((colorTheme w + 1) mod 3)%nat in
    ((fun w => (Ok tt, set_colorTheme newTheme w)) ;;
     (fun w => (Ok tt, set_currentTheme (nth newTheme themeNames EmptyString) w)) ;;
     (fun w =>
        if particlesRef w
        then for_loop (PARTICLE_COUNT mobile) 0 (changeTheme_body newTheme) w
        else (Ok tt, w))) w.

End Theme.

(** *** The palettes, in the words of the specification *)

(** The entries of a theme, in the order of its thresholds. *)
Definition theme_palette (theme : nat) : list vec3 :=
  match theme with
  | 0%nat => [multiplyScalar colorWhite 1.3; multiplyScalar colorGold 1.5;
              multiplyScalar colorRed 1.2; colorGreen]
  | 1%nat => [multiplyScalar colorWhite 1.4; multiplyScalar colorBlue 1.5;
              multiplyScalar colorSilver 1.3]
  | _ => [multiplyScalar colorWhite 1.4; multiplyScalar colorPink 1.5;
          multiplyScalar colorPurple 1.3]
  end.

(** The draw of a colour: the first threshold that [rand] exceeds. *)
Definition theme_color (theme : nat) (rand : R) : vec3 :=
  match theme with
  | 0%nat =>
      if Rgt_dec rand 0.7 then multiplyScalar colorWhite 1.3
      else if Rgt_dec rand 0.4 then multiplyScalar colorGold 1.5
      else if Rgt_dec rand 0.25 then multiplyScalar colorRed 1.2
      else colorGreen
  | 1%nat =>
      if Rgt_dec rand 0.6 then multiplyScalar colorWhite 1.4
      else if Rgt_dec rand 0.3 then multiplyScalar colorBlue 1.5
      else multiplyScalar colorSilver 1.3
  | _ =>
      if Rgt_dec rand 0.6 then multiplyScalar colorWhite 1.4
      else if Rgt_dec rand 0.3 then multiplyScalar colorPink 1.5
      else multiplyScalar colorPurple 1.3
  end.

(** The colour of particle [i]. *)
Definition color_of (w : Particles) (i : nat) : vec3 := vec3_at (mem w Colors) i.

(** Four draws, one for each entry of the first theme, then 0.1 for ever. *)
Definition four_draws (n : nat) : R :=
  match n with
  | 0%nat => 0.8
  | 1%nat => 0.5
  | 2%nat => 0.3
  | _ => 0.1
  end.

(** A blank world whose theme index is [t]. *)
Definition themed_particles (mobile : bool) (t : nat) : Particles :=
  set_colorTheme t (blank_particles mobile).

(** ** Snow and fireworks *)

Module Effects.

(** The [THREE.Points] of a firework layer: the three attribute arrays of its
    geometry, the size and the opacity of its material, whether it is in the
    scene, and whether its geometry and material have been disposed of. *)
Record Points : Type := mkPoints {
  fwPositions : list R;
  fwColors : list R;
  fwSizes : list R;
  materialSize : R;
  opacity : R;
  inScene : bool;
  disposed : bool
}.

(** An entry of [fireworksRef.current]. *)
Record Firework : Type := mkFirework {
  particles : option Points;
  velocities : list R;
  age : R;
  lifetime : R;
  active : bool;
  layerIndex : nat
}.

(** An entry of the [layers] table of [launchFireworks]. *)
Record Layer : Type := mkLayer {
  count : nat;
  speed : R;
  size : R;
  delay : R
}.

(** The closures handed to [setTimeout]. *)
Inductive Callback : Type :=
| HideSnow
| SpawnLayer (fireworkPos : vec3) (layer : Layer) (layerIndex : nat).

(** The refs and the environment the effects work on: the random draws made
    so far, the snow flags ([snowParticlesRef] holds the [visible] flag of the
    snow points when the ref is set), the fireworks, the pending timers in the
    order in which they will fire, each with its due time in milliseconds, the
    clock, and the exceptions that timer callbacks left uncaught. *)
Record State : Type := mkState {
  draws : nat;
  isSnowing : bool;
  isSnowingRef : bool;
  snowParticlesRef : option bool;
  fireworksRef : list Firework;
  timers : list (R * Callback);
  now : R;
  uncaught : list JsError
}.

Definition set_draws (n : nat) (s : State) : State :=
  mkState n (isSnowing s) (isSnowingRef s) (snowParticlesRef s) (fireworksRef s)
    (timers s) (now s) (uncaught s).
Definition set_isSnowing (b : bool) (s : State) : State :=
  mkState (draws s) b (isSnowingRef s) (snowParticlesRef s) (fireworksRef s)
    (timers s) (now s) (uncaught s).
Definition set_isSnowingRef (b : bool) (s : State) : State :=
  mkState (draws s) (isSnowing s) b (snowParticlesRef s) (fireworksRef s)
    (timers s) (now s) (uncaught s).
Definition set_snowParticlesRef (v : option bool) (s : State) : State :=
  mkState (draws s) (isSnowing s) (isSnowingRef s) v (fireworksRef s)
    (timers s) (now s) (uncaught s).
Definition set_fireworksRef (l : list Firework) (s : State) : State :=
  mkState (draws s) (isSnowing s) (isSnowingRef s) (snowParticlesRef s) l
    (timers s) (now s) (uncaught s).
Definition set_timers (q : list (R * Callback)) (s : State) : State :=
  mkState (draws s) (isSnowing s) (isSnowingRef s) (snowParticlesRef s) (fireworksRef s)
    q (now s) (uncaught s).
Definition set_now (t : R) (s : State) : State :=
  mkState (draws s) (isSnowing s) (isSnowingRef s) (snowParticlesRef s) (fireworksRef s)
    (timers s) t (uncaught s).
Definition set_uncaught (l : list JsError) (s : State) : State :=
  mkState (draws s) (isSnowing s) (isSnowingRef s) (snowParticlesRef s) (fireworksRef s)
    (timers s) (now s) l.

(** *** Timers *)

(** The queue is kept in firing order: by due time, and among equal due times
    by the order of the calls. *)
Fixpoint insert_timer (due : R) (cb : Callback) (q : list (R * Callback)) :
    list (R * Callback) :=
  match q with
  | [] => [(due, cb)]
  | (d, c) :: q' =>
      if Rle_dec d due then (d, c) :: insert_timer due cb q' else (due, cb) :: (d, c) :: q'
  end.

(** [setTimeout(cb, ms)] *)
Definition setTimeout (cb : Callback) (ms : R) : M State unit :=
  fun s => (Ok tt, set_timers (insert_timer (now s + ms) cb (timers s)) s).

(** *** Library functions *)

Section Library.

Variable rng : nat -> R.

(** [Math.random()] *)
Definition Math_random : M State R :=
  fun s => (Ok (rng (draws s)), set_draws (S (draws s)) s).

(** The member [Float32Array] of the namespace object [THREE] of
    [import * as THREE from 'three']: the module exports no such name, so the
    member is [undefined]. *)
Definition THREE_Float32Array : option (nat -> list R) := None.

(** [new C(n)] for a constructor [C] read from a namespace: [new undefined(n)]
    raises a TypeError. *)
Definition new_ (C : option (nat -> list R)) (n : nat) : M State (list R) :=
  match C with
  | Some ctor => ret (ctor n)
  | None => throw TypeError
  end.

(** [x % y] on nonnegative [x] and positive [y]. *)
Definition js_rem (x y : R) : R := x - y * Math_floor (x / y).

(** [Color.setHSL] and [Color.lerpColors] of three. *)
Definition clamp (x lo hi : R) : R := Rmax lo (Rmin hi x).

Definition hue2rgb (p q t : R) : R :=
  let t := if Rlt_dec t 0 then t + 1 else t in
  let t := if Rgt_dec t 1 then t - 1 else t in
  if Rlt_dec t (1 / 6) then p + (q - p) * 6 * t
  else if Rlt_dec t (1 / 2) then q
  else if Rlt_dec t (2 / 3) then p + (q - p) * 6 * (2 / 3 - t)
  else p.

Definition setHSL (h s l : R) : vec3 :=
  let h := js_rem (js_rem h 1 + 1) 1 in
  let s := clamp s 0 1 in
  let l := clamp l 0 1 in
  if Req_dec_T s 0 then (l, l, l)
  else
    let p := if Rle_dec l 0.5 then l * (1 + s) else l + s - l * s in
    let q := 2 * l - p in
    (hue2rgb q p (h + 1 / 3), hue2rgb q p h, hue2rgb q p (h - 1 / 3)).

Definition lerpColors (c1 c2 : vec3) (alpha : R) : vec3 :=
  (vx c1 + (vx c2 - vx c1) * alpha,
   vy c1 + (vy c2 - vy c1) * alpha,
   vz c1 + (vz c2 - vz c1) * alpha).

(** *** Snow ([toggleSnow]) *)

(** The callback of the snow timer. *)
Definition hideSnow : M State unit :=
  (fun s => (Ok tt, set_isSnowing false s)) ;;
  (fun s => (Ok tt, set_isSnowingRef false s)) ;;
  (fun s =>
     match snowParticlesRef s with
     | Some _ => (Ok tt, set_snowParticlesRef (Some false) s)
     | None => (Ok tt, s)
     end).

Definition toggleSnow : M State unit :=
  fun s =>
    if negb (isSnowingRef s) then
      ((fun s => (Ok tt, set_isSnowing true s)) ;;
       (fun s => (Ok tt, set_isSnowingRef true s)) ;;
       (fun s =>
          match snowParticlesRef s with
          | Some _ => (Ok tt, set_snowParticlesRef (Some true) s)
          | None => (Ok tt, s)
          end) ;;
       setTimeout HideSnow 10000) s
    else (Ok tt, s).

(** *** Fireworks ([launchFireworks]) *)

(** The arrays a layer callback fills: positions, velocities, colours, sizes. *)
Definition LayerBuffers : Type := (list R * list R * list R * list R)%type.

(** The body of the loop over the particles of a layer. *)
Definition fill_particle (fireworkPos : vec3) (layer : Layer) (fwColor1 fwColor2 : vec3)
    (i : nat) (b : LayerBuffers) : M State LayerBuffers :=
  let '(fwPositions, fwVelocities, fwColors, fwSizes) := b in
  let FW_PARTICLES := count layer in
  let fwPositions := set fwPositions (i * 3) (vx fireworkPos) in
  let fwPositions := set fwPositions (i * 3 + 1) (vy fireworkPos) in
  let fwPositions := set fwPositions (i * 3 + 2) (vz fireworkPos) in
  let* r1 := Math_random in
  let theta := r1 * PI * 2 in
  let* r2 := Math_random in
  let phi := acos (2 * r2 - 1) in
  let* r3 := Math_random in
  let speed := (r3 * 0.4 + 0.8) * speed layer in
  let fwVelocities := set fwVelocities (i * 3) (sin phi * cos theta * speed) in
  let fwVelocities := set fwVelocities (i * 3 + 1) (sin phi * sin theta * speed) in
  let fwVelocities := set fwVelocities (i * 3 + 2) (cos phi * speed) in
  let colorMix := INR i / INR FW_PARTICLES in
  let tempColor := lerpColors fwColor1 fwColor2 colorMix in
  let fwColors := set fwColors (i * 3) (vx tempColor) in
  let fwColors := set fwColors (i * 3 + 1) (vy tempColor) in
  let fwColors := set fwColors (i * 3 + 2) (vz tempColor) in
  let* r4 := Math_random in
  let fwSizes := set fwSizes i (size layer * (0.8 + r4 * 0.4)) in
  ret (fwPositions, fwVelocities, fwColors, fwSizes).

Fixpoint fill_layer (fireworkPos : vec3) (layer : Layer) (fwColor1 fwColor2 : vec3)
    (n : nat) (i : nat) (b : LayerBuffers) : M State LayerBuffers :=
  match n with
  | O => ret b
  | S n' =>
      let* b' := fill_particle fireworkPos layer fwColor1 fwColor2 i b in
      fill_layer fireworkPos layer fwColor1 fwColor2 n' (S i) b'
  end.

(** The callback of a layer timer, with the constructor that allocates the
    colour array as a parameter. *)
Definition spawnLayer_with (colorArray : option (nat -> list R))
    (fireworkPos : vec3) (layer : Layer) (layerIndex : nat) : M State unit :=
  let FW_PARTICLES := count layer in
  let fwPositions := Float32Array (FW_PARTICLES * 3) in
  let fwVelocities := Float32Array (FW_PARTICLES * 3) in
  let* fwColors := new_ colorArray (FW_PARTICLES * 3) in
  let fwSizes := Float32Array FW_PARTICLES in
  let* h1 := Math_random in
  let fwColor1 := setHSL h1 1.0 0.6 in
  let* h2 := Math_random in
  let fwColor2 := setHSL (js_rem (h2 + 0.3) 1.0) 1.0 0.7 in
  let* b := fill_layer fireworkPos layer fwColor1 fwColor2 FW_PARTICLES 0
              (fwPositions, fwVelocities, fwColors, fwSizes) in
  let '(fwPositions, fwVelocities, fwColors, fwSizes) := b in
  let fwParticles := mkPoints fwPositions fwColors fwSizes (size layer) 1 true false in
  fun s =>
    (Ok tt,
     set_fireworksRef
       (fireworksRef s ++ [mkFirework (Some fwParticles) fwVelocities 0 3.0 true layerIndex]) s).

(** The callback as the source has it: the colour array is allocated with
    [new THREE.Float32Array(...)]. *)
Definition spawnLayer : vec3 -> Layer -> nat -> M State unit :=
  spawnLayer_with THREE_Float32Array.

Definition layers (mobile : bool) : list Layer :=
  [ mkLayer (if mobile then 60 else 200)%nat 0.8 0.8 0;
    mkLayer (if mobile then 45 else 150)%nat 0.5 0.6 0.1;
    mkLayer (if mobile then 30 else 100)%nat 0.3 0.4 0.2 ].

(** [layers.forEach((layer, layerIndex) => setTimeout(..., layer.delay * 1000))] *)
Fixpoint schedule_layers (fireworkPos : vec3) (ls : list Layer) (layerIndex : nat) :
    M State unit :=
  match ls with
  | [] => ret tt
  | layer :: rest =>
      setTimeout (SpawnLayer fireworkPos layer layerIndex) (delay layer * 1000) ;;
      schedule_layers fireworkPos rest (S layerIndex)
  end.

(** The tween of the star that ends [launchFireworks] belongs to the
    presentation and is left out. *)
Definition launchFireworks (mobile : bool) : M State unit :=
  let* rx := Math_random in
  let* ry := Math_random in
  let fireworkPos := ((rx - 0.5) * 20, 10 + ry * 10, 0) in
  schedule_layers fireworkPos (layers mobile) 0.

(** *** The event loop *)

Definition run_callback_with (colorArray : option (nat -> list R)) (cb : Callback) :
    M State unit :=
  match cb with
  | HideSnow => hideSnow
  | SpawnLayer fireworkPos layer layerIndex =>
      spawnLayer_with colorArray fireworkPos layer layerIndex
  end.

(** A timer fires: the clock is at its due time, and an exception that
    escapes the callback is reported and dropped. *)
Definition fire_with (colorArray : option (nat -> list R)) (t : R * Callback) (s : State) :
    State :=
  let s := set_now (Rmax (now s) (fst t)) s in
  match run_callback_with colorArray (snd t) s with
  | (Ok _, s') => s'
  | (Throw e, s') => set_uncaught (uncaught s' ++ [e]) s'
  end.

(** The timers of a queue that are due at [t]: a prefix of the queue. *)
Fixpoint due_timers (t : R) (q : list (R * Callback)) : list (R * Callback) :=
  match q with
  | [] => []
  | (d, c) :: q' => if Rle_dec d t then (d, c) :: due_timers t q' else []
  end.

(** Time passes until [t]: the timers due by then fire in order.  No callback
    of the component arms a timer; one armed by a callback would stay in the
    queue. *)
Definition advance_with (colorArray : option (nat -> list R)) (t : R) (s : State) : State :=
  let due := due_timers t (timers s) in
  let s := set_timers (drop (length due) (timers s)) s in
  set_now (Rmax (now s) t) (fold_left (fun st tm => fire_with colorArray tm st) due s).

Definition advance : R -> State -> State := advance_with THREE_Float32Array.

(** *** The fireworks in a frame ([animate]) *)

(** The update of particle [i] of a layer. *)
Definition animate_fw_particle (ageFactor : R) (i : nat) (b : list R * list R * list R) :
    list R * list R * list R :=
  let '(positions, velocities, colors) := b in
  let i3 := (i * 3)%nat in
  let positions := set positions i3 (get positions i3 + get velocities i3) in
  let positions := set positions (i3 + 1) (get positions (i3 + 1) + get velocities (i3 + 1)) in
  let positions := set positions (i3 + 2) (get positions (i3 + 2) + get velocities (i3 + 2)) in
  let velocities := set velocities (i3 + 1) (get velocities (i3 + 1) - 0.015) in
  let velocities := set velocities i3 (get velocities i3 * 0.97) in
  let velocities := set velocities (i3 + 1) (get velocities (i3 + 1) * 0.97) in
  let velocities := set velocities (i3 + 2) (get velocities (i3 + 2) * 0.97) in
  let colors :=
    if Rgt_dec ageFactor 0.5 then
      let whiteMix := (ageFactor - 0.5) * 0.6 in
      let colors := set colors i3 (get colors i3 * (1 - whiteMix) + whiteMix) in
      let colors := set colors (i3 + 1) (get colors (i3 + 1) * (1 - whiteMix) + whiteMix) in
      set colors (i3 + 2) (get colors (i3 + 2) * (1 - whiteMix) + whiteMix)
    else colors in
  (positions, velocities, colors).

(** The opacity of a layer at a given fraction of its lifetime. *)
Definition fade (ageFactor : R) : R :=
  if Rlt_dec ageFactor 0.7 then 1.0 else 1 - (ageFactor - 0.7) / 0.3.

(** The update of one active firework. *)
Definition animate_firework (fw : Firework) : Firework :=
  let age' := age fw + 0.016 in
  if Rgt_dec age' (lifetime fw) then
    mkFirework
      (match particles fw with
       | Some p =>
           Some (mkPoints (fwPositions p) (fwColors p) (fwSizes p) (materialSize p)
                   (opacity p) false true)
       | None => None
       end)
      (velocities fw) age' (lifetime fw) false (layerIndex fw)
  else
    match particles fw with
    | Some p =>
        let ageFactor := age' / lifetime fw in
        let n := ((length (fwPositions p) + 2) / 3)%nat in
        let '(positions, velocities, colors) :=
          fold_left (fun b i => animate_fw_particle ageFactor i b) (seq 0 n)
            (fwPositions p, velocities fw, fwColors p) in
        mkFirework
          (Some (mkPoints positions colors (fwSizes p) (materialSize p)
                   (fade ageFactor) (inScene p) (disposed p)))
          velocities age' (lifetime fw) (active fw) (layerIndex fw)
    | None => mkFirework None (velocities fw) age' (lifetime fw) (active fw) (layerIndex fw)
    end.

(** The update of a firework in a frame: only the active ones are touched. *)
Definition frame_firework (fw : Firework) : Firework :=
  if active fw then animate_firework fw else fw.

(** [fireworksRef.current.filter(fw => fw.active).forEach(...)]: the objects
    are updated in place, so every active entry of the list is replaced by its
    update. *)
Definition animate_fireworks (s : State) : State :=
  set_fireworksRef
    (map frame_firework (fireworksRef s)) s.

End Library.

(** A firework as a layer callback creates it. *)
Definition fresh_firework (n : nat) (layerIndex : nat) : Firework :=
  mkFirework
    (Some (mkPoints (Float32Array (n * 3)) (Float32Array (n * 3)) (Float32Array n) 0.8 1
             true false))
    (Float32Array (n * 3)) 0 3.0 true layerIndex.

(** The number of particles a timer will spawn. *)
Definition timer_count (tm : R * Callback) : nat :=
  match snd tm with
  | SpawnLayer _ layer _ => count layer
  | HideSnow => 0%nat
  end.

Definition is_spawn (tm : R * Callback) : Prop :=
  exists p l i, snd tm = SpawnLayer p l i.

(** Whether the snow is shown. *)
Definition snow_visible (s : State) : bool :=
  match snowParticlesRef s with
  | Some b => b
  | None => false
  end.

(** The snow flags of a state. *)
Definition snow_flags (s : State) : bool * bool * option bool :=
  (isSnowing s, isSnowingRef s, snowParticlesRef s).

(** No snow timer is pending. *)
Definition no_snow_timer (q : list (R * Callback)) : Prop :=
  Forall (fun tm => snd tm <> HideSnow) q.

(** The number of particles of each firework of a list. *)
Definition layer_counts (l : list Firework) : list nat :=
  map (fun fw =>
         match particles fw with
         | Some p => (length (fwPositions p) / 3)%nat
         | None => 0%nat
         end) l.

(** The component at rest: no snow, no firework, no timer, the clock at 0. *)
Definition idle : State := mkState 0 false false (Some false) [] [] 0 [].

End Effects.

(** ** Rotation: drag and auto-rotation *)

Module Rotation.

(** The refs and the state the drag handlers and the frame callback share.
    An angle pair is [(x, y)].  [treeGroupRef] holds the rotation of the tree
    group when the ref is set.  [pinchStrength] is written by the tween that
    [toggleTree] starts; the tween library is not part of the model. *)
Record State : Type := mkState {
  pinchStrength : R;
  isTreeFormed : bool;
  rotationTarget : R * R;
  rotationCurrent : R * R;
  isDragging : bool;
  lastMouse : R * R;
  treeGroupRef : option (R * R)
}.

Definition set_isTreeFormed (b : bool) (s : State) : State :=
  mkState (pinchStrength s) b (rotationTarget s) (rotationCurrent s) (isDragging s)
    (lastMouse s) (treeGroupRef s).
Definition set_rotationCurrent (r : R * R) (s : State) : State :=
  mkState (pinchStrength s) (isTreeFormed s) (rotationTarget s) r (isDragging s)
    (lastMouse s) (treeGroupRef s).
Definition set_isDragging (b : bool) (s : State) : State :=
  mkState (pinchStrength s) (isTreeFormed s) (rotationTarget s) (rotationCurrent s) b
    (lastMouse s) (treeGroupRef s).
Definition set_lastMouse (m : R * R) (s : State) : State :=
  mkState (pinchStrength s) (isTreeFormed s) (rotationTarget s) (rotationCurrent s)
    (isDragging s) m (treeGroupRef s).
Definition set_treeGroupRef (g : option (R * R)) (s : State) : State :=
  mkState (pinchStrength s) (isTreeFormed s) (rotationTarget s) (rotationCurrent s)
    (isDragging s) (lastMouse s) g.

(** [e.clientX] and [e.clientY] of a mouse event, or of a touch. *)
Definition Pointer : Type := (R * R)%type.
Definition clientX (e : Pointer) : R := fst e.
Definition clientY (e : Pointer) : R := snd e.

Definition handleMouseDown (e : Pointer) (s : State) : State :=
  if isTreeFormed s then
    set_lastMouse (clientX e, clientY e) (set_isDragging true s)
  else s.

Definition handleMouseMove (e : Pointer) (s : State) : State :=
  if isDragging s && isTreeFormed s then
    let deltaX := clientX e - fst (lastMouse s) in
    let deltaY := clientY e - snd (lastMouse s) in
    let s := set_rotationCurrent
               (fst (rotationCurrent s), snd (rotationCurrent s) + deltaX * 0.01) s in
    let s := set_rotationCurrent
               (fst (rotationCurrent s) + deltaY * 0.01, snd (rotationCurrent s)) s in
    set_lastMouse (clientX e, clientY e) s
  else s.

Definition handleMouseUp (s : State) : State := set_isDragging false s.

Definition handleTouchStart (touches : list Pointer) (s : State) : State :=
  match touches with
  | [touch] =>
      if isTreeFormed s then
        set_lastMouse (clientX touch, clientY touch) (set_isDragging true s)
      else s
  | _ => s
  end.

Definition handleTouchMove (touches : list Pointer) (s : State) : State :=
  match touches with
  | [touch] =>
      if isDragging s && isTreeFormed s then
        let deltaX := clientX touch - fst (lastMouse s) in
        let deltaY := clientY touch - snd (lastMouse s) in
        let s := set_rotationCurrent
                   (fst (rotationCurrent s), snd (rotationCurrent s) + deltaX * 0.01) s in
        let s := set_rotationCurrent
                   (fst (rotationCurrent s) + deltaY * 0.01, snd (rotationCurrent s)) s in
        set_lastMouse (clientX touch, clientY touch) s
      else s
  | _ => s
  end.

Definition handleTouchEnd (s : State) : State := set_isDragging false s.

(** [toggleTree]: the flag flips at once; the pinch strength follows later. *)
Definition toggleTree (s : State) : State := set_isTreeFormed (negb (isTreeFormed s)) s.

(** The rotation control of the frame callback. *)
Definition animate_rotation (s : State) : State :=
  let isTreeActive := if Rgt_dec (pinchStrength s) 0.5 then true else false in
  let s :=
    if isTreeActive && negb (isDragging s) then
      set_rotationCurrent (fst (rotationCurrent s), snd (rotationCurrent s) + 0.005) s
    else s in
  match treeGroupRef s with
  | Some _ => set_treeGroupRef (Some (fst (rotationCurrent s), snd (rotationCurrent s))) s
  | None => s
  end.

(** What can happen to the rotation state. *)
Inductive Event : Type :=
| MouseDown (e : Pointer)
| MouseMove (e : Pointer)
| MouseUp
| TouchStart (touches : list Pointer)
| TouchMove (touches : list Pointer)
| TouchEnd
| ToggleTree
| Frame.

Definition handle (ev : Event) (s : State) : State :=
  match ev with
  | MouseDown e => handleMouseDown e s
  | MouseMove e => handleMouseMove e s
  | MouseUp => handleMouseUp s
  | TouchStart touches => handleTouchStart touches s
  | TouchMove touches => handleTouchMove touches s
  | TouchEnd => handleTouchEnd s
  | ToggleTree => toggleTree s
  | Frame => animate_rotation s
  end.

(** The state after a list of events, the first one first. *)
Definition run (evs : list Event) (s : State) : State := fold_left (fun st ev => handle ev st) evs s.

(** The refs as the component creates them, once mounted. *)
Definition initial : State := mkState 0 false (0, 0) (0, 0) false (0, 0) (Some (0, 0)).

(** A formed tree in the middle of a drag that started at the origin. *)
Definition dragging : State := mkState 1 true (0, 0) (0, 0) true (0, 0) (Some (0, 0)).

End Rotation.

(** The size and the alpha of particle [i]. *)
Definition size_of (w : Particles) (i : nat) : R := get (mem w Sizes) i.
Definition alpha_of (w : Particles) (i : nat) : R := get (mem w Alphas) i.

(** The world once the mount effect has run. *)
Definition mounted (mobile : bool) (rng : nat -> R) (w : Particles) : Particles :=
  exec (mount mobile rng) w.

(** *** The running component *)

(** What happens to the particles once the component is mounted: a frame,
    at the pinch strength of the moment, or a press on the theme button. *)
Inductive Action : Type :=
| Animate (pinchStrength : R)
| ChangeTheme.

Definition perform (mobile : bool) (rng : nat -> R) (a : Action) : M Particles unit :=
  match a with
  | Animate pinchStrength => animate_particles mobile rng pinchStrength
  | ChangeTheme => changeTheme mobile rng
  end.

(** The actions of a list, the first one first. *)
Fixpoint perform_all (mobile : bool) (rng : nat -> R) (l : list Action) : M Particles unit :=
  match l with
  | [] => ret tt
  | a :: l' => perform mobile rng a ;; perform_all mobile rng l'
  end.

(** The distance of particle [i] to its exploded target. *)
Definition exploded_distance (w : Particles) (i : nat) : R :=
  vnorm (vsub (vec3_at (mem w TargetExploded) i) (vec3_at (mem w Positions) i)).

(** *** The exploded branch in the long run *)

(** The step of one particle toward the exploded target [e], with the jitter
    [j]: the state is the pair of the position and the velocity. *)
Definition exploded_step (e j : vec3) (s : vec3 * vec3) : vec3 * vec3 :=
  integrate 0 e e j (fst s) (snd s).

(** The state after [n] steps, the jitter of step [k] being [js k]. *)
Fixpoint exploded_orbit (e : vec3) (js : nat -> vec3) (n : nat) (s : vec3 * vec3) :
    vec3 * vec3 :=
  match n with
  | O => s
  | S n' => exploded_step e (js n') (exploded_orbit e js n' s)
  end.

(** The energy of the particle in the exploded branch: kinetic energy, and the
    potential of a force of constant magnitude [0.25] seen through the damping
    [0.90]. *)
Definition exploded_energy (e : vec3) (s : vec3 * vec3) : R :=
  speed s * speed s / 2 + 5 / 18 * dist_to e s.

(** The region the particle ends up in: speed at most [2.49], energy at most
    that of a particle that crosses the ball of radius [2] at full speed. *)
Definition scattered (e : vec3) (s : vec3 * vec3) : Prop :=
  speed s <= 2.49 /\ exploded_energy e s <= 2.49 * 2.49 / 2 + 5 / 18 * (2 + 2.49).

(** The jitter of particle [i] in frame [n], counted from the world [w]. *)
Definition frame_jitter (mobile : bool) (rng : nat -> R) (w : Particles) (i n : nat) : vec3 :=
  jitter_at rng (draws w + n * (PARTICLE_COUNT mobile * 3) + i * 3).

(** ** Gestures *)

(** An event of the pointer: a mouse or a touch event. *)
Definition pointer_event (ev : Rotation.Event) : bool :=
  match ev with
  | Rotation.ToggleTree | Rotation.Frame => false
  | _ => true
  end.

(** A drag with the mouse: the button goes down at [e0], and the pointer
    visits the points of [path]. *)
Definition mouse_drag (e0 : Rotation.Pointer) (path : list Rotation.Pointer) :
    list Rotation.Event :=
  Rotation.MouseDown e0 :: map Rotation.MouseMove path.

(** The same with one finger. *)
Definition touch_drag (e0 : Rotation.Pointer) (path : list Rotation.Pointer) :
    list Rotation.Event :=
  Rotation.TouchStart [e0] :: map (fun e => Rotation.TouchMove [e]) path.

(** ** The fireworks, frame by frame *)

(** The velocity of a firework particle after a frame: gravity on the second
    coordinate, then the drag on all three. *)
Definition fw_velocity_step (v : vec3) : vec3 :=
  (vx v * 0.97, (vy v - 0.015) * 0.97, vz v * 0.97).

(** The colour of a firework particle after a frame at the given fraction of
    the lifetime: past the half, a blend toward white. *)
Definition fw_color_step (ageFactor : R) (c : vec3) : vec3 :=
  if Rgt_dec ageFactor 0.5 then
    (vx c * (1 - (ageFactor - 0.5) * 0.6) + (ageFactor - 0.5) * 0.6,
     vy c * (1 - (ageFactor - 0.5) * 0.6) + (ageFactor - 0.5) * 0.6,
     vz c * (1 - (ageFactor - 0.5) * 0.6) + (ageFactor - 0.5) * 0.6)
  else c.

(** A channel value that a renderer shows as it is. *)
Definition in_unit_range (c : R) : Prop := 0 <= c <= 1.

(** ** The snow, flake by flake *)

Module Snow.

(** The snow points: the [visible] flag and the position array of the
    geometry. *)
Record Points : Type := mkPoints {
  visible : bool;
  position : list R
}.

(** What the snow code works on: the random draws made so far, the clock
    [timeRef] of the frames, and the ref of the snow points. *)
Record State : Type := mkState {
  draws : nat;
  timeRef : R;
  snowParticlesRef : option Points
}.

Definition set_draws (n : nat) (s : State) : State :=
  mkState n (timeRef s) (snowParticlesRef s).
Definition set_timeRef (t : R) (s : State) : State :=
  mkState (draws s) t (snowParticlesRef s).
Definition set_snowParticlesRef (p : option Points) (s : State) : State :=
  mkState (draws s) (timeRef s) p.

(** A loop over the indices [i, i + n) that works on one array.  The array is
    updated in place by the source; here it is handed from one pass to the
    next. *)
Fixpoint for_each (n : nat) (i : nat) (body : nat -> list R -> M State (list R))
    (a : list R) : M State (list R) :=
  match n with
  | O => ret a
  | S n' => let* a' := body i a in for_each n' (S i) body a'
  end.

Section Code.

Variable mobile : bool.
Variable rng : nat -> R.

(** [Math.random()] *)
Definition Math_random : M State R :=
  fun s => (Ok (rng (draws s)), set_draws (S (draws s)) s).



(** The body of the loop of the snow animation. *)
Definition animate_flake (time : R) (i : nat) (snowPos : list R) : M State (list R) :=
  let i3 := (i * 3)%nat in
  let snowPos :=
    set snowPos (i3 + 1) (get snowPos (i3 + 1) - (0.05 + sin (time + INR i) * 0.02)) in
  let snowPos := set snowPos i3 (get snowPos i3 + sin (time * 0.5 + INR i) * 0.02) in
  if Rlt_dec (get snowPos (i3 + 1)) (-15) then
    let snowPos := set snowPos (i3 + 1) 40 in
    let* r1 := Math_random in
    let snowPos := set snowPos i3 ((r1 - 0.5) * 60) in
    let* r2 := Math_random in
    let snowPos := set snowPos (i3 + 2) ((r2 - 0.5) * 60) in
    ret snowPos
  else ret snowPos.

(** The snow animation of a frame: nothing when the ref is unset or the
    points are hidden.  The bound [snowPos.length / 3] of the loop is a
    fraction when the length is no multiple of 3, and the loop then makes one
    more pass. *)
Definition animate_snow : M State unit :=
  fun s =>
    match snowParticlesRef s with
    | Some p =>
        if visible p then
          let snowPos := position p in
          let SNOW_COUNT := ((length snowPos + 2) / 3)%nat in
          (let* snowPos := for_each SNOW_COUNT 0 (animate_flake (timeRef s)) snowPos in
           fun s => (Ok tt, set_snowParticlesRef (Some (mkPoints (visible p) snowPos)) s)) s
        else (Ok tt, s)
    | None => (Ok tt, s)
    end.

(** The clock of a frame, then its snow, on a mounted component (the
    renderer and the composer are there). *)
Definition frame : M State unit :=
  (fun s => (Ok tt, set_timeRef (timeRef s + 0.016) s)) ;;
  animate_snow.

(** [snowParticlesRef.current.visible = b], as [toggleSnow] and its timer do
    it: only when the ref is set. *)
Definition set_visible (b : bool) : M State unit :=
  fun s =>
    match snowParticlesRef s with
    | Some p => (Ok tt, set_snowParticlesRef (Some (mkPoints b (position p))) s)
    | None => (Ok tt, s)
    end.

(** What happens to the snow once it is there. *)
Inductive Event : Type :=
| Frame
| SetVisible (b : bool).

Definition handle (ev : Event) : M State unit :=
  match ev with
  | Frame => frame
  | SetVisible b => set_visible b
  end.


End Code.








End Snow.

(** A frame whose pinch strength is at most 1, the value the tween of
    [toggleTree] ends at; a theme change is always in range. *)
Definition pinch_in_range (a : Action) : Prop :=
  match a with
  | Animate pinchStrength => pinchStrength <= 1
  | ChangeTheme => True
  end.

(** * Properties *)

(** ** Typed arrays and the store *)

Lemma get_set_eq (a : list R) (i : nat) (v : R) :
  (i < length a)%nat -> get (set a i v) i = v.
Proof.
  intros H. unfold get, set. rewrite list_lookup_insert_eq; [reflexivity | exact H].
Qed.

Lemma get_set_ne (a : list R) (i j : nat) (v : R) :
  i <> j -> get (set a i v) j = get a j.
Proof.
  intros H. unfold get, set. rewrite list_lookup_insert_ne; [reflexivity | exact H].
Qed.

Lemma length_set (a : list R) (i : nat) (v : R) : length (set a i v) = length a.
Proof. apply length_insert. Qed.

Lemma Buffer_eqb_eq (a b : Buffer) : Buffer_eqb a b = true <-> a = b.
Proof. destruct a, b; simpl; split; intros H; try reflexivity; discriminate. Qed.

Lemma Buffer_eqb_refl (a : Buffer) : Buffer_eqb a a = true.
Proof. destruct a; reflexivity. Qed.

Lemma store_set_same (s : Store) (b : Buffer) (i : nat) (v : R) :
  store_set s b i v b = set (s b) i v.
Proof. unfold store_set. rewrite Buffer_eqb_refl. reflexivity. Qed.

Lemma store_set_other (s : Store) (b b' : Buffer) (i : nat) (v : R) :
  b <> b' -> store_set s b i v b' = s b'.
Proof.
  intros H. unfold store_set. destruct (Buffer_eqb b b') eqn:E; [|reflexivity].
  apply Buffer_eqb_eq in E. contradiction.
Qed.

Lemma length_store_set (s : Store) (b b' : Buffer) (i : nat) (v : R) :
  length (store_set s b i v b') = length (s b').
Proof.
  unfold store_set. destruct (Buffer_eqb b b'); [apply length_set | reflexivity].
Qed.

Lemma get_store_set_eq (s : Store) (b : Buffer) (i : nat) (v : R) :
  (i < length (s b))%nat -> get (store_set s b i v b) i = v.
Proof. intros H. rewrite store_set_same. apply get_set_eq, H. Qed.

Lemma get_store_set_ne (s : Store) (b b' : Buffer) (i j : nat) (v : R) :
  i <> j -> get (store_set s b i v b') j = get (s b') j.
Proof.
  intros H. unfold store_set. destruct (Buffer_eqb b b'); [apply get_set_ne, H | reflexivity].
Qed.

Lemma get_store_set_other (s : Store) (b b' : Buffer) (i j : nat) (v : R) :
  b <> b' -> get (store_set s b i v b') j = get (s b') j.
Proof. intros H. rewrite store_set_other by exact H. reflexivity. Qed.

(** ** Running the monad, one statement at a time *)

Lemma run_read {B} b k (f : R -> M Particles B) w :
  bind (read b k) f w = f (get (mem w b) k) w.
Proof. reflexivity. Qed.

Lemma run_write {B} b k v (f : unit -> M Particles B) w :
  bind (write b k v) f w = f tt (set_mem (store_set (mem w) b k v) w).
Proof. reflexivity. Qed.

Lemma run_add_to {B} b k v (f : unit -> M Particles B) w :
  bind (add_to b k v) f w = f tt (set_mem (store_set (mem w) b k (get (mem w b) k + v)) w).
Proof. reflexivity. Qed.

Lemma run_mul_by {B} b k v (f : unit -> M Particles B) w :
  bind (mul_by b k v) f w = f tt (set_mem (store_set (mem w) b k (get (mem w b) k * v)) w).
Proof. reflexivity. Qed.

Lemma run_random {B} rng (f : R -> M Particles B) w :
  bind (Math_random rng) f w = f (rng (draws w)) (set_draws (S (draws w)) w).
Proof. reflexivity. Qed.

Lemma run_div {B} a b (f : R -> M Particles B) w :
  b > 0.01 -> bind (div a b) f w = f (a / b) w.
Proof.
  intros H. unfold div. destruct (Rle_dec (Rabs b) 0.01) as [Hle|_]; [|reflexivity].
  rewrite Rabs_right in Hle by lra. lra.
Qed.

Lemma run_bind_assoc {A B C} (m : M Particles A) (k : A -> M Particles B) (h : B -> M Particles C) w :
  bind (bind m k) h w = bind m (fun a => bind (k a) h) w.
Proof. unfold bind. destruct (m w) as [[a|e] w']; reflexivity. Qed.

Lemma run_ret {A B} (a : A) (k : A -> M Particles B) w : bind (ret a) k w = k a w.
Proof. reflexivity. Qed.

Ltac simpl_gets :=
  repeat first
    [ rewrite get_store_set_eq by (rewrite ?length_store_set; lia)
    | rewrite get_store_set_ne by lia
    | rewrite get_store_set_other by discriminate ].

Ltac run_step :=
  first
    [ rewrite run_read | rewrite run_write | rewrite run_add_to | rewrite run_mul_by
    | rewrite run_random | rewrite run_div by assumption | rewrite run_ret
    | rewrite run_bind_assoc ];
  cbn [mem draws set_mem set_draws colorTheme currentTheme particlesRef];
  cbv beta; simpl_gets.


Lemma add_to_run b k v w :
  add_to b k v w = (Ok tt, set_mem (store_set (mem w) b k (get (mem w b) k + v)) w).
Proof. reflexivity. Qed.

Lemma vec3_at_store_set_other (s : Store) (b b' : Buffer) (k j : nat) (v : R) :
  (k < j * 3 \/ j * 3 + 2 < k)%nat ->
  vec3_at (store_set s b k v b') j = vec3_at (s b') j.
Proof.
  intros H. unfold vec3_at. rewrite !(get_store_set_ne s b b' k) by lia. reflexivity.
Qed.


Lemma pair3_eq (a b c a' b' c' : R) :
  a = a' -> b = b' -> c = c' -> (a, b, c) = (a', b', c').
Proof. intros -> -> ->. reflexivity. Qed.

Ltac simpl_state :=
  cbn [mem draws set_mem set_draws colorTheme currentTheme particlesRef].

Ltac finish_body :=
  eexists; split; [reflexivity|];
  unfold particle; simpl_state;
  split; [ unfold vec3_at; simpl_gets;
           unfold jitter_at, jitter, unit_toward;
           cbv beta iota delta [vadd vscale vsub vnorm vx vy vz fst snd];
           unfold GRAVITY_STRENGTH, EXPLOSION_STRENGTH, DAMPING, BROWN_MOTION, Rdiv;
           f_equal; apply pair3_eq; ring
         | split; [ intros j Hj; rewrite !vec3_at_store_set_other by lia; reflexivity
           | split; [ intros b Hb1 Hb2; destruct b; try contradiction; reflexivity
             | split; [ intros b; rewrite !length_store_set; reflexivity
               | repeat split; lia ] ] ] ].

(** ** The integrator *)

Section Integrator.
Variable mobile : bool.
Variable rng : nat -> R.

(** One iteration of the loop, run on a particle that lies inside the buffers. *)
Lemma animate_body_run pinch i w :
  (i * 3 + 2 < length (mem w Positions))%nat ->
  (i * 3 + 2 < length (mem w Velocities))%nat ->
  exists w',
    animate_body rng pinch i w = (Ok tt, w') /\
    particle w' i =
      integrate pinch (vec3_at (mem w TargetTree) i) (vec3_at (mem w TargetExploded) i)
        (jitter_at rng (draws w)) (vec3_at (mem w Positions) i) (vec3_at (mem w Velocities) i) /\
    (forall j, j <> i -> particle w' j = particle w j) /\
    (forall b, b <> Positions -> b <> Velocities -> mem w' b = mem w b) /\
    (forall b, length (mem w' b) = length (mem w b)) /\
    draws w' = (draws w + draws_per_particle pinch)%nat /\
    colorTheme w' = colorTheme w /\ currentTheme w' = currentTheme w /\
    particlesRef w' = particlesRef w.
Proof.
  intros HP HV.
  unfold animate_body, integrate, active_target, force_constant, draws_per_particle,
    unit_toward, jitter_at, jitter.
  destruct (Rgt_dec pinch 0.01) as [Hp|Hp];
    cbv beta iota delta [vec3_at vadd vscale vsub vnorm vx vy vz fst snd].
  - repeat run_step.
    match goal with |- context [Rgt_dec ?a ?b] => destruct (Rgt_dec a b) as [Hd|Hd] end.
    + repeat run_step. rewrite add_to_run. finish_body.
    + repeat run_step. rewrite add_to_run. finish_body.
  - repeat run_step.
    match goal with |- context [Rgt_dec ?a ?b] => destruct (Rgt_dec a b) as [Hd|Hd] end.
    + repeat run_step. rewrite add_to_run. finish_body.
    + repeat run_step. rewrite add_to_run. finish_body.
Qed.

Lemma particle_fst w i : vec3_at (mem w Positions) i = fst (particle w i).
Proof. reflexivity. Qed.
Lemma particle_snd w i : vec3_at (mem w Velocities) i = snd (particle w i).
Proof. reflexivity. Qed.

(** The loop from [lo], over [n] particles that lie inside the buffers. *)
Lemma animate_loop_run pinch n : forall lo w,
  ((lo + n) * 3 <= length (mem w Positions))%nat ->
  ((lo + n) * 3 <= length (mem w Velocities))%nat ->
  exists w',
    for_loop n lo (animate_body rng pinch) w = (Ok tt, w') /\
    (forall i, (lo <= i < lo + n)%nat ->
       particle w' i =
         integrate pinch (vec3_at (mem w TargetTree) i) (vec3_at (mem w TargetExploded) i)
           (jitter_at rng (draws w + (i - lo) * draws_per_particle pinch))
           (vec3_at (mem w Positions) i) (vec3_at (mem w Velocities) i)) /\
    (forall j, (j < lo \/ lo + n <= j)%nat -> particle w' j = particle w j) /\
    (forall b, b <> Positions -> b <> Velocities -> mem w' b = mem w b) /\
    (forall b, length (mem w' b) = length (mem w b)) /\
    draws w' = (draws w + n * draws_per_particle pinch)%nat /\
    colorTheme w' = colorTheme w /\ currentTheme w' = currentTheme w /\
    particlesRef w' = particlesRef w.
Proof.
  induction n as [|n IH]; intros lo w HP HV.
  - exists w. simpl. repeat split; try reflexivity; try lia.
  - destruct (animate_body_run pinch lo w) as (w1 & E1 & Hlo & Hoth & Hfr & Hlen & Hdr & Hc1 & Hc2 & Hc3);
      [lia | lia |].
    destruct (IH (S lo) w1) as (w' & E' & Hin & Hout & Hfr' & Hlen' & Hdr' & Hc1' & Hc2' & Hc3').
    { rewrite Hlen. lia. }
    { rewrite Hlen. lia. }
    exists w'. split.
    { simpl. unfold bind at 1. rewrite E1. exact E'. }
    split.
    { intros i Hi. destruct (decide (i = lo)) as [->|Hne].
      - rewrite Hout by lia. rewrite Hlo. replace (lo - lo)%nat with 0%nat by lia.
        simpl. rewrite Nat.add_0_r. reflexivity.
      - rewrite Hin by lia.
        rewrite !Hfr by discriminate.
        rewrite (particle_fst w1), (particle_snd w1), (Hoth i Hne).
        rewrite Hdr. replace (i - lo)%nat with (S (i - S lo)) by lia.
        simpl. f_equal. f_equal. lia. }
    split.
    { intros j Hj. rewrite Hout by lia. apply Hoth. lia. }
    split.
    { intros b Hb1 Hb2. rewrite Hfr' by assumption. apply Hfr; assumption. }
    split.
    { intros b. rewrite Hlen'. apply Hlen. }
    repeat split; try congruence.
    rewrite Hdr', Hdr. simpl. lia.
Qed.


(** *** Totality and the frame, for every world *)

Lemma integrator_frame_refl w : integrator_frame w w.
Proof. repeat split; reflexivity. Qed.

Lemma integrator_frame_trans w1 w2 w3 :
  integrator_frame w1 w2 -> integrator_frame w2 w3 -> integrator_frame w1 w3.
Proof.
  intros (H1 & H2 & H3 & H4) (K1 & K2 & K3 & K4). repeat split; try congruence.
  intros b Hp Hv. rewrite K1 by assumption. apply H1; assumption.
Qed.

Lemma steady_ret {A} (a : A) : steady (ret a).
Proof. intros w. exists a, w. split; [reflexivity | apply integrator_frame_refl]. Qed.

Lemma steady_bind {A B} (m : M Particles A) (k : A -> M Particles B) :
  steady m -> (forall a, steady (k a)) -> steady (bind m k).
Proof.
  intros Hm Hk w. destruct (Hm w) as (a & w1 & E1 & F1).
  destruct (Hk a w1) as (b & w2 & E2 & F2).
  exists b, w2. split; [unfold bind; rewrite E1; exact E2 |].
  eapply integrator_frame_trans; eassumption.
Qed.

Lemma steady_read b k : steady (read b k).
Proof. intros w. eexists _, w. split; [reflexivity | apply integrator_frame_refl]. Qed.

Lemma steady_random : steady (Math_random rng).
Proof. intros w. eexists _, _. split; [reflexivity | repeat split]. Qed.

Lemma steady_write b k v : b = Positions \/ b = Velocities -> steady (write b k v).
Proof.
  intros Hb w. eexists _, _. split; [reflexivity | repeat split].
  intros b' Hp Hv. simpl. apply store_set_other. destruct Hb; congruence.
Qed.

Lemma steady_add_to b k v : b = Positions \/ b = Velocities -> steady (add_to b k v).
Proof. intros Hb. apply steady_bind; [apply steady_read | intros; apply steady_write, Hb]. Qed.

Lemma steady_mul_by b k v : b = Positions \/ b = Velocities -> steady (mul_by b k v).
Proof. intros Hb. apply steady_bind; [apply steady_read | intros; apply steady_write, Hb]. Qed.

(** The division returns when the guard [dist > 0.01] of the caller holds. *)
Lemma steady_div a b : b > 0.01 -> steady (@div Particles a b).
Proof.
  intros Hb w. exists (a / b), w. split; [| apply integrator_frame_refl].
  unfold div. destruct (Rle_dec (Rabs b) 0.01) as [Hle|_]; [| reflexivity].
  rewrite Rabs_right in Hle by lra. lra.
Qed.

Lemma steady_for_loop body n : (forall i, steady (body i)) -> forall lo, steady (for_loop n lo body).
Proof.
  intros Hbody. induction n as [|n IH]; intros lo; simpl.
  - apply steady_ret.
  - apply steady_bind; [apply Hbody | intros _; apply IH].
Qed.

Ltac steady_step :=
  first
    [ apply steady_ret
    | apply steady_read
    | apply steady_random
    | apply steady_add_to; auto
    | apply steady_mul_by; auto
    | apply steady_div; assumption
    | apply steady_bind; [| intros ?] ].

Lemma animate_body_steady pinch i : steady (animate_body rng pinch i).
Proof.
  unfold animate_body.
  do 3 (apply steady_bind; [apply steady_read | intros ?]).
  apply steady_bind; [| intros _; repeat steady_step].
  destruct (Rgt_dec pinch 0.01).
  - do 3 (apply steady_bind; [apply steady_read | intros ?]).
    match goal with |- context [Rgt_dec ?x ?y] => destruct (Rgt_dec x y) end;
      repeat steady_step.
  - do 3 (apply steady_bind; [apply steady_read | intros ?]).
    apply steady_bind; [| intros _; repeat steady_step].
    match goal with |- context [Rgt_dec ?x ?y] => destruct (Rgt_dec x y) end;
      repeat steady_step.
Qed.

Lemma animate_particles_steady pinch : steady (animate_particles mobile rng pinch).
Proof. apply steady_for_loop. intros i. apply animate_body_steady. Qed.

(** The jitter of a draw in [0, 1) stays within 0.015 of zero. *)
Lemma jitter_bound r : 0 <= r < 1 -> Rabs ((r - 0.5) * 0.03) <= 0.015.
Proof. intros H. apply Rabs_le. lra. Qed.

Lemma buffers_sized_blank b : buffers_sized (PARTICLE_COUNT b) (blank_particles b).
Proof. repeat split; apply length_replicate. Qed.

End Integrator.

(** A whole frame, on buffers of the right size. *)
Lemma animate_particles_run (mobile : bool) (rng : nat -> R) (pinchStrength : R)
    (w : Particles) :
  buffers_sized (PARTICLE_COUNT mobile) w ->
  exists w',
    animate_particles mobile rng pinchStrength w = (Ok tt, w') /\
    (forall i, (i < PARTICLE_COUNT mobile)%nat ->
       particle w' i =
         integrate pinchStrength
           (vec3_at (mem w TargetTree) i) (vec3_at (mem w TargetExploded) i)
           (jitter_at rng (draws w + i * draws_per_particle pinchStrength))
           (vec3_at (mem w Positions) i) (vec3_at (mem w Velocities) i)) /\
    (forall b, b <> Positions -> b <> Velocities -> mem w' b = mem w b) /\
    buffers_sized (PARTICLE_COUNT mobile) w' /\
    draws w' = (draws w + PARTICLE_COUNT mobile * draws_per_particle pinchStrength)%nat.
Proof.
  intros Hsz. pose proof Hsz as (HP & HV & HT & HE & HC & HS & HA).
  destruct (animate_loop_run rng pinchStrength (PARTICLE_COUNT mobile) 0 w)
    as (w' & E & Hin & _ & Hfr & Hlen & Hdr & _); [simpl; lia | simpl; lia |].
  exists w'. split; [exact E |]. split.
  { intros i Hi. rewrite Hin by lia. rewrite Nat.sub_0_r. reflexivity. }
  split; [exact Hfr |]. split; [| exact Hdr].
  unfold buffers_sized. rewrite !Hlen. exact Hsz.
Qed.

(** *** The integrator claims *)

(** C1.  In one frame the loop returns, and every particle [i] is updated
    exactly as the specification says: the active target is the tree target
    when [pinchStrength > 0.01] and the exploded target otherwise; when the
    distance to it exceeds [0.01] the unit vector toward it, scaled by
    [0.35 * pinchStrength] (tree) or [0.25] (exploded), is added to the
    velocity; in the exploded branch the jitter of three draws of the particle's
    own, each within [0.015] of zero, is added too; the velocity is multiplied by
    [0.90]; and the position is incremented by the velocity. *)
Theorem integrator_update_exact (mobile : bool) (rng : nat -> R) (pinchStrength : R)
    (w : Particles) :
  buffers_sized (PARTICLE_COUNT mobile) w ->
  (forall n, 0 <= rng n < 1) ->
  exists w',
    animate_particles mobile rng pinchStrength w = (Ok tt, w') /\
    forall i, (i < PARTICLE_COUNT mobile)%nat ->
      let j := jitter_at rng (draws w + i * draws_per_particle pinchStrength) in
      particle w' i =
        integrate pinchStrength
          (vec3_at (mem w TargetTree) i) (vec3_at (mem w TargetExploded) i) j
          (vec3_at (mem w Positions) i) (vec3_at (mem w Velocities) i) /\
      Rabs (vx j) <= 0.015 /\ Rabs (vy j) <= 0.015 /\ Rabs (vz j) <= 0.015.
Proof.
  intros Hsz Hrng.
  destruct (animate_particles_run mobile rng pinchStrength w Hsz) as (w' & E & Hin & _).
  exists w'. split; [exact E |].
  intros i Hi. cbv zeta. split.
  - apply Hin, Hi.
  - unfold jitter_at, jitter, vx, vy, vz. cbn [fst snd].
    repeat split; apply jitter_bound, Hrng.
Qed.

Lemma integrator_update_exact_witness :
  exists w',
    animate_particles false (fun _ => 0.5) 0 (blank_particles false) = (Ok tt, w') /\
    forall i, (i < PARTICLE_COUNT false)%nat ->
      let j := jitter_at (fun _ => 0.5)
                 (draws (blank_particles false) + i * draws_per_particle 0) in
      particle w' i =
        integrate 0
          (vec3_at (mem (blank_particles false) TargetTree) i)
          (vec3_at (mem (blank_particles false) TargetExploded) i) j
          (vec3_at (mem (blank_particles false) Positions) i)
          (vec3_at (mem (blank_particles false) Velocities) i) /\
      Rabs (vx j) <= 0.015 /\ Rabs (vy j) <= 0.015 /\ Rabs (vz j) <= 0.015.
Proof.
  apply (integrator_update_exact false (fun _ => 0.5) 0 (blank_particles false)).
  - apply buffers_sized_blank.
  - intros n. lra.
Defined.

(** C5.  The integrator is total: from every world, for every pinch strength
    and every random sequence, the pass returns.  The division of the model
    raises on a divisor of magnitude at most [0.01], so no normalisation of
    either branch divides by zero or by a near-zero distance. *)
Theorem integrator_never_raises (mobile : bool) (rng : nat -> R) (pinchStrength : R)
    (w : Particles) :
  exists w', animate_particles mobile rng pinchStrength w = (Ok tt, w').
Proof.
  destruct (animate_particles_steady mobile rng pinchStrength w) as ([] & w' & E & _).
  exists w'. exact E.
Qed.

(** C10.  A pass of the integrator writes the live positions and the
    velocities only: the tree targets, the exploded targets, the colours, the
    sizes and the alphas are the same lists after the pass as before. *)
Theorem integrator_frame_rule (mobile : bool) (rng : nat -> R) (pinchStrength : R)
    (w : Particles) :
  let w' := exec (animate_particles mobile rng pinchStrength) w in
  mem w' TargetTree = mem w TargetTree /\
  mem w' TargetExploded = mem w TargetExploded /\
  mem w' Colors = mem w Colors /\
  mem w' Sizes = mem w Sizes /\
  mem w' Alphas = mem w Alphas.
Proof.
  cbv zeta. unfold exec.
  destruct (animate_particles_steady mobile rng pinchStrength w) as (a & w' & E & F & _).
  rewrite E. simpl. repeat split; apply F; discriminate.
Qed.

(** ** The tree branch in the long run *)

Lemma vdot_self_nonneg a : 0 <= vdot a a.
Proof. destruct a as [[x y] z]. unfold vdot, vx, vy, vz. simpl. nra. Qed.

Lemma vnorm_nonneg a : 0 <= vnorm a.
Proof. apply sqrt_pos. Qed.

Lemma vnorm_sq a : vnorm a * vnorm a = vdot a a.
Proof. unfold vnorm. apply sqrt_sqrt. apply (vdot_self_nonneg a). Qed.

(** A nonnegative number is the norm when its square is the dot product. *)
Lemma vnorm_unique a r : 0 <= r -> r * r = vdot a a -> vnorm a = r.
Proof.
  intros Hr Hsq. unfold vnorm. change (sqrt (vdot a a) = r).
  rewrite <- Hsq. apply sqrt_square, Hr.
Qed.

Lemma le_of_sq x y : 0 <= y -> x * x <= y * y -> x <= y.
Proof. intros Hy H. destruct (Rle_dec x y) as [|Hn]; [assumption | nra]. Qed.

Lemma cauchy_schwarz a b : vdot a b <= vnorm a * vnorm b.
Proof.
  pose proof (vnorm_nonneg a) as Ha. pose proof (vnorm_nonneg b) as Hb.
  apply le_of_sq; [nra |].
  replace (vnorm a * vnorm b * (vnorm a * vnorm b))
    with ((vnorm a * vnorm a) * (vnorm b * vnorm b)) by ring.
  rewrite !vnorm_sq.
  destruct a as [[a1 a2] a3], b as [[b1 b2] b3]. unfold vdot, vx, vy, vz. simpl.
  pose proof (Rle_0_sqr (a1 * b2 - a2 * b1)) as H1.
  pose proof (Rle_0_sqr (a1 * b3 - a3 * b1)) as H2.
  pose proof (Rle_0_sqr (a2 * b3 - a3 * b2)) as H3.
  unfold Rsqr in *. nra.
Qed.

Lemma vdot_vadd a b : vdot (vadd a b) (vadd a b) = vdot a a + 2 * vdot a b + vdot b b.
Proof. destruct a as [[a1 a2] a3], b as [[b1 b2] b3]. unfold vdot, vadd, vx, vy, vz. simpl. ring. Qed.

Lemma vnorm_triangle a b : vnorm (vadd a b) <= vnorm a + vnorm b.
Proof.
  pose proof (vnorm_nonneg a) as Ha. pose proof (vnorm_nonneg b) as Hb.
  apply le_of_sq; [lra |].
  rewrite vnorm_sq, vdot_vadd.
  pose proof (cauchy_schwarz a b) as Hcs.
  pose proof (vnorm_sq a) as Hsa. pose proof (vnorm_sq b) as Hsb. nra.
Qed.

Lemma vnorm_vscale k a : vnorm (vscale k a) = Rabs k * vnorm a.
Proof.
  apply vnorm_unique.
  - apply Rmult_le_pos; [apply Rabs_pos | apply vnorm_nonneg].
  - replace (Rabs k * vnorm a * (Rabs k * vnorm a))
      with ((Rabs k * Rabs k) * (vnorm a * vnorm a)) by ring.
    rewrite vnorm_sq. replace (Rabs k * Rabs k) with (k * k).
    + destruct a as [[a1 a2] a3]. unfold vdot, vscale, vx, vy, vz. simpl. ring.
    + unfold Rabs. destruct (Rcase_abs k); ring.
Qed.

Lemma vnorm_unit a : 0 < vnorm a -> vnorm (vscale (/ vnorm a) a) = 1.
Proof.
  intros H. rewrite vnorm_vscale. rewrite Rabs_right.
  - field. lra.
  - apply Rle_ge. left. apply Rinv_0_lt_compat, H.
Qed.

(** The tree branch is taken at pinch strength 1, with the force constant 0.35. *)
Lemma tree_step_eq t p v :
  tree_step t (p, v) =
    let v1 := if Rgt_dec (vnorm (vsub t p)) 0.01
              then vadd v (vscale 0.35 (unit_toward p t)) else v in
    (vadd p (vscale 0.90 v1), vscale 0.90 v1).
Proof.
  unfold tree_step, integrate, active_target, force_constant. simpl.
  destruct (Rgt_dec 1 0.01) as [_|H]; [| lra].
  replace (0.35 * 1) with 0.35 by ring. reflexivity.
Qed.

Lemma speed_step t s : speed (tree_step t s) <= 0.90 * (speed s + 0.35).
Proof.
  destruct s as [p v]. rewrite tree_step_eq. cbv zeta. unfold speed. cbn [snd].
  rewrite vnorm_vscale, (Rabs_right 0.90) by lra.
  pose proof (vnorm_nonneg v) as Hv.
  destruct (Rgt_dec (vnorm (vsub t p)) 0.01) as [Hd|Hd].
  - apply Rmult_le_compat_l; [lra |].
    eapply Rle_trans; [apply vnorm_triangle |].
    rewrite vnorm_vscale, (Rabs_right 0.35) by lra.
    unfold unit_toward. rewrite vnorm_unit by lra. lra.
  - nra.
Qed.

Lemma vsub_vadd_r t p a : vsub t (vadd p a) = vadd (vsub t p) (vscale (-1) a).
Proof.
  destruct t as [[t1 t2] t3], p as [[p1 p2] p3], a as [[a1 a2] a3].
  unfold vsub, vadd, vscale, vx, vy, vz. simpl. f_equal; [f_equal|]; ring.
Qed.

Lemma dist_step t s : dist_to t (tree_step t s) <= dist_to t s + speed (tree_step t s).
Proof.
  destruct s as [p v]. rewrite tree_step_eq. cbv zeta. unfold dist_to, speed. cbn [fst snd].
  rewrite vsub_vadd_r.
  eapply Rle_trans; [apply vnorm_triangle |].
  rewrite (vnorm_vscale (-1)). rewrite Rabs_left by lra. lra.
Qed.


Lemma energy_drop_scalar (n n' b c vv : R) :
  1.7 <= n -> 0 <= n' -> 0 <= c ->
  n' * n' = n * n - 2 * b + c ->
  vv = c / 0.81 - 7 / 9 * (b / n) + 0.1225 ->
  c / 2 + 7 / 18 * n' <= vv / 2 + 7 / 18 * n - 0.06.
Proof.
  intros Hn Hn' Hc Hsq Hvv.
  set (x := b / n) in *. set (y := c / n).
  assert (Hx : b = x * n) by (unfold x; field; lra).
  assert (Hy : c = y * n) by (unfold y; field; lra).
  assert (Hy0 : 0 <= y) by (unfold y; apply Rmult_le_pos; [lra | left; apply Rinv_0_lt_compat; lra]).
  clearbody x y.
  assert (Hy1 : 1.7 * y <= c) by nra.
  assert (Hstep : n' <= n - x + y / 2).
  { assert (H2 : 2 * n * n' <= n * n + n' * n').
    { pose proof (Rle_0_sqr (n - n')) as Hs. unfold Rsqr in Hs. lra. }
    assert (H3 : n * n' <= n * (n - x + y / 2)) by nra.
    apply (Rmult_le_reg_l n); lra. }
  subst vv. lra.
Qed.

Lemma kinetic_identity (v1 v2 v3 u1 u2 u3 : R) :
  u1 * u1 + u2 * u2 + u3 * u3 = 1 ->
  v1 * v1 + v2 * v2 + v3 * v3 =
    (0.90 * (v1 + 0.35 * u1) * (0.90 * (v1 + 0.35 * u1)) +
     0.90 * (v2 + 0.35 * u2) * (0.90 * (v2 + 0.35 * u2)) +
     0.90 * (v3 + 0.35 * u3) * (0.90 * (v3 + 0.35 * u3))) / 0.81
    - 7 / 9 * (0.90 * (v1 + 0.35 * u1) * u1 + 0.90 * (v2 + 0.35 * u2) * u2 +
               0.90 * (v3 + 0.35 * u3) * u3)
    + 0.1225.
Proof. intros H. lra. Qed.

Lemma energy_step_far t s :
  1.7 <= dist_to t s -> energy t (tree_step t s) <= energy t s - 0.06.
Proof.
  destruct s as [p v]. rewrite tree_step_eq. cbv zeta.
  unfold energy, speed, dist_to. cbn [fst snd]. intros Hfar.
  destruct (Rgt_dec (vnorm (vsub t p)) 0.01) as [_|Hd]; [| lra].
  rewrite !vnorm_sq.
  set (v' := vscale 0.90 (vadd v (vscale 0.35 (unit_toward p t)))).
  apply (energy_drop_scalar _ _ (vdot v' (vsub t p)) (vdot v' v') (vdot v v)).
  - exact Hfar.
  - apply vnorm_nonneg.
  - apply vdot_self_nonneg.
  - rewrite !vnorm_sq.
    destruct t as [[t1 t2] t3], p as [[p1 p2] p3], v' as [[w1 w2] w3].
    unfold vdot, vsub, vadd, vx, vy, vz. simpl. ring.
  - unfold v', unit_toward. clear v'.
    pose proof (vnorm_sq (vsub t p)) as Hn.
    remember (vnorm (vsub t p)) as n eqn:En. clear En.
    assert (Hn0 : n <> 0) by lra.
    destruct t as [[t1 t2] t3], p as [[p1 p2] p3], v as [[v1 v2] v3].
    unfold vdot, vsub, vadd, vscale, vx, vy, vz in *. cbn [fst snd] in *.
    rewrite (kinetic_identity v1 v2 v3 (/ n * (t1 - p1)) (/ n * (t2 - p2)) (/ n * (t3 - p3))).
    + field. lra.
    + replace (/ n * (t1 - p1) * (/ n * (t1 - p1)) + / n * (t2 - p2) * (/ n * (t2 - p2)) +
               / n * (t3 - p3) * (/ n * (t3 - p3)))
        with (/ n * / n *
              ((t1 - p1) * (t1 - p1) + (t2 - p2) * (t2 - p2) + (t3 - p3) * (t3 - p3))) by ring.
      rewrite <- Hn. field. exact Hn0.
Qed.

Lemma speed_nonneg s : 0 <= speed s.
Proof. apply vnorm_nonneg. Qed.

Lemma dist_to_nonneg t s : 0 <= dist_to t s.
Proof. apply vnorm_nonneg. Qed.

Lemma speed_keeps_bound t s : speed s <= 3.16 -> speed (tree_step t s) <= 3.16.
Proof. intros H. pose proof (speed_step t s). lra. Qed.

(** The speed falls geometrically toward the terminal speed 3.15. *)
Lemma speed_decay t s n :
  speed (Nat.iter n (tree_step t) s) <= 3.15 + 0.90 ^ n * Rmax 0 (speed s - 3.15).
Proof.
  induction n as [|n IH].
  - simpl. pose proof (Rmax_r 0 (speed s - 3.15)). lra.
  - rewrite Nat.iter_succ. pose proof (speed_step t (Nat.iter n (tree_step t) s)) as H.
    simpl pow. rewrite Rmult_assoc.
    set (a := 0.90 ^ n * Rmax 0 (speed s - 3.15)) in *. lra.
Qed.

Lemma speed_eventually t s :
  exists N, forall n, (N <= n)%nat -> speed (Nat.iter n (tree_step t) s) <= 3.16.
Proof.
  set (c := Rmax 0 (speed s - 3.15)).
  assert (Hc : 0 <= c) by apply Rmax_l.
  destruct (pow_lt_1_zero 0.90) with (y := 0.01 / (c + 1)) as [N HN].
  - rewrite Rabs_right; lra.
  - apply Rdiv_lt_0_compat; lra.
  - exists N. intros n Hn. pose proof (speed_decay t s n) as Hd. fold c in Hd.
    specialize (HN n ltac:(lia)).
    rewrite Rabs_right in HN by (apply Rle_ge, pow_le; lra).
    assert (0.90 ^ n * c <= 0.01); [| lra].
    assert (Hq : 0.01 / (c + 1) * c <= 0.01).
    { unfold Rdiv. rewrite Rmult_assoc.
      assert (/ (c + 1) * c <= 1); [| nra].
      apply (Rmult_le_reg_l (c + 1)); [lra |]. field_simplify; lra. }
    assert (0 <= 0.90 ^ n) by (apply pow_le; lra). nra.
Qed.

Lemma settled_invariant t s : settled t s -> settled t (tree_step t s).
Proof.
  intros [Hs He]. split; [apply speed_keeps_bound, Hs |].
  destruct (Rle_dec 1.7 (dist_to t s)) as [Hfar|Hnear].
  - pose proof (energy_step_far t s Hfar). lra.
  - unfold energy.
    pose proof (speed_keeps_bound t s Hs) as Hs'.
    pose proof (dist_step t s) as Hd.
    pose proof (speed_nonneg (tree_step t s)) as H0.
    nra.
Qed.

Lemma settled_reach t : forall (k : nat) s,
  speed s <= 3.16 ->
  energy t s <= 3.16 * 3.16 / 2 + 7 / 18 * (1.7 + 3.16) + 0.06 * INR k ->
  exists m, settled t (Nat.iter m (tree_step t) s).
Proof.
  induction k as [|k IH]; intros s Hs He.
  - exists 0%nat. simpl in *. split; [exact Hs | lra].
  - destruct (Rle_dec 1.7 (dist_to t s)) as [Hfar|Hnear].
    + destruct (IH (tree_step t s)) as [m Hm].
      * apply speed_keeps_bound, Hs.
      * pose proof (energy_step_far t s Hfar). rewrite S_INR in He. lra.
      * exists (S m). rewrite Nat.iter_succ_r. exact Hm.
    + exists 1%nat. simpl. split; [apply speed_keeps_bound, Hs |].
      unfold energy.
      pose proof (speed_keeps_bound t s Hs) as Hs'.
      pose proof (dist_step t s) as Hd.
      pose proof (speed_nonneg (tree_step t s)) as H0.
      nra.
Qed.

Lemma settled_close t s : settled t s -> dist_to t s <= 18.
Proof.
  intros [Hs He]. unfold energy in He.
  pose proof (speed_nonneg s). nra.
Qed.

Lemma iter_plus {A} (f : A -> A) n m x : Nat.iter (n + m) f x = Nat.iter n f (Nat.iter m f x).
Proof. induction n as [|n IH]; simpl; [reflexivity | rewrite IH; reflexivity]. Qed.

Lemma settled_forever t s n : settled t s -> settled t (Nat.iter n (tree_step t) s).
Proof. intros H. induction n as [|n IH]; simpl; [exact H | apply settled_invariant, IH]. Qed.

(** From every state the particle ends up, and stays, in the settled region. *)
Lemma eventually_settled t s :
  exists N, forall n, (N <= n)%nat -> settled t (Nat.iter n (tree_step t) s).
Proof.
  destruct (speed_eventually t s) as [N1 HN1].
  set (s1 := Nat.iter N1 (tree_step t) s).
  destruct (INR_unbounded ((energy t s1) / 0.06)) as [k Hk].
  destruct (settled_reach t k s1) as [m Hm].
  - apply HN1. lia.
  - assert (energy t s1 < 0.06 * INR k); [| lra].
    apply (Rmult_lt_reg_l (/ 0.06)); [lra |]. lra.
  - exists (m + N1)%nat. intros n Hn.
    replace n with ((n - (m + N1)) + (m + N1))%nat by lia.
    rewrite iter_plus. apply settled_forever. rewrite iter_plus. exact Hm.
Qed.

(** *** From the pure step back to the frames of the code *)

Lemma integrate_tree_branch pinch t e j p v :
  pinch > 0.01 -> integrate pinch t e j p v = integrate pinch t t (0, 0, 0) p v.
Proof.
  intros H. unfold integrate, active_target.
  destruct (Rgt_dec pinch 0.01); [reflexivity | contradiction].
Qed.

Lemma frames_tree_branch mobile rng w i n :
  buffers_sized (PARTICLE_COUNT mobile) w ->
  (i < PARTICLE_COUNT mobile)%nat ->
  buffers_sized (PARTICLE_COUNT mobile) (frames mobile rng 1 n w) /\
  mem (frames mobile rng 1 n w) TargetTree = mem w TargetTree /\
  particle (frames mobile rng 1 n w) i =
    Nat.iter n (tree_step (vec3_at (mem w TargetTree) i)) (particle w i).
Proof.
  intros Hsz Hi. induction n as [|n (IHsz & IHt & IHp)].
  - simpl. auto.
  - cbn [frames]. unfold exec.
    destruct (animate_particles_run mobile rng 1 _ IHsz) as (w' & E & Hin & Hfr & Hsz' & _).
    rewrite E. cbn [snd]. split; [exact Hsz' |]. split.
    + rewrite Hfr by discriminate. exact IHt.
    + rewrite Hin by exact Hi. rewrite integrate_tree_branch by lra.
      rewrite Nat.iter_succ, <- IHp, IHt. reflexivity.
Qed.

Lemma tree_distance_particle w i :
  tree_distance w i = dist_to (vec3_at (mem w TargetTree) i) (particle w i).
Proof. reflexivity. Qed.

Lemma speed_of_particle w i : speed_of w i = speed (particle w i).
Proof. reflexivity. Qed.

(** C2, amended.  With the pinch strength held at 1 every frame contracts the
    speed of particle [i] toward the terminal speed 3.15, and after enough
    frames the speed stays at most 3.16 and the distance to the tree target
    stays at most 18: the particle neither diverges nor oscillates without
    bound.  Nothing is said about convergence to the target. *)
Theorem tree_branch_ultimately_bounded (mobile : bool) (rng : nat -> R) (w : Particles)
    (i : nat) :
  buffers_sized (PARTICLE_COUNT mobile) w ->
  (i < PARTICLE_COUNT mobile)%nat ->
  (forall n,
     speed_of (frames mobile rng 1 (S n) w) i <=
       0.90 * (speed_of (frames mobile rng 1 n w) i + 0.35)) /\
  exists N, forall n, (N <= n)%nat ->
    speed_of (frames mobile rng 1 n w) i <= 3.16 /\
    tree_distance (frames mobile rng 1 n w) i <= 18.
Proof.
  intros Hsz Hi. split.
  - intros n. rewrite !speed_of_particle.
    destruct (frames_tree_branch mobile rng w i (S n) Hsz Hi) as (_ & _ & ->).
    destruct (frames_tree_branch mobile rng w i n Hsz Hi) as (_ & _ & ->).
    rewrite Nat.iter_succ. apply speed_step.
  - destruct (eventually_settled (vec3_at (mem w TargetTree) i) (particle w i)) as [N HN].
    exists N. intros n Hn.
    destruct (frames_tree_branch mobile rng w i n Hsz Hi) as (_ & Ht & Hp).
    rewrite speed_of_particle, tree_distance_particle, Ht, Hp.
    specialize (HN n Hn). split; [apply HN | apply settled_close, HN].
Qed.

(** *** A particle that never settles *)

Lemma vnorm_axis x : vnorm (x, 0, 0) = Rabs x.
Proof.
  apply vnorm_unique; [apply Rabs_pos |].
  unfold vdot, vx, vy, vz. simpl. unfold Rabs. destruct (Rcase_abs x); ring.
Qed.

Lemma orbit_step_there :
  tree_step (0, 0, 0) ((63 / 760, 0, 0), (63 / 380, 0, 0)) =
    ((- (63 / 760), 0, 0), (- (63 / 380), 0, 0)).
Proof.
  rewrite tree_step_eq. cbv zeta. unfold unit_toward.
  replace (vsub (0, 0, 0) (63 / 760, 0, 0)) with (- (63 / 760), 0, 0)
    by (unfold vsub, vx, vy, vz; simpl; f_equal; [f_equal|]; lra).
  rewrite vnorm_axis, Rabs_left by lra.
  destruct (Rgt_dec (- - (63 / 760)) 0.01) as [_|H]; [| lra].
  unfold vadd, vscale, vx, vy, vz. cbn [fst snd]. f_equal; apply pair3_eq; rewrite ?Ropp_involutive; lra.
Qed.

Lemma orbit_step_back :
  tree_step (0, 0, 0) ((- (63 / 760), 0, 0), (- (63 / 380), 0, 0)) =
    ((63 / 760, 0, 0), (63 / 380, 0, 0)).
Proof.
  rewrite tree_step_eq. cbv zeta. unfold unit_toward.
  replace (vsub (0, 0, 0) (- (63 / 760), 0, 0)) with (63 / 760, 0, 0)
    by (unfold vsub, vx, vy, vz; simpl; f_equal; [f_equal|]; lra).
  rewrite vnorm_axis, Rabs_right by lra.
  destruct (Rgt_dec (63 / 760) 0.01) as [_|H]; [| lra].
  unfold vadd, vscale, vx, vy, vz. cbn [fst snd]. f_equal; apply pair3_eq; lra.
Qed.

Lemma orbit_states n :
  let s := Nat.iter n (tree_step (0, 0, 0)) ((63 / 760, 0, 0), (63 / 380, 0, 0)) in
  s = ((63 / 760, 0, 0), (63 / 380, 0, 0)) \/
  s = ((- (63 / 760), 0, 0), (- (63 / 380), 0, 0)).
Proof.
  induction n as [|n IH]; cbv zeta in *.
  - left. reflexivity.
  - rewrite Nat.iter_succ. destruct IH as [-> | ->].
    + right. apply orbit_step_there.
    + left. apply orbit_step_back.
Qed.

Lemma get_blank n k : get (Float32Array n) k = 0.
Proof.
  unfold get, Float32Array. destruct (replicate n 0 !! k) as [y|] eqn:E; [| reflexivity].
  apply lookup_replicate in E. simpl. apply E.
Qed.

Lemma vec3_at_blank n i : vec3_at (Float32Array n) i = (0, 0, 0).
Proof. unfold vec3_at. rewrite !get_blank. reflexivity. Qed.

Lemma one_particle_world_sized x v :
  buffers_sized (PARTICLE_COUNT false) (one_particle_world x v).
Proof.
  unfold buffers_sized, one_particle_world. cbn [mem set_mem].
  rewrite !length_store_set. apply (buffers_sized_blank false).
Qed.

Lemma one_particle_world_particle x v :
  particle (one_particle_world x v) 0 = ((x, 0, 0), (v, 0, 0)) /\
  vec3_at (mem (one_particle_world x v) TargetTree) 0 = (0, 0, 0).
Proof. split; reflexivity. Qed.

Lemma kick_step :
  tree_step (0, 0, 0) ((1 / 50, 0, 0), (0, 0, 0)) = ((- (59 / 200), 0, 0), (- (63 / 200), 0, 0)).
Proof.
  rewrite tree_step_eq. cbv zeta. unfold unit_toward.
  replace (vsub (0, 0, 0) (1 / 50, 0, 0)) with (- (1 / 50), 0, 0)
    by (unfold vsub, vx, vy, vz; simpl; f_equal; [f_equal|]; lra).
  rewrite vnorm_axis, Rabs_left by lra.
  destruct (Rgt_dec (- - (1 / 50)) 0.01) as [_|H]; [| lra].
  unfold vadd, vscale, vx, vy, vz. cbn [fst snd].
  f_equal; apply pair3_eq; rewrite ?Ropp_involutive; lra.
Qed.

(** C2 as stated fails.  A particle at distance 63/760 from its target with
    speed 63/380 away from it swings to the mirrored state and back, frame
    after frame: its distance to the target is 63/760 in every frame and never
    falls to 0.05.  And the distance is not contracted by a frame: a particle
    at rest at distance 0.02 is at distance 0.295 one frame later. *)
Lemma tree_branch_does_not_converge :
  ~ (exists N, forall n, (N <= n)%nat ->
       tree_distance
         (frames false (fun _ => 0.5) 1 n (one_particle_world (63 / 760) (63 / 380))) 0
       <= 0.05) /\
  tree_distance (frames false (fun _ => 0.5) 1 1 (one_particle_world (1 / 50) 0)) 0 >
    tree_distance (one_particle_world (1 / 50) 0) 0.
Proof.
  split.
  - intros [N H]. specialize (H N (Nat.le_refl N)).
    rewrite tree_distance_particle in H.
    destruct (frames_tree_branch false (fun _ => 0.5)
                (one_particle_world (63 / 760) (63 / 380)) 0 N) as (_ & Ht & Hp).
    { apply one_particle_world_sized. }
    { unfold PARTICLE_COUNT. lia. }
    destruct (one_particle_world_particle (63 / 760) (63 / 380)) as [Hs0 Ht0].
    rewrite Ht, Hp, !Ht0, Hs0 in H.
    unfold dist_to in H.
    destruct (orbit_states N) as [E | E]; cbv zeta in E; rewrite E in H; cbn [fst] in H.
    + replace (vsub (0, 0, 0) (63 / 760, 0, 0)) with (- (63 / 760), 0, 0) in H
        by (unfold vsub, vx, vy, vz; simpl; f_equal; [f_equal|]; lra).
      rewrite vnorm_axis, Rabs_left in H by lra. lra.
    + replace (vsub (0, 0, 0) (- (63 / 760), 0, 0)) with (63 / 760, 0, 0) in H
        by (unfold vsub, vx, vy, vz; simpl; f_equal; [f_equal|]; lra).
      rewrite vnorm_axis, Rabs_right in H by lra. lra.
  - rewrite !tree_distance_particle.
    destruct (frames_tree_branch false (fun _ => 0.5) (one_particle_world (1 / 50) 0) 0 1)
      as (_ & Ht & Hp).
    { apply one_particle_world_sized. }
    { unfold PARTICLE_COUNT. lia. }
    destruct (one_particle_world_particle (1 / 50) 0) as [Hs0 Ht0].
    rewrite Ht, Hp, !Ht0, Hs0. simpl Nat.iter. rewrite kick_step.
    unfold dist_to. cbn [fst].
    replace (vsub (0, 0, 0) (- (59 / 200), 0, 0)) with (59 / 200, 0, 0)
      by (unfold vsub, vx, vy, vz; simpl; f_equal; [f_equal|]; lra).
    replace (vsub (0, 0, 0) (1 / 50, 0, 0)) with (- (1 / 50), 0, 0)
      by (unfold vsub, vx, vy, vz; simpl; f_equal; [f_equal|]; lra).
    rewrite !vnorm_axis, Rabs_right, Rabs_left by lra. lra.
Qed.

Lemma tree_branch_ultimately_bounded_witness :
  (forall n,
     speed_of (frames false (fun _ => 0.5) 1 (S n) (blank_particles false)) 0 <=
       0.90 * (speed_of (frames false (fun _ => 0.5) 1 n (blank_particles false)) 0 + 0.35)) /\
  exists N, forall n, (N <= n)%nat ->
    speed_of (frames false (fun _ => 0.5) 1 n (blank_particles false)) 0 <= 3.16 /\
    tree_distance (frames false (fun _ => 0.5) 1 n (blank_particles false)) 0 <= 18.
Proof.
  apply (tree_branch_ultimately_bounded false (fun _ => 0.5) (blank_particles false) 0).
  - apply buffers_sized_blank.
  - unfold PARTICLE_COUNT. lia.
Defined.

(** ** The target generator *)

Lemma Math_floor_bound x : Math_floor x <= x < Math_floor x + 1.
Proof. apply Zfloor_bound. Qed.

(** The floor of a number in [0, n) is one of 0, ..., n - 1. *)
Lemma Math_floor_range (n : Z) x :
  0 <= x < IZR n -> 0 <= Math_floor x <= IZR n - 1.
Proof.
  intros [H0 Hn]. unfold Math_floor.
  assert (0 <= Zfloor x)%Z by (apply Zfloor_lub; simpl; lra).
  assert (Zfloor x < n)%Z.
  { apply lt_IZR. pose proof (Zfloor_bound x). lra. }
  split; [apply IZR_le; lia |].
  rewrite <- minus_IZR. apply IZR_le. lia.
Qed.

Lemma Math_pow_nonneg x y : 0 <= Math_pow x y.
Proof.
  unfold Math_pow. destruct (Rle_dec x 0); [lra |].
  unfold Rpower. left. apply exp_pos.
Qed.

Lemma TREE_RADIUS_bound mobile : 8 <= TREE_RADIUS mobile <= 10.
Proof. destruct mobile; simpl; lra. Qed.

Lemma layer_fraction_range mobile i :
  (i < PARTICLE_COUNT mobile)%nat -> 0 <= INR i / INR (PARTICLE_COUNT mobile) < 1.
Proof.
  intros Hi.
  assert (0 < INR (PARTICLE_COUNT mobile)) by (apply lt_0_INR; lia).
  assert (0 <= INR i) by apply pos_INR.
  assert (INR i < INR (PARTICLE_COUNT mobile)) by (apply lt_INR, Hi).
  split.
  - apply Rmult_le_pos; [assumption | left; apply Rinv_0_lt_compat; assumption].
  - apply (Rmult_lt_reg_r (INR (PARTICLE_COUNT mobile))); [assumption |].
    unfold Rdiv. rewrite Rmult_assoc, Rinv_l by lra. lra.
Qed.

(** On a layer of height [normalizedY <= 11/12] the maximum radius is above
    the minimum radius 0.2, so [Math.max(minRadius, layerRadiusMax)] is
    [layerRadiusMax]. *)
Lemma layer_radius_above_min mobile ny :
  0 <= ny <= 11 / 12 ->
  Math_max 0.2 (TREE_RADIUS mobile * ((1 - ny) * 0.8 + Math_pow (1 - ny) 1.3 * 0.2)) =
    TREE_RADIUS mobile * ((1 - ny) * 0.8 + Math_pow (1 - ny) 1.3 * 0.2).
Proof.
  intros Hny. unfold Math_max. apply Rmax_right.
  pose proof (TREE_RADIUS_bound mobile) as HR.
  pose proof (Math_pow_nonneg (1 - ny) 1.3) as Hp.
  nra.
Qed.

Lemma normalizedY_range x : 0 <= x < 1 -> 0 <= Math_floor (x * 12) / 12 <= 11 / 12.
Proof.
  intros Hx. pose proof (Math_floor_range 12 (x * 12) ltac:(lra)) as H. lra.
Qed.

Lemma write_run b k v w :
  write b k v w = (Ok tt, set_mem (store_set (mem w) b k v) w).
Proof. reflexivity. Qed.

Lemma vec3_at_store_set_buffer (s : Store) (b b' : Buffer) (k j : nat) (v : R) :
  b <> b' -> vec3_at (store_set s b k v b') j = vec3_at (s b') j.
Proof. intros H. rewrite store_set_other by exact H. reflexivity. Qed.

Section MountProofs.
Variable mobile : bool.
Variable rng : nat -> R.

Ltac finish_init :=
  eexists; split; [reflexivity |];
  simpl_state;
  split; [ unfold vec3_at; simpl_gets; apply pair3_eq; ring
  | split; [ unfold vec3_at; simpl_gets; apply pair3_eq; ring
    | split; [ intros j Hj; split;
               repeat first [ rewrite vec3_at_store_set_buffer by discriminate
                            | rewrite vec3_at_store_set_other by lia ]; reflexivity
      | split; [ unfold buffers_sized; simpl_state; rewrite !length_store_set; assumption
                 | simpl_state; lia ] ] ] ].

Lemma init_body_run i w :
  (i < PARTICLE_COUNT mobile)%nat ->
  buffers_sized (PARTICLE_COUNT mobile) w ->
  exists w',
    init_body mobile rng i w = (Ok tt, w') /\
    vec3_at (mem w' TargetTree) i = tree_target mobile i (fun k => rng (k + draws w)%nat) /\
    vec3_at (mem w' TargetExploded) i = exploded_target i /\
    (forall j, j <> i ->
       vec3_at (mem w' TargetTree) j = vec3_at (mem w TargetTree) j /\
       vec3_at (mem w' TargetExploded) j = vec3_at (mem w TargetExploded) j) /\
    buffers_sized (PARTICLE_COUNT mobile) w' /\
    (draws w <= draws w')%nat.
Proof.
  intros Hi Hsz. pose proof Hsz as (HP & HV & HT & HE & HC & HS & HA).
  pose proof (layer_fraction_range mobile i Hi) as Hfrac.
  unfold init_body, exploded_target, GOLDEN_ANGLE.
  unfold tree_target, tree_droop, tree_y_jitter, tree_depth_jitter, tree_radius, tree_angle,
    layer_height, layer_fraction, next_draw, takes_fresh_layer, layer_max_radius.
  cbv beta iota zeta delta [vscale vx vy vz fst snd].
  run_step.
  destruct (Rgt_dec (rng (0 + draws w)%nat) _) as [Hfresh|Hfresh]; cbn [Nat.add] in *;
    match goal with |- context [Rgt_dec (rng (draws w)) ?b] =>
      destruct (Rgt_dec (rng (draws w)) b) as [Hf|Hf]; [| ] end; try contradiction.
  - repeat run_step. rewrite write_run. finish_init.
  - rewrite layer_radius_above_min by (apply normalizedY_range, Hfrac).
    repeat run_step. rewrite write_run. finish_init.
Qed.


Lemma init_loop_run n : forall lo w,
  (lo + n <= PARTICLE_COUNT mobile)%nat ->
  buffers_sized (PARTICLE_COUNT mobile) w ->
  exists w',
    for_loop n lo (init_body mobile rng) w = (Ok tt, w') /\
    (forall i, (lo <= i < lo + n)%nat ->
       (exists d, vec3_at (mem w' TargetTree) i =
                    tree_target mobile i (fun k => rng (k + d)%nat)) /\
       vec3_at (mem w' TargetExploded) i = exploded_target i) /\
    (forall j, (j < lo \/ lo + n <= j)%nat ->
       vec3_at (mem w' TargetTree) j = vec3_at (mem w TargetTree) j /\
       vec3_at (mem w' TargetExploded) j = vec3_at (mem w TargetExploded) j) /\
    buffers_sized (PARTICLE_COUNT mobile) w'.
Proof.
  induction n as [|n IH]; intros lo w Hn Hsz.
  - exists w. simpl. split; [reflexivity |]. split; [intros i Hi; lia |].
    split; [intros j _; split; reflexivity | exact Hsz].
  - destruct (init_body_run lo w) as (w1 & E1 & Ht1 & He1 & Hoth1 & Hsz1 & _);
      [lia | exact Hsz |].
    destruct (IH (S lo) w1) as (w' & E' & Hin & Hout & Hsz'); [lia | exact Hsz1 |].
    exists w'. split.
    { simpl. unfold bind at 1. rewrite E1. exact E'. }
    split.
    { intros i Hi. destruct (decide (i = lo)) as [->|Hne].
      - destruct (Hout lo) as [Ht He]; [lia |]. rewrite Ht, He. split; [| exact He1].
        exists (draws w). exact Ht1.
      - apply Hin. lia. }
    split; [| exact Hsz'].
    intros j Hj. destruct (Hout j) as [Ht He]; [lia |].
    destruct (Hoth1 j) as [Ht1' He1']; [lia |]. split; congruence.
Qed.

Lemma buffers_sized_blank_store w :
  buffers_sized (PARTICLE_COUNT mobile) (set_mem (blank_store (PARTICLE_COUNT mobile)) w).
Proof. repeat split; apply length_replicate. Qed.

(** The mount effect returns, whatever the world and the random sequence. *)
Lemma mount_run w :
  exists w',
    mount mobile rng w = (Ok tt, w') /\
    (forall i, (i < PARTICLE_COUNT mobile)%nat ->
       (exists d, vec3_at (mem w' TargetTree) i =
                    tree_target mobile i (fun k => rng (k + d)%nat)) /\
       vec3_at (mem w' TargetExploded) i = exploded_target i) /\
    buffers_sized (PARTICLE_COUNT mobile) w' /\
    particlesRef w' = true.
Proof.
  destruct (init_loop_run (PARTICLE_COUNT mobile) 0
              (set_mem (blank_store (PARTICLE_COUNT mobile)) w))
    as (w1 & E1 & Hin & _ & Hsz1); [lia | apply buffers_sized_blank_store |].
  exists (set_particlesRef true w1). split.
  { unfold mount, bind. rewrite E1. reflexivity. }
  split; [| split; [exact Hsz1 | reflexivity]].
  intros i Hi. apply Hin. lia.
Qed.

End MountProofs.

Lemma noise3D_frac x y z :
  noise3D x y z = frac_part (sin (12.9898 * x + 78.233 * y + 37.719 * z) * 43758.5453).
Proof.
  unfold noise3D, frac_part, Math_floor. cbv zeta.
  replace (x * 12.9898 + y * 78.233 + z * 37.719)
    with (12.9898 * x + 78.233 * y + 37.719 * z) by ring.
  reflexivity.
Qed.

(** C3.  After the mount effect the exploded target of every particle [i] is
    [(noise3D(i,0,0) - 0.5, noise3D(0,i,0) - 0.5, noise3D(0,0,i) - 0.5)] times
    the spread 60, where [noise3D] is the fractional part of
    [sin(12.9898 x + 78.233 y + 37.719 z) * 43758.5453]; it depends on [i]
    alone, so a second run, from any world and with any random sequence,
    yields the same value. *)
Theorem exploded_target_deterministic (mobile : bool) (rng rng' : nat -> R)
    (w w' : Particles) (i : nat) :
  (i < PARTICLE_COUNT mobile)%nat ->
  vec3_at (mem (exec (mount mobile rng) w) TargetExploded) i =
    vscale 60 (noise3D (INR i) 0 0 - 0.5, noise3D 0 (INR i) 0 - 0.5, noise3D 0 0 (INR i) - 0.5) /\
  (forall x y z,
     noise3D x y z = frac_part (sin (12.9898 * x + 78.233 * y + 37.719 * z) * 43758.5453)) /\
  vec3_at (mem (exec (mount mobile rng') w') TargetExploded) i =
    vec3_at (mem (exec (mount mobile rng) w) TargetExploded) i.
Proof.
  intros Hi.
  destruct (mount_run mobile rng w) as (w1 & E1 & H1 & _).
  destruct (mount_run mobile rng' w') as (w2 & E2 & H2 & _).
  unfold exec. rewrite E1, E2. cbn [snd].
  destruct (H1 i Hi) as [_ He1]. destruct (H2 i Hi) as [_ He2].
  split; [exact He1 |]. split; [exact noise3D_frac | congruence].
Qed.

Section TreeBounds.
Variable mobile : bool.
Variable i : nat.
Variable draw : nat -> R.
Hypothesis Hi : (i < PARTICLE_COUNT mobile)%nat.
Hypothesis Hdraw : forall k, 0 <= draw k < 1.

Lemma layer_fraction_bounds : 0 <= layer_fraction mobile i draw < 1.
Proof.
  unfold layer_fraction. destruct (takes_fresh_layer mobile i draw).
  - pose proof (Hdraw 1%nat). lra.
  - apply layer_fraction_range, Hi.
Qed.

Lemma layer_height_bounds : 0 <= layer_height mobile i draw <= 11 / 12.
Proof. apply normalizedY_range, layer_fraction_bounds. Qed.

Lemma layer_max_radius_nonneg : 0 <= layer_max_radius mobile (layer_height mobile i draw).
Proof.
  unfold layer_max_radius. pose proof layer_height_bounds as Hh.
  pose proof (TREE_RADIUS_bound mobile) as HR.
  pose proof (Math_pow_nonneg (1 - layer_height mobile i draw) 1.3) as Hp. nra.
Qed.

Lemma tree_radius_bounds :
  0 <= tree_radius mobile i draw <= layer_max_radius mobile (layer_height mobile i draw).
Proof.
  unfold tree_radius. pose proof layer_max_radius_nonneg as Hm.
  pose proof (Hdraw (next_draw mobile i draw)) as Hd.
  assert (0 <= sqrt (draw (next_draw mobile i draw)) <= 1) as Hs.
  { split; [apply sqrt_pos |]. rewrite <- sqrt_1. apply sqrt_le_1_alt. lra. }
  nra.
Qed.

Lemma tree_y_jitter_bound : Rabs (tree_y_jitter mobile i draw) <= 0.3.
Proof.
  unfold tree_y_jitter. pose proof (Hdraw (next_draw mobile i draw + 1)%nat).
  apply Rabs_le. lra.
Qed.

Lemma tree_depth_jitter_bound : Rabs (tree_depth_jitter mobile i draw) <= 0.3.
Proof.
  unfold tree_depth_jitter. pose proof (Hdraw (next_draw mobile i draw + 2)%nat).
  pose proof layer_height_bounds. apply Rabs_le. nra.
Qed.

End TreeBounds.



Lemma exploded_target_deterministic_witness :
  vec3_at (mem (exec (mount false (fun _ => 0.5)) (blank_particles false)) TargetExploded) 0 =
    vscale 60 (noise3D (INR 0) 0 0 - 0.5, noise3D 0 (INR 0) 0 - 0.5, noise3D 0 0 (INR 0) - 0.5) /\
  (forall x y z,
     noise3D x y z = frac_part (sin (12.9898 * x + 78.233 * y + 37.719 * z) * 43758.5453)) /\
  vec3_at (mem (exec (mount false (fun _ => 0.25)) (blank_particles true)) TargetExploded) 0 =
    vec3_at (mem (exec (mount false (fun _ => 0.5)) (blank_particles false)) TargetExploded) 0.
Proof.
  apply (exploded_target_deterministic false (fun _ => 0.5) (fun _ => 0.25)
           (blank_particles false) (blank_particles true) 0).
  unfold PARTICLE_COUNT. lia.
Defined.

(** ** The colour themes *)

Lemma theme_color_body newTheme rand :
  (newTheme < 3)%nat ->
  (if (newTheme =? 0)%nat then
      if Rgt_dec rand 0.7 then multiplyScalar colorWhite 1.3
      else if Rgt_dec rand 0.4 then multiplyScalar colorGold 1.5
      else if Rgt_dec rand 0.25 then multiplyScalar colorRed 1.2
      else colorGreen
    else if (newTheme =? 1)%nat then
      if Rgt_dec rand 0.6 then multiplyScalar colorWhite 1.4
      else if Rgt_dec rand 0.3 then multiplyScalar colorBlue 1.5
      else multiplyScalar colorSilver 1.3
    else
      if Rgt_dec rand 0.6 then multiplyScalar colorWhite 1.4
      else if Rgt_dec rand 0.3 then multiplyScalar colorPink 1.5
      else multiplyScalar colorPurple 1.3) = theme_color newTheme rand.
Proof.
  intros H. destruct newTheme as [|[|[|n]]]; try lia; reflexivity.
Qed.

Lemma theme_color_in_palette theme rand : In (theme_color theme rand) (theme_palette theme).
Proof.
  destruct theme as [|[|n]]; simpl;
    repeat match goal with |- context [Rgt_dec ?a ?b] => destruct (Rgt_dec a b) end; tauto.
Qed.

Lemma vec3_eta (v : vec3) : (vx v, vy v, vz v) = v.
Proof. destruct v as [[a b] c]. reflexivity. Qed.

Section ThemeProofs.
Variable mobile : bool.
Variable rng : nat -> R.

Lemma changeTheme_body_run newTheme i w :
  (newTheme < 3)%nat ->
  (i * 3 + 2 < length (mem w Colors))%nat ->
  exists w',
    changeTheme_body rng newTheme i w = (Ok tt, w') /\
    color_of w' i = theme_color newTheme (rng (draws w)) /\
    (forall j, j <> i -> color_of w' j = color_of w j) /\
    (forall b, b <> Colors -> mem w' b = mem w b) /\
    (forall b, length (mem w' b) = length (mem w b)) /\
    draws w' = S (draws w) /\
    colorTheme w' = colorTheme w /\ currentTheme w' = currentTheme w /\
    particlesRef w' = particlesRef w.
Proof.
  intros Ht Hlen. unfold changeTheme_body. cbv zeta.
  run_step. rewrite theme_color_body by exact Ht.
  repeat run_step. rewrite write_run. eexists. split; [reflexivity |].
  unfold color_of. simpl_state.
  split; [unfold vec3_at; simpl_gets; apply vec3_eta |].
  split; [intros j Hj; rewrite !vec3_at_store_set_other by lia; reflexivity |].
  split; [intros b Hb; rewrite !store_set_other by congruence; reflexivity |].
  split; [intros b; rewrite !length_store_set; reflexivity |].
  repeat split.
Qed.

Lemma changeTheme_loop_run newTheme n : forall lo w,
  (newTheme < 3)%nat ->
  ((lo + n) * 3 <= length (mem w Colors))%nat ->
  exists w',
    for_loop n lo (changeTheme_body rng newTheme) w = (Ok tt, w') /\
    (forall i, (lo <= i < lo + n)%nat ->
       color_of w' i = theme_color newTheme (rng (draws w + (i - lo)))) /\
    (forall j, (j < lo \/ lo + n <= j)%nat -> color_of w' j = color_of w j) /\
    (forall b, b <> Colors -> mem w' b = mem w b) /\
    (forall b, length (mem w' b) = length (mem w b)) /\
    draws w' = (draws w + n)%nat /\
    colorTheme w' = colorTheme w /\ currentTheme w' = currentTheme w /\
    particlesRef w' = particlesRef w.
Proof.
  induction n as [|n IH]; intros lo w Ht Hlen.
  - exists w. simpl. split; [reflexivity |]. split; [intros i Hi; lia |].
    repeat split; try reflexivity; lia.
  - destruct (changeTheme_body_run newTheme lo w Ht) as
      (w1 & E1 & Hlo & Hoth & Hfr & Hl & Hdr & Hc1 & Hc2 & Hc3); [lia |].
    destruct (IH (S lo) w1 Ht) as
      (w' & E' & Hin & Hout & Hfr' & Hl' & Hdr' & Hc1' & Hc2' & Hc3').
    { rewrite Hl. lia. }
    exists w'. split.
    { simpl. unfold bind at 1. rewrite E1. exact E'. }
    split.
    { intros i Hi. destruct (decide (i = lo)) as [->|Hne].
      - rewrite Hout by lia. rewrite Hlo. f_equal. f_equal. lia.
      - rewrite Hin by lia. f_equal. f_equal. rewrite Hdr. lia. }
    split.
    { intros j Hj. rewrite Hout by lia. apply Hoth. lia. }
    split.
    { intros b Hb. rewrite Hfr' by exact Hb. apply Hfr, Hb. }
    split.
    { intros b. rewrite Hl'. apply Hl. }
    repeat split; try congruence. rewrite Hdr', Hdr. lia.
Qed.

(** A theme change on a mounted component with buffers of the right size. *)
Lemma changeTheme_run w :
  particlesRef w = true ->
  buffers_sized (PARTICLE_COUNT mobile) w ->
  exists w',
    changeTheme mobile rng w = (Ok tt, w') /\
    colorTheme w' = ((colorTheme w + 1) mod 3)%nat /\
    (forall i, (i < PARTICLE_COUNT mobile)%nat ->
       color_of w' i = theme_color (colorTheme w') (rng (draws w + i))) /\
    (forall b, b <> Colors -> mem w' b = mem w b).
Proof.
  intros Href (_ & _ & _ & _ & HC & _).
  set (newTheme := ((colorTheme w + 1) mod 3)%nat).
  assert (Ht : (newTheme < 3)%nat) by (apply Nat.mod_upper_bound; lia).
  destruct (changeTheme_loop_run newTheme (PARTICLE_COUNT mobile) 0
              (set_currentTheme (nth newTheme themeNames EmptyString)
                 (set_colorTheme newTheme w)) Ht)
    as (w' & E & Hin & _ & Hfr & _ & _ & Hc & _).
  { simpl. lia. }
  exists w'. split.
  { unfold changeTheme. fold newTheme. unfold bind. cbn [particlesRef set_colorTheme set_currentTheme].
    rewrite Href. exact E. }
  split; [rewrite Hc; reflexivity |]. split.
  - intros i Hi. rewrite Hin by lia. rewrite Hc. cbn [colorTheme set_currentTheme set_colorTheme draws].
    rewrite Nat.sub_0_r. reflexivity.
  - intros b Hb. rewrite Hfr by exact Hb. reflexivity.
Qed.


Lemma changeTheme_exec w :
  particlesRef w = true ->
  buffers_sized (PARTICLE_COUNT mobile) w ->
  fst (changeTheme mobile rng w) = Ok tt /\
  colorTheme (exec (changeTheme mobile rng) w) = ((colorTheme w + 1) mod 3)%nat /\
  (forall i, (i < PARTICLE_COUNT mobile)%nat ->
     color_of (exec (changeTheme mobile rng) w) i =
       theme_color ((colorTheme w + 1) mod 3)%nat (rng (draws w + i))) /\
  (forall b, b <> Colors -> mem (exec (changeTheme mobile rng) w) b = mem w b).
Proof.
  intros Href Hsz. destruct (changeTheme_run w Href Hsz) as (w' & E & Hth & Hcol & Hfr).
  unfold exec. rewrite E. cbn [fst snd]. split; [reflexivity |]. split; [exact Hth |].
  split; [| exact Hfr]. intros i Hi. rewrite Hcol by exact Hi. rewrite Hth. reflexivity.
Qed.

End ThemeProofs.

(** *** The values of the palette entries *)

Ltac eval_channels :=
  repeat match goal with
  | |- context [IZR (Z.land ?a ?b)] =>
      let v := eval vm_compute in (Z.land a b) in
      change (Z.land a b) with v
  end.

Lemma palette_first_theme_red_channels :
  vx (multiplyScalar colorWhite 1.3) = 1.3 /\
  vx (multiplyScalar colorGold 1.5) = 1.5 /\
  vx (multiplyScalar colorRed 1.2) = 1.2 /\
  vx colorGreen = 78 / 255.
Proof.
  unfold multiplyScalar, colorWhite, colorGold, colorRed, colorGreen, Color, vx.
  cbn [fst snd]. eval_channels. repeat split; lra.
Qed.

Lemma four_draws_colors :
  theme_color 0 (four_draws 0) = multiplyScalar colorWhite 1.3 /\
  theme_color 0 (four_draws 1) = multiplyScalar colorGold 1.5 /\
  theme_color 0 (four_draws 2) = multiplyScalar colorRed 1.2 /\
  theme_color 0 (four_draws 3) = colorGreen.
Proof.
  unfold theme_color, four_draws.
  repeat split;
    repeat match goal with |- context [Rgt_dec ?a ?b] => destruct (Rgt_dec a b); try lra end;
    reflexivity.
Qed.

Lemma first_theme_NoDup : NoDup (theme_palette 0).
Proof.
  destruct palette_first_theme_red_channels as (Hw & Hg & Hr & Hn).
  unfold theme_palette.
  repeat (apply NoDup_cons; split);
    try apply NoDup_nil_2;
    rewrite ?not_elem_of_cons; repeat split; try apply not_elem_of_nil;
    intros E; apply (f_equal vx) in E; rewrite ?Hw, ?Hg, ?Hr, ?Hn in E; lra.
Qed.

Lemma themed_particles_ready mobile t :
  particlesRef (themed_particles mobile t) = true /\
  buffers_sized (PARTICLE_COUNT mobile) (themed_particles mobile t) /\
  colorTheme (themed_particles mobile t) = t /\
  draws (themed_particles mobile t) = 0%nat.
Proof.
  split; [reflexivity |]. split; [| split; reflexivity].
  apply (buffers_sized_blank mobile).
Qed.

(** C6 as stated fails.  With the theme index at 2 a theme change selects
    theme 0, and four particles whose draws are 0.8, 0.5, 0.3 and 0.1 get four
    different colours: no list of three colours or fewer holds the colour of
    every particle. *)
Lemma first_theme_needs_four_entries :
  ~ exists palette : list vec3,
      (length palette <= 3)%nat /\
      forall i, (i < PARTICLE_COUNT false)%nat ->
        In (color_of (exec (changeTheme false four_draws) (themed_particles false 2)) i)
           palette.
Proof.
  intros (palette & Hlen & Hin).
  destruct (themed_particles_ready false 2) as (Href & Hsz & Ht & Hd).
  destruct (changeTheme_exec false four_draws _ Href Hsz) as (_ & _ & Hcol & _).
  rewrite Ht, Hd in Hcol. change ((2 + 1) mod 3)%nat with 0%nat in Hcol.
  assert (Hlt : forall i, (i < 4)%nat -> (i < PARTICLE_COUNT false)%nat)
    by (intros i Hi; unfold PARTICLE_COUNT; lia).
  assert (Hsub : forall c, c ∈ theme_palette 0 -> c ∈ palette).
  { destruct four_draws_colors as (C0 & C1 & C2 & C3).
    intros c Hc. apply list_elem_of_In.
    unfold theme_palette in Hc.
    rewrite !elem_of_cons in Hc.
    destruct Hc as [-> | [-> | [-> | [-> | Hc]]]].
    - pose proof (Hcol 0%nat ltac:(apply Hlt; lia)) as H. cbn [Nat.add] in H.
      rewrite C0 in H. rewrite <- H. apply Hin, Hlt. lia.
    - pose proof (Hcol 1%nat ltac:(apply Hlt; lia)) as H. cbn [Nat.add] in H.
      rewrite C1 in H. rewrite <- H. apply Hin, Hlt. lia.
    - pose proof (Hcol 2%nat ltac:(apply Hlt; lia)) as H. cbn [Nat.add] in H.
      rewrite C2 in H. rewrite <- H. apply Hin, Hlt. lia.
    - pose proof (Hcol 3%nat ltac:(apply Hlt; lia)) as H. cbn [Nat.add] in H.
      rewrite C3 in H. rewrite <- H. apply Hin, Hlt. lia.
    - apply elem_of_nil in Hc. contradiction. }
  pose proof (NoDup_submseteq _ _ first_theme_NoDup Hsub) as Hms.
  apply submseteq_length in Hms. simpl in Hms. lia.
Qed.

(** C6, amended.  A theme change, on a mounted component, moves the theme
    index to the next of the three themes and repaints every particle with
    the entry that a fresh draw of the particle's own selects through the
    ordered thresholds of the new theme; the old colour plays no part.  After
    the change the colour of every particle is an entry of the palette of the
    new theme, which has four entries for theme 0 and three for themes 1 and 2,
    and no particle keeps a colour that is not in that palette. *)
Theorem theme_change_repaints (mobile : bool) (rng : nat -> R) (w : Particles) :
  particlesRef w = true ->
  buffers_sized (PARTICLE_COUNT mobile) w ->
  let w' := exec (changeTheme mobile rng) w in
  fst (changeTheme mobile rng w) = Ok tt /\
  colorTheme w' = ((colorTheme w + 1) mod 3)%nat /\
  (forall i, (i < PARTICLE_COUNT mobile)%nat ->
     color_of w' i = theme_color (colorTheme w') (rng (draws w + i)%nat) /\
     In (color_of w' i) (theme_palette (colorTheme w')) /\
     (forall c, ~ In c (theme_palette (colorTheme w')) -> color_of w' i <> c)) /\
  length (theme_palette 0) = 4%nat /\
  length (theme_palette 1) = 3%nat /\
  length (theme_palette 2) = 3%nat.
Proof.
  intros Href Hsz. cbv zeta.
  destruct (changeTheme_exec mobile rng w Href Hsz) as (Hok & Hth & Hcol & _).
  split; [exact Hok |]. split; [exact Hth |].
  split; [| repeat split].
  intros i Hi. rewrite Hth, (Hcol i Hi).
  split; [reflexivity |]. split; [apply theme_color_in_palette |].
  intros c Hc E. apply Hc. rewrite <- E. apply theme_color_in_palette.
Qed.

Lemma theme_change_repaints_witness :
  let w := themed_particles false 2 in
  let w' := exec (changeTheme false four_draws) w in
  fst (changeTheme false four_draws w) = Ok tt /\
  colorTheme w' = ((colorTheme w + 1) mod 3)%nat /\
  (forall i, (i < PARTICLE_COUNT false)%nat ->
     color_of w' i = theme_color (colorTheme w') (four_draws (draws w + i)%nat) /\
     In (color_of w' i) (theme_palette (colorTheme w')) /\
     (forall c, ~ In c (theme_palette (colorTheme w')) -> color_of w' i <> c)) /\
  length (theme_palette 0) = 4%nat /\
  length (theme_palette 1) = 3%nat /\
  length (theme_palette 2) = 3%nat.
Proof.
  apply (theme_change_repaints false four_draws (themed_particles false 2)).
  - reflexivity.
  - apply themed_particles_ready.
Defined.

(** ** Snow and fireworks *)

Module EffectsFacts.
Import Effects.

Section Facts.
Variable rng : nat -> R.

(** *** What the callbacks leave alone *)

(** The layer callback of the source raises before it writes anything. *)
Lemma spawnLayer_raises fireworkPos layer layerIndex s :
  spawnLayer rng fireworkPos layer layerIndex s = (Throw TypeError, s).
Proof. reflexivity. Qed.

Lemma hideSnow_run s :
  hideSnow s =
    (Ok tt,
     match snowParticlesRef s with
     | Some _ => set_snowParticlesRef (Some false) (set_isSnowingRef false (set_isSnowing false s))
     | None => set_isSnowingRef false (set_isSnowing false s)
     end).
Proof. unfold hideSnow, bind. simpl. destruct (snowParticlesRef s); reflexivity. Qed.

Lemma fire_fireworks tm s :
  fireworksRef (fire_with rng THREE_Float32Array tm s) = fireworksRef s.
Proof.
  destruct tm as [d [| p l i]]; unfold fire_with; cbn [fst snd run_callback_with].
  - rewrite hideSnow_run. cbn [snowParticlesRef set_now]. destruct (snowParticlesRef s); reflexivity.
  - reflexivity.
Qed.

Lemma fold_fire_fireworks l : forall s,
  fireworksRef (fold_left (fun st tm => fire_with rng THREE_Float32Array tm st) l s) =
    fireworksRef s.
Proof.
  induction l as [|tm l IH]; intros s; simpl; [reflexivity |].
  rewrite IH. apply fire_fireworks.
Qed.

Lemma advance_fireworks t s : fireworksRef (advance rng t s) = fireworksRef s.
Proof. unfold advance, advance_with. cbn [fireworksRef set_now]. rewrite fold_fire_fireworks. reflexivity. Qed.

Lemma schedule_layers_fireworks p ls : forall i s,
  fst (schedule_layers p ls i s) = Ok tt /\
  fireworksRef (snd (schedule_layers p ls i s)) = fireworksRef s.
Proof.
  induction ls as [|l ls IH]; intros i s; simpl; [split; reflexivity |].
  unfold bind, setTimeout. cbn [fst snd].
  match goal with |- context [schedule_layers p ls ?j ?s'] =>
    destruct (IH j s') as [H1 H2] end.
  split; [exact H1 | rewrite H2; reflexivity].
Qed.

Lemma launchFireworks_fireworks mobile s :
  fst (launchFireworks rng mobile s) = Ok tt /\
  fireworksRef (exec (launchFireworks rng mobile) s) = fireworksRef s.
Proof.
  unfold exec, launchFireworks, bind, Math_random. cbn [fst snd].
  match goal with |- context [schedule_layers ?p ?ls ?i ?s'] =>
    destruct (schedule_layers_fireworks p ls i s') as [H1 H2] end.
  split; [exact H1 | rewrite H2; reflexivity].
Qed.

Lemma fire_spawn d p l i s :
  fire_with rng THREE_Float32Array (d, SpawnLayer p l i) s =
    set_uncaught (uncaught s ++ [TypeError]) (set_now (Rmax (now s) d) s).
Proof. reflexivity. Qed.

(** A trigger on a component with no pending timer arms the three layer
    timers, in the order of the layers. *)
Lemma launchFireworks_exec mobile s :
  timers s = [] ->
  exec (launchFireworks rng mobile) s =
    let fireworkPos := ((rng (draws s) - 0.5) * 20, 10 + rng (S (draws s)) * 10, 0) in
    set_timers
      [ (now s + 0 * 1000, SpawnLayer fireworkPos (nth 0 (layers mobile) (mkLayer 0 0 0 0)) 0);
        (now s + 0.1 * 1000, SpawnLayer fireworkPos (nth 1 (layers mobile) (mkLayer 0 0 0 0)) 1);
        (now s + 0.2 * 1000, SpawnLayer fireworkPos (nth 2 (layers mobile) (mkLayer 0 0 0 0)) 2) ]
      (set_draws (S (S (draws s))) s).
Proof.
  intros Hq. destruct s as [d sn snr sp fw q t u]. cbn [timers] in Hq. subst q.
  unfold exec, launchFireworks, bind, Math_random, layers, setTimeout.
  cbn [fst snd schedule_layers draws set_draws timers set_timers now delay insert_timer nth].
  unfold bind, setTimeout.
  cbn [fst snd draws set_draws timers set_timers now delay insert_timer].
  repeat (match goal with |- context [Rle_dec ?a ?b] => destruct (Rle_dec a b); try lra end;
          cbn [insert_timer fst snd timers set_timers now]).
  reflexivity.
Qed.

(** *** The layer callback once the colour array is allocated *)

Lemma length_set_list (a : list R) i v : length (set a i v) = length a.
Proof. apply length_insert. Qed.

Lemma fill_particle_run p l c1 c2 i (b : LayerBuffers) s :
  exists b',
    fill_particle rng p l c1 c2 i b s = (Ok b', set_draws (draws s + 4) s) /\
    length (fst (fst (fst b'))) = length (fst (fst (fst b))) /\
    length (snd (fst (fst b'))) = length (snd (fst (fst b))) /\
    length (snd (fst b')) = length (snd (fst b)) /\
    length (snd b') = length (snd b).
Proof.
  destruct b as [[[bp bv] bc] bs]. destruct s as [d sn snr sp fw q t u].
  eexists. split.
  - unfold fill_particle, bind, Math_random, ret. cbn [draws set_draws fst snd].
    replace (d + 4)%nat with (S (S (S (S d)))) by lia. reflexivity.
  - cbn [fst snd]. rewrite !length_set_list. repeat split.
Qed.

Lemma fill_layer_run p l c1 c2 n : forall i (b : LayerBuffers) s,
  exists b',
    fill_layer rng p l c1 c2 n i b s = (Ok b', set_draws (draws s + 4 * n) s) /\
    length (fst (fst (fst b'))) = length (fst (fst (fst b))) /\
    length (snd (fst (fst b'))) = length (snd (fst (fst b))) /\
    length (snd (fst b')) = length (snd (fst b)) /\
    length (snd b') = length (snd b).
Proof.
  induction n as [|n IH]; intros i b s.
  - exists b. split; [| repeat split]. simpl. unfold ret.
    destruct s; unfold set_draws; cbn. rewrite Nat.add_0_r. reflexivity.
  - destruct (fill_particle_run p l c1 c2 i b s) as (b1 & E1 & H1 & H2 & H3 & H4).
    destruct (IH (S i) b1 (set_draws (draws s + 4) s)) as (b' & E' & K1 & K2 & K3 & K4).
    exists b'. split.
    + cbn [fill_layer]. unfold bind at 1. rewrite E1, E'.
      unfold set_draws. cbn. do 2 f_equal. lia.
    + repeat split; congruence.
Qed.

(** With a constructor for the colour array the callback returns and pushes
    one firework of [count layer] particles, new, active, fully opaque and in
    the scene, and touches nothing else but the count of draws. *)
Lemma spawnLayer_with_run ctor p l i s :
  (forall n, length (ctor n) = n) ->
  exists fw pts d,
    spawnLayer_with rng (Some ctor) p l i s =
      (Ok tt, set_fireworksRef (fireworksRef s ++ [fw]) (set_draws d s)) /\
    particles fw = Some pts /\
    length (fwPositions pts) = (count l * 3)%nat /\
    length (velocities fw) = (count l * 3)%nat /\
    opacity pts = 1 /\ inScene pts = true /\ disposed pts = false /\
    age fw = 0 /\ lifetime fw = 3.0 /\ active fw = true /\ layerIndex fw = i.
Proof.
  intros Hctor. destruct s as [d sn snr sp fws q t u].
  unfold spawnLayer_with, new_, bind, ret, Math_random. cbn [draws set_draws].
  match goal with |- context [fill_layer rng p l ?c1 ?c2 ?n ?j ?b ?st] =>
    destruct (fill_layer_run p l c1 c2 n j b st)
      as ([[[bp bv] bc] bs] & E & H1 & H2 & H3 & H4); rewrite E end.
  cbn [fst snd] in *. unfold set_draws, set_fireworksRef. cbn.
  eexists _, _, _. split; [reflexivity |].
  cbn. unfold Float32Array in *. rewrite length_replicate in H1, H2.
  repeat split; assumption.
Qed.

Lemma layer_counts_app l1 l2 : layer_counts (l1 ++ l2) = layer_counts l1 ++ layer_counts l2.
Proof. apply map_app. Qed.

Lemma fire_spawn_with ctor tm s :
  (forall n, length (ctor n) = n) ->
  is_spawn tm ->
  layer_counts (fireworksRef (fire_with rng (Some ctor) tm s)) =
    layer_counts (fireworksRef s) ++ [timer_count tm] /\
  uncaught (fire_with rng (Some ctor) tm s) = uncaught s.
Proof.
  intros Hctor (p & l & i & Hcb). destruct tm as [d cb]. cbn [snd] in Hcb. subst cb.
  unfold fire_with, timer_count. cbn [fst snd run_callback_with].
  destruct (spawnLayer_with_run ctor p l i (set_now (Rmax (now s) d) s) Hctor)
    as (fw & pts & d' & E & Hp & Hlen & _).
  rewrite E. cbn [fireworksRef set_fireworksRef set_draws set_now uncaught].
  split; [| reflexivity].
  rewrite layer_counts_app. f_equal. unfold layer_counts. cbn [map].
  rewrite Hp, Hlen, Nat.div_mul by lia. reflexivity.
Qed.

Lemma fold_fire_spawn_with ctor tms : forall s,
  (forall n, length (ctor n) = n) ->
  Forall is_spawn tms ->
  layer_counts (fireworksRef (fold_left (fun st tm => fire_with rng (Some ctor) tm st) tms s)) =
    layer_counts (fireworksRef s) ++ map timer_count tms /\
  uncaught (fold_left (fun st tm => fire_with rng (Some ctor) tm st) tms s) = uncaught s.
Proof.
  induction tms as [|tm tms IH]; intros s Hctor Hall.
  - simpl. rewrite app_nil_r. split; reflexivity.
  - apply Forall_cons in Hall as [Htm Hall]. cbn [fold_left map].
    destruct (IH (fire_with rng (Some ctor) tm s) Hctor Hall) as [H1 H2].
    destruct (fire_spawn_with ctor tm s Hctor Htm) as [K1 K2].
    rewrite H1, H2, K1, K2, <- app_assoc. split; reflexivity.
Qed.

Lemma due_timers_all t q : Forall (fun tm => fst tm <= t) q -> due_timers t q = q.
Proof.
  induction q as [|[d c] q IH]; intros Hall; [reflexivity |].
  apply Forall_cons in Hall as [Hd Hall]. cbn [due_timers fst] in *.
  destruct (Rle_dec d t) as [_|Hn]; [| contradiction]. rewrite IH by exact Hall. reflexivity.
Qed.

(** When every pending timer is a layer timer and is due, time passing fires
    them all and each adds its layer. *)
Lemma advance_with_spawns ctor t s :
  (forall n, length (ctor n) = n) ->
  Forall (fun tm => fst tm <= t) (timers s) ->
  Forall is_spawn (timers s) ->
  layer_counts (fireworksRef (advance_with rng (Some ctor) t s)) =
    layer_counts (fireworksRef s) ++ map timer_count (timers s) /\
  uncaught (advance_with rng (Some ctor) t s) = uncaught s.
Proof.
  intros Hctor Hdue Hsp. unfold advance_with.
  rewrite due_timers_all by exact Hdue. cbn [fireworksRef uncaught set_now].
  destruct (fold_fire_spawn_with ctor (timers s)
              (set_timers (drop (length (timers s)) (timers s)) s) Hctor Hsp) as [H1 H2].
  rewrite H1, H2. split; reflexivity.
Qed.

End Facts.

(** C7, on the code as it is.  A fireworks trigger returns and arms its
    timers, but whenever they fire no layer is added to the fireworks: every
    layer callback raises a TypeError at [new THREE.Float32Array(...)], before
    it has pushed anything.  From the component at rest, on a desktop, the three
    callbacks have fired by 200 ms, the list of fireworks is empty and three
    TypeErrors have been reported. *)
Theorem launchFireworks_spawns_no_layer (rng : nat -> R) (mobile : bool) (s : State) (t : R) :
  fst (launchFireworks rng mobile s) = Ok tt /\
  fireworksRef (advance rng t (exec (launchFireworks rng mobile) s)) = fireworksRef s /\
  fireworksRef (advance rng 200 (exec (launchFireworks rng false) idle)) = [] /\
  uncaught (advance rng 200 (exec (launchFireworks rng false) idle)) =
    [TypeError; TypeError; TypeError].
Proof.
  destruct (launchFireworks_fireworks rng mobile s) as [Hok Hfw].
  split; [exact Hok |]. split; [rewrite advance_fireworks; exact Hfw |].
  split.
  - rewrite advance_fireworks. apply (launchFireworks_fireworks rng false idle).
  - rewrite launchFireworks_exec by reflexivity. cbv zeta.
    unfold advance, advance_with, idle. cbn [timers set_timers set_draws now due_timers].
    repeat (match goal with |- context [Rle_dec ?a ?b] => destruct (Rle_dec a b); try lra end;
            cbn [due_timers]).
    cbn [length drop fold_left]. rewrite !fire_spawn. reflexivity.
Qed.

(** *** The snow window *)

Section Snow.
Variable rng : nat -> R.

Lemma toggleSnow_active s : isSnowingRef s = true -> toggleSnow s = (Ok tt, s).
Proof. intros H. unfold toggleSnow. rewrite H. reflexivity. Qed.

Lemma toggleSnow_idle s v :
  isSnowingRef s = false -> snowParticlesRef s = Some v ->
  toggleSnow s =
    (Ok tt,
     set_timers (insert_timer (now s + 10000) HideSnow (timers s))
       (set_snowParticlesRef (Some true) (set_isSnowingRef true (set_isSnowing true s)))).
Proof.
  intros H Hv. unfold toggleSnow. rewrite H. cbn [negb].
  unfold bind, setTimeout. cbn. rewrite Hv. reflexivity.
Qed.

(** A timer that is not the snow timer leaves the snow flags alone. *)
Lemma fire_other_snow tm s :
  snd tm <> HideSnow -> snow_flags (fire_with rng THREE_Float32Array tm s) = snow_flags s.
Proof.
  destruct tm as [d [| p l i]]; cbn [snd]; intros H; [contradiction |].
  rewrite fire_spawn. reflexivity.
Qed.

Lemma fold_fire_other_snow l : forall s,
  no_snow_timer l ->
  snow_flags (fold_left (fun st tm => fire_with rng THREE_Float32Array tm st) l s) =
    snow_flags s.
Proof.
  induction l as [|tm l IH]; intros s Hl; [reflexivity |].
  apply Forall_cons in Hl as [Htm Hl]. cbn [fold_left].
  rewrite IH by exact Hl. apply fire_other_snow, Htm.
Qed.

Lemma fire_hide_snow d s v :
  snowParticlesRef s = Some v ->
  snow_flags (fire_with rng THREE_Float32Array (d, HideSnow) s) = (false, false, Some false).
Proof.
  intros Hv. unfold fire_with. cbn [fst snd run_callback_with]. rewrite hideSnow_run.
  cbn [snowParticlesRef set_now]. rewrite Hv. reflexivity.
Qed.

(** Before its due time a newly armed timer is not among the due ones. *)
Lemma due_timers_insert_later t due cb q :
  t < due -> due_timers t (insert_timer due cb q) = due_timers t q.
Proof.
  intros Ht. induction q as [|[d c] q IH]; cbn [insert_timer due_timers].
  - destruct (Rle_dec due t); [lra | reflexivity].
  - destruct (Rle_dec d due) as [Hd|Hd]; cbn [due_timers].
    + destruct (Rle_dec d t); [rewrite IH; reflexivity | reflexivity].
    + destruct (Rle_dec due t); [lra |]. destruct (Rle_dec d t); [lra | reflexivity].
Qed.

Lemma due_timers_prefix t q : exists r, q = due_timers t q ++ r.
Proof.
  induction q as [|[d c] q [r IH]]; cbn [due_timers]; [exists []; reflexivity |].
  destruct (Rle_dec d t) as [Hle|Hle].
  - exists r. cbn [app]. rewrite <- IH. reflexivity.
  - eexists. reflexivity.
Qed.

(** From its due time on it is, and what is due or left besides it comes
    from the queue it was put in. *)
Lemma due_timers_insert_due t due cb q :
  due <= t ->
  exists l1 l2 r,
    due_timers t (insert_timer due cb q) = l1 ++ (due, cb) :: l2 /\
    insert_timer due cb q = l1 ++ (due, cb) :: l2 ++ r /\
    q = l1 ++ l2 ++ r.
Proof.
  intros Ht. induction q as [|[d c] q IH]; cbn [insert_timer due_timers].
  - destruct (Rle_dec due t); [| lra]. exists [], [], []. repeat split.
  - destruct (Rle_dec d due) as [Hd|Hd]; cbn [due_timers].
    + destruct (Rle_dec d t) as [Hle|Hle]; [| lra].
      destruct IH as (l1 & l2 & r & E1 & E2 & E3).
      exists ((d, c) :: l1), l2, r. cbn [app]. rewrite E1, E2, <- E3. repeat split.
    + destruct (Rle_dec due t) as [Hle|Hle]; [| lra].
      destruct (due_timers_prefix t ((d, c) :: q)) as [r Hr].
      exists [], (due_timers t ((d, c) :: q)), r. cbn [app]. rewrite <- Hr. repeat split.
Qed.

Lemma no_snow_timer_app l1 l2 :
  no_snow_timer (l1 ++ l2) <-> no_snow_timer l1 /\ no_snow_timer l2.
Proof. apply Forall_app. Qed.

Lemma snow_flags_inv s a b c :
  snow_flags s = (a, b, c) ->
  isSnowing s = a /\ isSnowingRef s = b /\ snowParticlesRef s = c /\
  snow_visible s = match c with Some v => v | None => false end.
Proof.
  unfold snow_flags, snow_visible. intros H. injection H as -> -> ->. repeat split.
Qed.

Lemma snow_visible_flags s s' : snow_flags s' = snow_flags s -> snow_visible s' = snow_visible s.
Proof. unfold snow_flags, snow_visible. intros H. injection H as _ _ ->. reflexivity. Qed.

Lemma isSnowingRef_flags s s' :
  snow_flags s' = snow_flags s -> isSnowingRef s' = isSnowingRef s.
Proof. unfold snow_flags. intros H. injection H as _ -> _. reflexivity. Qed.

Lemma advance_flags t s :
  snow_flags (advance rng t s) =
    snow_flags (fold_left (fun st tm => fire_with rng THREE_Float32Array tm st)
                  (due_timers t (timers s))
                  (set_timers (drop (length (due_timers t (timers s))) (timers s)) s)).
Proof. reflexivity. Qed.

Lemma fire_timers tm st : timers (fire_with rng THREE_Float32Array tm st) = timers st.
Proof.
  destruct tm as [d [| p l i]].
  - unfold fire_with. cbn [fst snd run_callback_with]. rewrite hideSnow_run.
    cbn [snowParticlesRef set_now]. destruct (snowParticlesRef st); reflexivity.
  - rewrite fire_spawn. reflexivity.
Qed.

Lemma advance_timers t s :
  timers (advance rng t s) = drop (length (due_timers t (timers s))) (timers s).
Proof.
  unfold advance, advance_with. cbn [timers set_now].
  assert (forall l st,
            timers (fold_left (fun st tm => fire_with rng THREE_Float32Array tm st) l st)
            = timers st) as Hfold.
  { induction l as [|tm l IH]; intros st; [reflexivity |].
    cbn [fold_left]. rewrite IH. apply fire_timers. }
  rewrite Hfold. reflexivity.
Qed.

Lemma fold_fire_snowParticlesRef l : forall s v,
  no_snow_timer l -> snowParticlesRef s = Some v ->
  snowParticlesRef (fold_left (fun st tm => fire_with rng THREE_Float32Array tm st) l s) = Some v.
Proof.
  intros s v Hl Hv. pose proof (fold_fire_other_snow l s Hl) as H.
  unfold snow_flags in H. injection H as _ _ H. rewrite H. exact Hv.
Qed.

(** The state right after a trigger, and what passing time makes of it. *)
Lemma snow_window_open s t v :
  no_snow_timer (timers s) -> snowParticlesRef s = Some v -> isSnowingRef s = false ->
  t < now s + 10000 ->
  snow_flags (advance rng t (exec toggleSnow s)) = (true, true, Some true).
Proof.
  intros Hq Hv Hidle Ht. unfold exec. rewrite (toggleSnow_idle s v Hidle Hv). cbn [snd].
  rewrite advance_flags. cbn [timers set_timers].
  rewrite due_timers_insert_later by exact Ht.
  rewrite fold_fire_other_snow; [reflexivity |].
  destruct (due_timers_prefix t (timers s)) as [r Hr]. rewrite Hr in Hq.
  apply no_snow_timer_app in Hq. apply Hq.
Qed.

Lemma snow_window_closed s t v :
  no_snow_timer (timers s) -> snowParticlesRef s = Some v -> isSnowingRef s = false ->
  now s + 10000 <= t ->
  snow_flags (advance rng t (exec toggleSnow s)) = (false, false, Some false) /\
  no_snow_timer (timers (advance rng t (exec toggleSnow s))).
Proof.
  intros Hq Hv Hidle Ht. unfold exec. rewrite (toggleSnow_idle s v Hidle Hv). cbn [snd].
  rewrite advance_flags, advance_timers. cbn [timers set_timers].
  destruct (due_timers_insert_due t (now s + 10000) HideSnow (timers s) Ht)
    as (l1 & l2 & r & E1 & E2 & E3).
  rewrite E1, E2. rewrite E3 in Hq.
  apply no_snow_timer_app in Hq as [Hq1 Hq]. apply no_snow_timer_app in Hq as [Hq2 Hq3].
  split.
  - rewrite fold_left_app. cbn [fold_left].
    rewrite fold_fire_other_snow by exact Hq2.
    apply (fire_hide_snow _ _ true).
    apply fold_fire_snowParticlesRef; [exact Hq1 | reflexivity].
  - replace (l1 ++ (now s + 10000, HideSnow) :: l2 ++ r)
      with ((l1 ++ (now s + 10000, HideSnow) :: l2) ++ r)
      by (rewrite <- app_assoc; reflexivity).
    rewrite drop_app_length. exact Hq3.
Qed.

End Snow.

(** *** The life of a layer *)

Lemma fade_profile x :
  (x < 0.7 -> fade x = 1) /\
  (0.7 <= x -> fade x = 1 - (x - 0.7) / 0.3) /\
  (x < 1 -> 0 < fade x) /\
  (x = 1 -> fade x = 0).
Proof.
  unfold fade. destruct (Rlt_dec x 0.7); repeat split; intros; try lra.
Qed.

Lemma animate_firework_alive fw p :
  particles fw = Some p ->
  age fw + 0.016 <= lifetime fw ->
  age (animate_firework fw) = age fw + 0.016 /\
  lifetime (animate_firework fw) = lifetime fw /\
  active (animate_firework fw) = active fw /\
  exists p',
    particles (animate_firework fw) = Some p' /\
    opacity p' = fade ((age fw + 0.016) / lifetime fw) /\
    inScene p' = inScene p /\ disposed p' = disposed p /\
    length (fwSizes p') = length (fwSizes p).
Proof.
  intros Hp Hage. unfold animate_firework. cbv zeta.
  destruct (Rgt_dec (age fw + 0.016) (lifetime fw)) as [H|_]; [lra |].
  rewrite Hp.
  destruct (fold_left _ _ _) as [[a b] c]. cbn.
  repeat split. eexists. repeat split.
Qed.

Lemma animate_firework_expired fw p :
  particles fw = Some p ->
  age fw + 0.016 > lifetime fw ->
  age (animate_firework fw) = age fw + 0.016 /\
  lifetime (animate_firework fw) = lifetime fw /\
  active (animate_firework fw) = false /\
  exists p',
    particles (animate_firework fw) = Some p' /\
    inScene p' = false /\ disposed p' = true.
Proof.
  intros Hp Hage. unfold animate_firework. cbv zeta.
  destruct (Rgt_dec (age fw + 0.016) (lifetime fw)) as [_|H]; [| lra].
  rewrite Hp. cbn. repeat split. eexists. repeat split.
Qed.

(** X14.  A layer, from its creation: during its first 187 frames it is active, in
    the scene, and its opacity is [fade] of its age over its lifetime, 1 until
    70% of the lifetime, then falling linearly, and still positive; in frame 188
    its age, 3.008 s, exceeds the lifetime: it is deactivated, removed from the
    scene and disposed of, and stays so. *)
Lemma layer_life fw p :
  particles fw = Some p -> age fw = 0 -> lifetime fw = 3.0 -> active fw = true ->
  inScene p = true -> opacity p = 1 ->
  forall k,
    let fw' := Nat.iter k frame_firework fw in
    lifetime fw' = 3.0 /\
    ((k <= 187)%nat ->
       age fw' = 0.016 * INR k /\ active fw' = true /\
       exists p', particles fw' = Some p' /\ inScene p' = true /\
                  opacity p' = fade (age fw' / 3.0) /\ 0 < opacity p') /\
    ((188 <= k)%nat ->
       active fw' = false /\
       exists p', particles fw' = Some p' /\ inScene p' = false /\ disposed p' = true).
Proof.
  intros Hp Hage Hlife Hact Hscene Hop k. cbv zeta.
  induction k as [|k (IHl & IHa & IHd)].
  - simpl. split; [exact Hlife |]. split; [| lia].
    intros _. split; [lra |]. split; [exact Hact |].
    exists p. rewrite Hage. repeat split; try assumption.
    + rewrite Hop. symmetry. apply fade_profile. lra.
    + lra.
  - rewrite Nat.iter_succ. set (f := Nat.iter k frame_firework fw) in *.
    destruct (Nat.le_gt_cases k 187%nat) as [Hk|Hk].
    + destruct (IHa Hk) as (Ha & Hac & p1 & Hp1 & Hs1 & _).
      unfold frame_firework. rewrite Hac.
      assert (Hk' : INR k <= 187).
      { pose proof (le_INR _ _ Hk) as H. rewrite (INR_IZR_INZ 187%nat) in H. exact H. }
      destruct (Nat.eq_dec k 187%nat) as [->|Hne].
      * destruct (animate_firework_expired f p1 Hp1) as (_ & Hl' & Hac' & p' & Hp' & Hs' & Hd').
        { rewrite Ha, IHl, (INR_IZR_INZ 187%nat). change (IZR (Z.of_nat 187%nat)) with 187. lra. }
        split; [congruence |]. split; [lia |]. intros _. split; [exact Hac' |].
        exists p'. auto.
      * assert (Hk2 : INR k <= 186).
        { assert (Hk3 : (k <= 186)%nat) by lia.
          pose proof (le_INR _ _ Hk3) as H. rewrite (INR_IZR_INZ 186%nat) in H. exact H. }
        destruct (animate_firework_alive f p1 Hp1) as (Ha' & Hl' & Hac' & p' & Hp' & Ho' & Hs' & _).
        { rewrite Ha, IHl. lra. }
        split; [congruence |]. split; [| lia]. intros _.
        rewrite S_INR. split; [rewrite Ha', Ha; lra |]. split; [congruence |].
        exists p'. split; [exact Hp' |]. split; [congruence |].
        rewrite Ho', Ha', IHl. split; [reflexivity |].
        apply fade_profile. rewrite Ha. lra.
    + destruct (IHd Hk) as (Hac & p1 & Hp1 & Hs1 & Hd1).
      unfold frame_firework. rewrite Hac.
      split; [exact IHl |]. split; [lia |]. intros _. split; [exact Hac |].
      exists p1. auto.
Qed.

(** What the claim describes holds once the colour array is allocated like
    its three siblings, with the global [Float32Array]: on a desktop, by
    200 ms after the trigger, exactly three layers have been added, of 200, 150
    and 100 particles, 450 in all, and no exception has been raised. *)
Lemma repaired_launch_spawns_three_layers (rng : nat -> R) (s : State) (t : R) :
  timers s = [] ->
  now s + 200 <= t ->
  let s' := advance_with rng (Some Float32Array) t (exec (launchFireworks rng false) s) in
  layer_counts (fireworksRef s') = layer_counts (fireworksRef s) ++ [200; 150; 100]%nat /\
  (200 + 150 + 100 = 450)%nat /\
  uncaught s' = uncaught s.
Proof.
  intros Hq Ht. cbv zeta. rewrite launchFireworks_exec by exact Hq. cbv zeta.
  match goal with |- context [advance_with rng _ t ?st] =>
    destruct (advance_with_spawns rng Float32Array t st) as [H1 H2] end.
  { intros n. apply length_replicate. }
  { cbn [timers set_timers]. repeat (apply Forall_cons; split; [cbn [fst]; lra |]).
    apply Forall_nil_2. }
  { cbn [timers set_timers].
    repeat (apply Forall_cons; split; [eexists _, _, _; reflexivity |]). apply Forall_nil_2. }
  rewrite H1, H2. repeat split.
Qed.

(** C8.  A trigger while the snow is on is a no-op: it returns the state it
    was given.  A trigger on a mounted component whose snow is off, with no
    snow timer pending, shows the snow and arms one timer 10000 ms ahead; as
    time passes the snow stays visible, and a second trigger changes nothing,
    at every time before the 10000 ms are over; from then on the snow is
    hidden, the flags are back off and no snow timer is pending. *)
Theorem snow_window (rng : nat -> R) (s : State) :
  isSnowingRef s = false -> snowParticlesRef s <> None -> no_snow_timer (timers s) ->
  (forall s0, isSnowingRef s0 = true -> toggleSnow s0 = (Ok tt, s0)) /\
  let s1 := exec toggleSnow s in
  snow_visible s1 = true /\
  timers s1 = insert_timer (now s + 10000) HideSnow (timers s) /\
  toggleSnow s1 = (Ok tt, s1) /\
  (forall t, t < now s + 10000 ->
     snow_visible (advance rng t s1) = true /\
     toggleSnow (advance rng t s1) = (Ok tt, advance rng t s1)) /\
  (forall t, now s + 10000 <= t ->
     snow_visible (advance rng t s1) = false /\
     isSnowing (advance rng t s1) = false /\
     isSnowingRef (advance rng t s1) = false /\
     no_snow_timer (timers (advance rng t s1))).
Proof.
  intros Hidle Hv Hq. split; [exact toggleSnow_active |]. cbv zeta.
  destruct (snowParticlesRef s) as [v|] eqn:Ev; [clear Hv | contradiction].
  assert (E1 : exec toggleSnow s =
               set_timers (insert_timer (now s + 10000) HideSnow (timers s))
                 (set_snowParticlesRef (Some true)
                    (set_isSnowingRef true (set_isSnowing true s)))).
  { unfold exec. rewrite (toggleSnow_idle s v Hidle Ev). reflexivity. }
  split; [rewrite E1; reflexivity |].
  split; [rewrite E1; reflexivity |].
  split; [apply toggleSnow_active; rewrite E1; reflexivity |].
  split.
  - intros t Ht. pose proof (snow_window_open rng s t v Hq Ev Hidle Ht) as H.
    apply snow_flags_inv in H as (H1 & H2 & H3 & H4).
    split; [exact H4 | apply toggleSnow_active, H2].
  - intros t Ht. destruct (snow_window_closed rng s t v Hq Ev Hidle Ht) as [H Hno].
    apply snow_flags_inv in H as (H1 & H2 & H3 & H4). auto.
Qed.

Lemma snow_window_witness :
  (forall s0, isSnowingRef s0 = true -> toggleSnow s0 = (Ok tt, s0)) /\
  let s1 := exec toggleSnow idle in
  snow_visible s1 = true /\
  timers s1 = insert_timer (now idle + 10000) HideSnow (timers idle) /\
  toggleSnow s1 = (Ok tt, s1) /\
  (forall t, t < now idle + 10000 ->
     snow_visible (advance (fun _ => 0.5) t s1) = true /\
     toggleSnow (advance (fun _ => 0.5) t s1) = (Ok tt, advance (fun _ => 0.5) t s1)) /\
  (forall t, now idle + 10000 <= t ->
     snow_visible (advance (fun _ => 0.5) t s1) = false /\
     isSnowing (advance (fun _ => 0.5) t s1) = false /\
     isSnowingRef (advance (fun _ => 0.5) t s1) = false /\
     no_snow_timer (timers (advance (fun _ => 0.5) t s1))).
Proof.
  apply (snow_window (fun _ => 0.5) idle).
  - reflexivity.
  - discriminate.
  - apply Forall_nil_2.
Defined.

End EffectsFacts.

(** ** Rotation *)

Module RotationFacts.
Import Rotation.

Lemma handle_rotationTarget ev s : rotationTarget (handle ev s) = rotationTarget s.
Proof.
  destruct ev as [e | e | | ts | ts | | |]; cbn [handle].
  - unfold handleMouseDown. destruct (isTreeFormed s); reflexivity.
  - unfold handleMouseMove. destruct (isDragging s && isTreeFormed s); reflexivity.
  - reflexivity.
  - unfold handleTouchStart. destruct ts as [|t [|t' ts]]; try reflexivity.
    destruct (isTreeFormed s); reflexivity.
  - unfold handleTouchMove. destruct ts as [|t [|t' ts]]; try reflexivity.
    destruct (isDragging s && isTreeFormed s); reflexivity.
  - reflexivity.
  - reflexivity.
  - unfold animate_rotation. cbv zeta.
    destruct (Rgt_dec (pinchStrength s) 0.5); cbn [andb];
      destruct (negb (isDragging s)); cbn [treeGroupRef set_rotationCurrent];
      destruct (treeGroupRef s); reflexivity.
Qed.

Lemma run_rotationTarget evs : forall s, rotationTarget (run evs s) = rotationTarget s.
Proof.
  unfold run. induction evs as [|ev evs IH]; intros s; [reflexivity |].
  cbn [fold_left]. rewrite IH. apply handle_rotationTarget.
Qed.

(** C9 as stated fails.  During a drag a pointer move of 100 pixels to the
    right leaves the rotation target where it was, at the origin: the delta,
    scaled by 0.01, has gone into the current rotation.  After the next frame
    the rotation of the tree group is (0, 1), not the rotation target. *)
Lemma drag_does_not_move_target :
  let moved := handleMouseMove (100, 0) dragging in
  rotationTarget moved <> (fst (rotationTarget dragging),
                           snd (rotationTarget dragging) + (100 - 0) * 0.01) /\
  rotationTarget moved = (0, 0) /\
  rotationCurrent moved = (0 + (0 - 0) * 0.01, 0 + (100 - 0) * 0.01) /\
  treeGroupRef (animate_rotation moved) <> Some (rotationTarget (animate_rotation moved)).
Proof.
  cbv zeta. unfold handleMouseMove, dragging, animate_rotation. cbn.
  destruct (Rgt_dec 1 0.5) as [_|H]; [| lra]. cbn.
  repeat split.
  - intros E. injection E as E. lra.
  - intros E. injection E as E1 E2. lra.
Qed.

(** C9, amended.  The state holds a current and a target rotation, and no
    handler and no frame ever writes the target.  While a drag is active on a
    formed tree, a move adds the delta, scaled by 0.01, to the current
    rotation, with no easing, and records the pointer; otherwise a move does
    nothing.  A frame first advances the current [y] angle by 0.005 when the
    pinch strength is above 0.5 and no drag is active, then assigns the current
    rotation to the tree group: after every frame the live rotation equals the
    current rotation, with no smoothing lag. *)
Theorem rotation_is_driven_directly (s : State) (e : Pointer) (evs : list Event) :
  rotationTarget (run evs s) = rotationTarget s /\
  handleMouseMove e s =
    (if isDragging s && isTreeFormed s then
       set_lastMouse e
         (set_rotationCurrent
            (fst (rotationCurrent s) + (clientY e - snd (lastMouse s)) * 0.01,
             snd (rotationCurrent s) + (clientX e - fst (lastMouse s)) * 0.01) s)
     else s) /\
  rotationCurrent (animate_rotation s) =
    (if Rgt_dec (pinchStrength s) 0.5
     then if isDragging s then rotationCurrent s
          else (fst (rotationCurrent s), snd (rotationCurrent s) + 0.005)
     else rotationCurrent s) /\
  treeGroupRef (animate_rotation s) =
    match treeGroupRef s with
    | Some _ => Some (rotationCurrent (animate_rotation s))
    | None => None
    end /\
  handleTouchMove [e] s = handleMouseMove e s.
Proof.
  split; [apply run_rotationTarget |].
  destruct s as [ps formed tgt [cx cy] drag [mx my] g], e as [x y].
  split; [| split; [| split; [| reflexivity]]].
  - unfold handleMouseMove. cbn. destruct (drag && formed); reflexivity.
  - unfold animate_rotation. cbn.
    destruct (Rgt_dec ps 0.5); destruct drag; destruct g; reflexivity.
  - unfold animate_rotation. cbn.
    destruct (Rgt_dec ps 0.5); destruct drag; destruct g; reflexivity.
Qed.

End RotationFacts.

(** ** More about the mount effect *)

Lemma get_store_set_eq' (s : Store) (b : Buffer) (i : nat) (v : R) :
  (i < length (s b))%nat -> get (store_set s b i v b) i = v.
Proof. apply get_store_set_eq. Qed.

Section MountMore.
Variable mobile : bool.
Variable rng : nat -> R.

Ltac finish_init_full :=
  eexists; split; [reflexivity |];
  unfold particle, color_of, size_of, alpha_of; simpl_state;
  split; [ unfold vec3_at; simpl_gets; f_equal; apply pair3_eq; ring
  | split; [ eexists; split; [unfold vec3_at; simpl_gets; apply vec3_eta |];
             split; simpl_gets; reflexivity
    | split; [ intros j Hj; unfold vec3_at;
               repeat split; simpl_gets; reflexivity
      | split; [ unfold buffers_sized; simpl_state; rewrite !length_store_set; assumption
                 | simpl_state; lia ] ] ] ].

Lemma init_body_full i w :
  (i < PARTICLE_COUNT mobile)%nat ->
  buffers_sized (PARTICLE_COUNT mobile) w ->
  exists w',
    init_body mobile rng i w = (Ok tt, w') /\
    particle w' i = (exploded_target i, (0, 0, 0)) /\
    (exists d,
       color_of w' i = theme_color 0 (rng d) /\
       size_of w' i = 0.8 + rng (S d) * 0.6 /\
       alpha_of w' i = 0.7 + rng (S (S d)) * 0.3) /\
    (forall j, j <> i ->
       particle w' j = particle w j /\ color_of w' j = color_of w j /\
       size_of w' j = size_of w j /\ alpha_of w' j = alpha_of w j) /\
    buffers_sized (PARTICLE_COUNT mobile) w' /\
    (draws w + 7 <= draws w' <= draws w + 8)%nat.
Proof.
  intros Hi Hsz. pose proof Hsz as (HP & HV & HT & HE & HC & HS & HA).
  unfold init_body, exploded_target, theme_color.
  cbv beta iota zeta delta [vscale vx vy vz fst snd].
  run_step.
  match goal with |- context [Rgt_dec (rng (draws w)) ?b] =>
    destruct (Rgt_dec (rng (draws w)) b) as [Hf|Hf] end.
  - repeat run_step. rewrite write_run. finish_init_full.
  - repeat run_step. rewrite write_run. finish_init_full.
Qed.

Lemma init_loop_full n : forall lo w,
  (lo + n <= PARTICLE_COUNT mobile)%nat ->
  buffers_sized (PARTICLE_COUNT mobile) w ->
  exists w',
    for_loop n lo (init_body mobile rng) w = (Ok tt, w') /\
    (forall i, (lo <= i < lo + n)%nat ->
       particle w' i = (exploded_target i, (0, 0, 0)) /\
       exists d,
         color_of w' i = theme_color 0 (rng d) /\
         size_of w' i = 0.8 + rng (S d) * 0.6 /\
         alpha_of w' i = 0.7 + rng (S (S d)) * 0.3) /\
    (forall j, (j < lo \/ lo + n <= j)%nat ->
       particle w' j = particle w j /\ color_of w' j = color_of w j /\
       size_of w' j = size_of w j /\ alpha_of w' j = alpha_of w j) /\
    (draws w + 7 * n <= draws w' <= draws w + 8 * n)%nat.
Proof.
  induction n as [|n IH]; intros lo w Hn Hsz.
  - exists w. simpl. split; [reflexivity |]. split; [intros i Hi; lia |].
    split; [intros j _; repeat split; reflexivity | lia].
  - destruct (init_body_full lo w) as (w1 & E1 & Hp1 & Hc1 & Hoth1 & Hsz1 & Hd1);
      [lia | exact Hsz |].
    destruct (IH (S lo) w1) as (w' & E' & Hin & Hout & Hd'); [lia | exact Hsz1 |].
    exists w'. split.
    { simpl. unfold bind at 1. rewrite E1. exact E'. }
    split; [| split; [| lia]].
    + intros i Hi. destruct (decide (i = lo)) as [->|Hne].
      * destruct (Hout lo) as (Hp & Hc & Hs & Ha); [lia |].
        rewrite Hp, Hc, Hs, Ha. split; [exact Hp1 | exact Hc1].
      * apply Hin. lia.
    + intros j Hj. destruct (Hout j) as (Hp & Hc & Hs & Ha); [lia |].
      destruct (Hoth1 j) as (Hp' & Hc' & Hs' & Ha'); [lia |].
      repeat split; congruence.
Qed.

Lemma mount_full w :
  exists w',
    mount mobile rng w = (Ok tt, w') /\
    (forall i, (i < PARTICLE_COUNT mobile)%nat ->
       particle w' i = (exploded_target i, (0, 0, 0)) /\
       exists d,
         color_of w' i = theme_color 0 (rng d) /\
         size_of w' i = 0.8 + rng (S d) * 0.6 /\
         alpha_of w' i = 0.7 + rng (S (S d)) * 0.3) /\
    (draws w + 7 * PARTICLE_COUNT mobile <= draws w'
       <= draws w + 8 * PARTICLE_COUNT mobile)%nat.
Proof.
  destruct (init_loop_full (PARTICLE_COUNT mobile) 0
              (set_mem (blank_store (PARTICLE_COUNT mobile)) w))
    as (w1 & E1 & Hin & _ & Hd); [lia | apply buffers_sized_blank_store |].
  exists (set_particlesRef true w1). split.
  { unfold mount, bind. rewrite E1. reflexivity. }
  split; [| exact Hd].
  intros i Hi. apply Hin. lia.
Qed.

End MountMore.

Lemma noise3D_range x y z : 0 <= noise3D x y z < 1.
Proof.
  rewrite noise3D_frac.
  match goal with |- context [frac_part ?r] => destruct (base_fp r) as [H1 H2] end.
  lra.
Qed.

(** X1.  The hash [noise3D] takes its values in [0, 1), so after the mount
    effect every coordinate of every exploded target lies in [-30, 30): the
    scattered cloud fills a cube of side 60 around the origin. *)
Theorem exploded_target_in_cube (mobile : bool) (rng : nat -> R) (w : Particles) (i : nat) :
  (i < PARTICLE_COUNT mobile)%nat ->
  (forall x y z, 0 <= noise3D x y z < 1) /\
  -30 <= vx (vec3_at (mem (mounted mobile rng w) TargetExploded) i) < 30 /\
  -30 <= vy (vec3_at (mem (mounted mobile rng w) TargetExploded) i) < 30 /\
  -30 <= vz (vec3_at (mem (mounted mobile rng w) TargetExploded) i) < 30.
Proof.
  intros Hi.
  destruct (mount_run mobile rng w) as (w1 & E1 & H1 & _).
  unfold mounted, exec. rewrite E1. cbn [snd].
  destruct (H1 i Hi) as [_ ->]. unfold exploded_target, vscale, vx, vy, vz; cbn [fst snd].
  pose proof (noise3D_range (INR i) 0 0). pose proof (noise3D_range 0 (INR i) 0).
  pose proof (noise3D_range 0 0 (INR i)).
  split; [exact noise3D_range |]. lra.
Qed.

Lemma exploded_target_in_cube_witness :
  (forall x y z, 0 <= noise3D x y z < 1) /\
  -30 <= vx (vec3_at (mem (mounted false (fun _ => 0.5) (blank_particles false))
                        TargetExploded) 7) < 30 /\
  -30 <= vy (vec3_at (mem (mounted false (fun _ => 0.5) (blank_particles false))
                        TargetExploded) 7) < 30 /\
  -30 <= vz (vec3_at (mem (mounted false (fun _ => 0.5) (blank_particles false))
                        TargetExploded) 7) < 30.
Proof.
  apply (exploded_target_in_cube false (fun _ => 0.5) (blank_particles false) 7).
  unfold PARTICLE_COUNT. lia.
Defined.





(** ** The running component *)

Lemma changeTheme_sized mobile rng w :
  particlesRef w = true ->
  buffers_sized (PARTICLE_COUNT mobile) w ->
  exists w',
    changeTheme mobile rng w = (Ok tt, w') /\
    (forall b, b <> Colors -> mem w' b = mem w b) /\
    buffers_sized (PARTICLE_COUNT mobile) w' /\
    particlesRef w' = true.
Proof.
  intros Href Hsz. pose proof Hsz as (_ & _ & _ & _ & HC & _).
  set (newTheme := ((colorTheme w + 1) mod 3)%nat).
  assert (Ht : (newTheme < 3)%nat) by (apply Nat.mod_upper_bound; lia).
  destruct (changeTheme_loop_run rng newTheme (PARTICLE_COUNT mobile) 0
              (set_currentTheme (nth newTheme themeNames EmptyString)
                 (set_colorTheme newTheme w)) Ht)
    as (w' & E & _ & _ & Hfr & Hl & _ & _ & _ & Hp).
  { simpl. lia. }
  exists w'. split.
  { unfold changeTheme. fold newTheme. unfold bind.
    cbn [particlesRef set_colorTheme set_currentTheme]. rewrite Href. exact E. }
  split; [intros b Hb; rewrite Hfr by exact Hb; reflexivity |].
  split; [| rewrite Hp; exact Href].
  unfold buffers_sized. rewrite !Hl. exact Hsz.
Qed.

Lemma perform_all_run mobile rng l : forall w,
  particlesRef w = true ->
  buffers_sized (PARTICLE_COUNT mobile) w ->
  exists w',
    perform_all mobile rng l w = (Ok tt, w') /\
    mem w' TargetTree = mem w TargetTree /\
    mem w' TargetExploded = mem w TargetExploded /\
    buffers_sized (PARTICLE_COUNT mobile) w' /\
    particlesRef w' = true.
Proof.
  induction l as [|a l IH]; intros w Href Hsz.
  - exists w. split; [reflexivity |]. auto.
  - assert (exists w1, perform mobile rng a w = (Ok tt, w1) /\
              mem w1 TargetTree = mem w TargetTree /\
              mem w1 TargetExploded = mem w TargetExploded /\
              buffers_sized (PARTICLE_COUNT mobile) w1 /\ particlesRef w1 = true)
      as (w1 & E1 & Ht1 & He1 & Hsz1 & Href1).
    { destruct a as [pinch|]; cbn [perform].
      - destruct (animate_particles_run mobile rng pinch w Hsz) as (w1 & E & _ & Hfr & Hsz1 & _).
        destruct (animate_particles_steady mobile rng pinch w) as (a & w1' & E' & _ & _ & _ & Hp).
        assert (w1' = w1) as -> by congruence.
        exists w1. split; [exact E |]. split; [apply Hfr; discriminate |].
        split; [apply Hfr; discriminate |]. split; [exact Hsz1 |]. rewrite Hp. exact Href.
      - destruct (changeTheme_sized mobile rng w Href Hsz) as (w1 & E & Hfr & Hsz1 & Hp).
        exists w1. split; [exact E |]. split; [apply Hfr; discriminate |].
        split; [apply Hfr; discriminate |]. auto. }
    destruct (IH w1 Href1 Hsz1) as (w' & E' & Ht & He & Hsz' & Href').
    exists w'. split.
    { cbn [perform_all]. unfold bind at 1. rewrite E1. exact E'. }
    split; [congruence |]. split; [congruence |]. auto.
Qed.

(** X4.  Once mounted, the component keeps its arrays in shape: whatever
    frames and theme changes follow the mount effect, in any order and at any
    pinch strengths, every one of them returns, the seven arrays keep the
    lengths the mount effect gave them, and the tree targets and the exploded
    targets are the lists the mount effect wrote. *)
Theorem mounted_component_keeps_its_shape (mobile : bool) (rng : nat -> R) (w : Particles)
    (l : list Action) :
  exists w',
    (mount mobile rng ;; perform_all mobile rng l) w = (Ok tt, w') /\
    buffers_sized (PARTICLE_COUNT mobile) w' /\
    mem w' TargetTree = mem (mounted mobile rng w) TargetTree /\
    mem w' TargetExploded = mem (mounted mobile rng w) TargetExploded.
Proof.
  destruct (mount_run mobile rng w) as (w1 & E1 & _ & Hsz1 & Href1).
  destruct (perform_all_run mobile rng l w1 Href1 Hsz1) as (w' & E' & Ht & He & Hsz' & _).
  exists w'. unfold mounted, exec. rewrite E1. cbn [snd].
  split; [unfold bind; rewrite E1; exact E' |]. auto.
Qed.

(** X5.  A frame of the exploded branch draws exactly three random numbers
    for each particle; a frame of the tree branch draws none, and what it
    does to the particles does not depend on the random sequence. *)
Theorem frame_draws (mobile : bool) (rng rng' : nat -> R) (pinchStrength : R)
    (w : Particles) :
  buffers_sized (PARTICLE_COUNT mobile) w ->
  draws (exec (animate_particles mobile rng pinchStrength) w) =
    (if Rgt_dec pinchStrength 0.01 then draws w
     else draws w + 3 * PARTICLE_COUNT mobile)%nat /\
  (pinchStrength > 0.01 ->
   forall i, (i < PARTICLE_COUNT mobile)%nat ->
     particle (exec (animate_particles mobile rng' pinchStrength) w) i =
       particle (exec (animate_particles mobile rng pinchStrength) w) i).
Proof.
  intros Hsz.
  destruct (animate_particles_run mobile rng pinchStrength w Hsz) as (w1 & E1 & H1 & _ & _ & Hd1).
  destruct (animate_particles_run mobile rng' pinchStrength w Hsz) as (w2 & E2 & H2 & _).
  unfold exec. rewrite E1, E2. cbn [snd]. split.
  - rewrite Hd1. unfold draws_per_particle. destruct (Rgt_dec pinchStrength 0.01); lia.
  - intros Hp i Hi. rewrite H1, H2 by exact Hi.
    etransitivity; [apply integrate_tree_branch, Hp |].
    symmetry. apply integrate_tree_branch, Hp.
Qed.

Lemma frame_draws_witness :
  draws (exec (animate_particles false (fun _ => 0.5) 1) (blank_particles false)) =
    (if Rgt_dec 1 0.01 then draws (blank_particles false)
     else draws (blank_particles false) + 3 * PARTICLE_COUNT false)%nat /\
  (1 > 0.01 ->
   forall i, (i < PARTICLE_COUNT false)%nat ->
     particle (exec (animate_particles false (fun _ => 0.25) 1) (blank_particles false)) i =
       particle (exec (animate_particles false (fun _ => 0.5) 1) (blank_particles false)) i).
Proof.
  apply (frame_draws false (fun _ => 0.5) (fun _ => 0.25) 1 (blank_particles false)).
  apply buffers_sized_blank.
Defined.

(** *** Frames at a pinch strength held fixed *)

Lemma frames_run mobile rng pinch w n :
  buffers_sized (PARTICLE_COUNT mobile) w ->
  buffers_sized (PARTICLE_COUNT mobile) (frames mobile rng pinch n w) /\
  mem (frames mobile rng pinch n w) TargetTree = mem w TargetTree /\
  mem (frames mobile rng pinch n w) TargetExploded = mem w TargetExploded /\
  draws (frames mobile rng pinch n w) =
    (draws w + n * (PARTICLE_COUNT mobile * draws_per_particle pinch))%nat /\
  forall i, (i < PARTICLE_COUNT mobile)%nat ->
    particle (frames mobile rng pinch (S n) w) i =
      integrate pinch (vec3_at (mem w TargetTree) i) (vec3_at (mem w TargetExploded) i)
        (jitter_at rng (draws w + n * (PARTICLE_COUNT mobile * draws_per_particle pinch)
                        + i * draws_per_particle pinch))
        (fst (particle (frames mobile rng pinch n w) i))
        (snd (particle (frames mobile rng pinch n w) i)).
Proof.
  intros Hsz. induction n as [|n (IHsz & IHt & IHe & IHd & IHp)].
  - cbn [frames]. split; [exact Hsz |]. split; [reflexivity |]. split; [reflexivity |].
    split; [lia |]. intros i Hi. unfold exec.
    destruct (animate_particles_run mobile rng pinch w Hsz) as (w' & E & Hin & _).
    rewrite E. cbn [snd]. rewrite Hin by exact Hi.
    replace (draws w + 0 * _ + _)%nat
      with (draws w + i * draws_per_particle pinch)%nat by lia.
    reflexivity.
  - set (w1 := frames mobile rng pinch (S n) w) in *.
    assert (Hstep : frames mobile rng pinch (S (S n)) w =
                    exec (animate_particles mobile rng pinch) w1) by reflexivity.
    assert (H1 : frames mobile rng pinch (S n) w =
                 exec (animate_particles mobile rng pinch) (frames mobile rng pinch n w))
      by reflexivity.
    destruct (animate_particles_run mobile rng pinch _ IHsz) as (w' & E & _ & Hfr & Hsz' & Hd').
    assert (Hw1 : w1 = w').
    { unfold w1. rewrite H1. unfold exec. rewrite E. reflexivity. }
    assert (Hsz1 : buffers_sized (PARTICLE_COUNT mobile) w1) by (rewrite Hw1; exact Hsz').
    assert (Ht1 : mem w1 TargetTree = mem w TargetTree).
    { rewrite Hw1, Hfr by discriminate. exact IHt. }
    assert (He1 : mem w1 TargetExploded = mem w TargetExploded).
    { rewrite Hw1, Hfr by discriminate. exact IHe. }
    assert (Hd1 : draws w1 =
                  (draws w + S n * (PARTICLE_COUNT mobile * draws_per_particle pinch))%nat).
    { rewrite Hw1, Hd', IHd. lia. }
    split; [exact Hsz1 |]. split; [exact Ht1 |]. split; [exact He1 |]. split; [exact Hd1 |].
    intros i Hi. rewrite Hstep. unfold exec.
    destruct (animate_particles_run mobile rng pinch w1 Hsz1) as (w2 & E2 & Hin2 & _).
    rewrite E2. cbn [snd]. rewrite Hin2 by exact Hi.
    rewrite Ht1, He1, Hd1. reflexivity.
Qed.

Lemma vnorm_zero : vnorm (0, 0, 0) = 0.
Proof.
  apply vnorm_unique; [lra |]. unfold vdot, vx, vy, vz. cbn [fst snd]. ring.
Qed.

Lemma vsub_self a : vsub a a = (0, 0, 0).
Proof.
  destruct a as [[x y] z]. unfold vsub, vx, vy, vz. cbn [fst snd].
  apply pair3_eq; ring.
Qed.

(** X6.  A formed tree holds still: while the pinch strength stays above
    0.01, a particle that is within 0.01 of its tree target with zero velocity
    stays exactly where it is, frame after frame. *)
Theorem rest_on_tree_target_is_stable (mobile : bool) (rng : nat -> R) (pinchStrength : R)
    (w : Particles) (i n : nat) :
  buffers_sized (PARTICLE_COUNT mobile) w ->
  (i < PARTICLE_COUNT mobile)%nat ->
  pinchStrength > 0.01 ->
  tree_distance w i <= 0.01 ->
  vec3_at (mem w Velocities) i = (0, 0, 0) ->
  particle (frames mobile rng pinchStrength n w) i = particle w i.
Proof.
  intros Hsz Hi Hp Hd Hv. induction n as [|n IH]; [reflexivity |].
  destruct (frames_run mobile rng pinchStrength w n Hsz) as (_ & _ & _ & _ & Hstep).
  rewrite (Hstep i Hi), IH. unfold particle. cbn [fst snd]. rewrite Hv.
  unfold integrate, active_target. unfold tree_distance in Hd.
  destruct (Rgt_dec pinchStrength 0.01) as [_|H]; [| contradiction].
  destruct (Rgt_dec _ 0.01) as [H|_]; [lra |].
  destruct (vec3_at (mem w Positions) i) as [[x y] z].
  unfold vadd, vscale, vx, vy, vz. cbn [fst snd].
  f_equal; apply pair3_eq; ring.
Qed.

Lemma rest_on_tree_target_is_stable_witness :
  particle (frames false (fun _ => 0.5) 1 10 (blank_particles false)) 7 =
    particle (blank_particles false) 7.
Proof.
  apply (rest_on_tree_target_is_stable false (fun _ => 0.5) 1 (blank_particles false) 7 10).
  - apply buffers_sized_blank.
  - unfold PARTICLE_COUNT. lia.
  - lra.
  - unfold tree_distance, blank_particles, vec3_at. cbn [mem blank_store].
    rewrite !get_blank. rewrite vsub_self, vnorm_zero. lra.
  - unfold blank_particles, vec3_at. cbn [mem blank_store]. rewrite !get_blank. reflexivity.
Defined.



(** ** The exploded branch in the long run *)

Lemma vdot_lower a b : - (vnorm a * vnorm b) <= vdot a b.
Proof.
  pose proof (cauchy_schwarz (vscale (-1) a) b) as H.
  rewrite vnorm_vscale, Rabs_left in H by lra.
  replace (vdot (vscale (-1) a) b) with (- vdot a b) in H; [lra |].
  destruct a as [[a1 a2] a3], b as [[b1 b2] b3].
  unfold vdot, vscale, vx, vy, vz. cbn [fst snd]. ring.
Qed.

(** The jitter of draws in [0, 1) is shorter than 0.026. *)
Lemma jitter_norm rng d : (forall k, 0 <= rng k < 1) -> vnorm (jitter_at rng d) <= 0.026.
Proof.
  intros Hrng. apply le_of_sq; [lra |]. rewrite vnorm_sq.
  unfold jitter_at, jitter, vdot, vx, vy, vz. cbn [fst snd].
  pose proof (Hrng d). pose proof (Hrng (S d)). pose proof (Hrng (S (S d))). nra.
Qed.

Lemma exploded_step_eq e j p v :
  exploded_step e j (p, v) =
    let v1 := if Rgt_dec (vnorm (vsub e p)) 0.01
              then vadd v (vscale 0.25 (unit_toward p e)) else v in
    (vadd p (vscale 0.90 (vadd v1 j)), vscale 0.90 (vadd v1 j)).
Proof.
  unfold exploded_step, integrate, active_target, force_constant. cbn [fst snd].
  destruct (Rgt_dec 0 0.01) as [H|_]; [lra |]. reflexivity.
Qed.

Lemma exploded_speed_step e j s :
  vnorm j <= 0.026 -> speed (exploded_step e j s) <= 0.90 * (speed s + 0.276).
Proof.
  intros Hj. destruct s as [p v]. rewrite exploded_step_eq. cbv zeta. unfold speed. cbn [snd].
  rewrite vnorm_vscale, (Rabs_right 0.90) by lra.
  pose proof (vnorm_nonneg v) as Hv.
  apply Rmult_le_compat_l; [lra |].
  eapply Rle_trans; [apply vnorm_triangle |].
  destruct (Rgt_dec (vnorm (vsub e p)) 0.01) as [Hd|Hd].
  - pose proof (vnorm_triangle v (vscale 0.25 (unit_toward p e))) as Ht.
    rewrite vnorm_vscale, (Rabs_right 0.25) in Ht by lra.
    unfold unit_toward in Ht. rewrite vnorm_unit in Ht by lra.
    unfold unit_toward. lra.
  - lra.
Qed.

Lemma exploded_dist_step e j s :
  dist_to e (exploded_step e j s) <= dist_to e s + speed (exploded_step e j s).
Proof.
  destruct s as [p v]. rewrite exploded_step_eq. cbv zeta. unfold dist_to, speed. cbn [fst snd].
  rewrite vsub_vadd_r.
  eapply Rle_trans; [apply vnorm_triangle |].
  rewrite (vnorm_vscale (-1)). rewrite Rabs_left by lra. lra.
Qed.

Lemma exploded_drop_scalar (n n' b c vv s' vj uj jj : R) :
  2 <= n -> 0 <= n' -> 0 <= s' -> s' * s' = c ->
  n' * n' = n * n - 2 * b + c ->
  vj <= 0.026 * s' -> - 0.026 <= uj -> 0 <= jj ->
  vv = c / 0.81 - 5 / 9 * (b / n) + 0.0625 + jj - 20 / 9 * vj + 0.5 * uj ->
  c / 2 + 5 / 18 * n' <= vv / 2 + 5 / 18 * n - 0.015.
Proof.
  intros Hn Hn' Hs Hc Hsq Hvj Huj Hjj Hvv.
  set (x := b / n) in *. set (y := c / n).
  assert (Hx : b = x * n) by (unfold x; field; lra).
  assert (Hy : c = y * n) by (unfold y; field; lra).
  assert (Hc0 : 0 <= c) by nra.
  assert (Hy0 : 0 <= y) by (unfold y; apply Rmult_le_pos; [lra | left; apply Rinv_0_lt_compat; lra]).
  clearbody x y.
  assert (Hy1 : 2 * y <= c) by nra.
  assert (Hstep : n' <= n - x + y / 2).
  { assert (H2 : 2 * n * n' <= n * n + n' * n').
    { pose proof (Rle_0_sqr (n - n')) as Hq. unfold Rsqr in Hq. lra. }
    assert (H3 : n * n' <= n * (n - x + y / 2)) by nra.
    apply (Rmult_le_reg_l n); lra. }
  pose proof (Rle_0_sqr (s' - 0.302)) as Hq. unfold Rsqr in Hq.
  subst vv. lra.
Qed.

Lemma exploded_kinetic_identity (v1 v2 v3 u1 u2 u3 j1 j2 j3 : R) :
  u1 * u1 + u2 * u2 + u3 * u3 = 1 ->
  v1 * v1 + v2 * v2 + v3 * v3 =
    (0.90 * (v1 + 0.25 * u1 + j1) * (0.90 * (v1 + 0.25 * u1 + j1)) +
     0.90 * (v2 + 0.25 * u2 + j2) * (0.90 * (v2 + 0.25 * u2 + j2)) +
     0.90 * (v3 + 0.25 * u3 + j3) * (0.90 * (v3 + 0.25 * u3 + j3))) / 0.81
    - 5 / 9 * (0.90 * (v1 + 0.25 * u1 + j1) * u1 + 0.90 * (v2 + 0.25 * u2 + j2) * u2 +
               0.90 * (v3 + 0.25 * u3 + j3) * u3)
    + 0.0625 + (j1 * j1 + j2 * j2 + j3 * j3)
    - 20 / 9 * (0.90 * (v1 + 0.25 * u1 + j1) * j1 + 0.90 * (v2 + 0.25 * u2 + j2) * j2 +
                0.90 * (v3 + 0.25 * u3 + j3) * j3)
    + 0.5 * (u1 * j1 + u2 * j2 + u3 * j3).
Proof. intros H. nra. Qed.

Lemma exploded_energy_step_far e j s :
  vnorm j <= 0.026 -> 2 <= dist_to e s ->
  exploded_energy e (exploded_step e j s) <= exploded_energy e s - 0.015.
Proof.
  intros Hj. destruct s as [p v]. rewrite exploded_step_eq. cbv zeta.
  unfold exploded_energy, speed, dist_to. cbn [fst snd]. intros Hfar.
  destruct (Rgt_dec (vnorm (vsub e p)) 0.01) as [_|Hd]; [| lra].
  rewrite !vnorm_sq.
  set (u := unit_toward p e).
  set (v' := vscale 0.90 (vadd (vadd v (vscale 0.25 u)) j)).
  assert (Hu : vnorm u = 1) by (unfold u, unit_toward; apply vnorm_unit; lra).
  apply (exploded_drop_scalar _ _ (vdot v' (vsub e p)) (vdot v' v') (vdot v v)
           (vnorm v') (vdot v' j) (vdot u j) (vdot j j)).
  - exact Hfar.
  - apply vnorm_nonneg.
  - apply vnorm_nonneg.
  - apply vnorm_sq.
  - rewrite !vnorm_sq.
    destruct e as [[e1 e2] e3], p as [[p1 p2] p3], v' as [[w1 w2] w3].
    unfold vdot, vsub, vadd, vx, vy, vz. simpl. ring.
  - pose proof (cauchy_schwarz v' j) as Hcs. pose proof (vnorm_nonneg v') as H0.
    pose proof (vnorm_nonneg j) as H1. nra.
  - pose proof (vdot_lower u j) as Hl. rewrite Hu in Hl. lra.
  - apply vdot_self_nonneg.
  - unfold v', u, unit_toward. clear v' u Hu.
    pose proof (vnorm_sq (vsub e p)) as Hn.
    remember (vnorm (vsub e p)) as n eqn:En. clear En.
    assert (Hn0 : n <> 0) by lra.
    destruct e as [[e1 e2] e3], p as [[p1 p2] p3], v as [[v1 v2] v3], j as [[j1 j2] j3].
    unfold vdot, vsub, vadd, vscale, vx, vy, vz in *. cbn [fst snd] in *.
    rewrite (exploded_kinetic_identity v1 v2 v3
               (/ n * (e1 - p1)) (/ n * (e2 - p2)) (/ n * (e3 - p3)) j1 j2 j3).
    + field. lra.
    + replace (/ n * (e1 - p1) * (/ n * (e1 - p1)) + / n * (e2 - p2) * (/ n * (e2 - p2)) +
               / n * (e3 - p3) * (/ n * (e3 - p3)))
        with (/ n * / n *
              ((e1 - p1) * (e1 - p1) + (e2 - p2) * (e2 - p2) + (e3 - p3) * (e3 - p3))) by ring.
      rewrite <- Hn. field. exact Hn0.
Qed.

Section Orbit.
Variable e : vec3.
Variable js : nat -> vec3.
Hypothesis js_short : forall n, vnorm (js n) <= 0.026.

Lemma exploded_speed_decay s n :
  speed (exploded_orbit e js n s) <= 2.484 + 0.90 ^ n * Rmax 0 (speed s - 2.484).
Proof.
  induction n as [|n IH].
  - simpl. pose proof (Rmax_r 0 (speed s - 2.484)). lra.
  - cbn [exploded_orbit].
    pose proof (exploded_speed_step e (js n) (exploded_orbit e js n s) (js_short n)) as H.
    simpl pow. rewrite Rmult_assoc.
    set (a := 0.90 ^ n * Rmax 0 (speed s - 2.484)) in *. lra.
Qed.

Lemma exploded_speed_eventually s :
  exists N, forall n, (N <= n)%nat -> speed (exploded_orbit e js n s) <= 2.49.
Proof.
  set (c := Rmax 0 (speed s - 2.484)).
  assert (Hc : 0 <= c) by apply Rmax_l.
  destruct (pow_lt_1_zero 0.90) with (y := 0.006 / (c + 1)) as [N HN].
  - rewrite Rabs_right; lra.
  - apply Rdiv_lt_0_compat; lra.
  - exists N. intros n Hn. pose proof (exploded_speed_decay s n) as Hd. fold c in Hd.
    specialize (HN n ltac:(lia)).
    rewrite Rabs_right in HN by (apply Rle_ge, pow_le; lra).
    assert (0.90 ^ n * c <= 0.006); [| lra].
    assert (Hq : 0.006 / (c + 1) * c <= 0.006).
    { unfold Rdiv. rewrite Rmult_assoc.
      assert (/ (c + 1) * c <= 1); [| nra].
      apply (Rmult_le_reg_l (c + 1)); [lra |]. field_simplify; lra. }
    assert (0 <= 0.90 ^ n) by (apply pow_le; lra). nra.
Qed.

Lemma scattered_near j s :
  vnorm j <= 0.026 -> speed s <= 2.49 -> ~ 2 <= dist_to e s ->
  scattered e (exploded_step e j s).
Proof.
  intros Hj Hs Hnear.
  pose proof (exploded_speed_step e j s Hj) as Hs'.
  pose proof (exploded_dist_step e j s) as Hd.
  pose proof (speed_nonneg (exploded_step e j s)) as H0.
  split; [lra |]. unfold exploded_energy. nra.
Qed.

Lemma scattered_invariant j s :
  vnorm j <= 0.026 -> scattered e s -> scattered e (exploded_step e j s).
Proof.
  intros Hj [Hs He].
  destruct (Rle_dec 2 (dist_to e s)) as [Hfar|Hnear].
  - pose proof (exploded_energy_step_far e j s Hj Hfar).
    pose proof (exploded_speed_step e j s Hj). split; lra.
  - apply scattered_near; assumption.
Qed.

Lemma scattered_forever s m n :
  (m <= n)%nat -> scattered e (exploded_orbit e js m s) -> scattered e (exploded_orbit e js n s).
Proof.
  intros Hmn H. induction Hmn as [|n Hmn IH]; [exact H |].
  cbn [exploded_orbit]. apply scattered_invariant; [apply js_short | exact IH].
Qed.

Lemma scattered_reach s N : forall (k : nat) n,
  (forall m, (N <= m)%nat -> speed (exploded_orbit e js m s) <= 2.49) ->
  (N <= n)%nat ->
  exploded_energy e (exploded_orbit e js n s) <=
    2.49 * 2.49 / 2 + 5 / 18 * (2 + 2.49) + 0.015 * INR k ->
  exists m, scattered e (exploded_orbit e js m s).
Proof.
  induction k as [|k IH]; intros n Hsp Hn He.
  - exists n. simpl in He. split; [apply Hsp, Hn | lra].
  - destruct (Rle_dec 2 (dist_to e (exploded_orbit e js n s))) as [Hfar|Hnear].
    + apply (IH (S n) Hsp); [lia |]. cbn [exploded_orbit].
      pose proof (exploded_energy_step_far e (js n) _ (js_short n) Hfar).
      rewrite S_INR in He. lra.
    + exists (S n). cbn [exploded_orbit].
      apply scattered_near; [apply js_short | apply Hsp, Hn | exact Hnear].
Qed.

(** From every state the particle ends up, and stays, in the scattered region. *)
Lemma eventually_scattered s :
  exists N, forall n, (N <= n)%nat -> scattered e (exploded_orbit e js n s).
Proof.
  destruct (exploded_speed_eventually s) as [N1 HN1].
  destruct (INR_unbounded ((exploded_energy e (exploded_orbit e js N1 s)) / 0.015)) as [k Hk].
  destruct (scattered_reach s N1 k N1 HN1) as [m Hm]; [lia | |].
  - assert (exploded_energy e (exploded_orbit e js N1 s) < 0.015 * INR k); [| lra].
    apply (Rmult_lt_reg_l (/ 0.015)); [lra |]. lra.
  - exists m. intros n Hn. apply (scattered_forever s m n Hn Hm).
Qed.

End Orbit.

Lemma scattered_close e s : scattered e s -> dist_to e s <= 16.
Proof.
  intros [Hs He]. unfold exploded_energy in He.
  pose proof (speed_nonneg s). nra.
Qed.

(** *** From the pure step back to the frames of the code *)

Lemma integrate_exploded_branch pinch t e j p v :
  pinch <= 0.01 -> integrate pinch t e j p v = integrate 0 e e j p v.
Proof.
  intros H. unfold integrate, active_target, force_constant.
  destruct (Rgt_dec pinch 0.01) as [H1|_]; [lra |].
  destruct (Rgt_dec 0 0.01) as [H1|_]; [lra |]. reflexivity.
Qed.

Lemma frames_exploded_branch mobile rng pinch w i n :
  buffers_sized (PARTICLE_COUNT mobile) w ->
  (i < PARTICLE_COUNT mobile)%nat ->
  pinch <= 0.01 ->
  mem (frames mobile rng pinch n w) TargetExploded = mem w TargetExploded /\
  particle (frames mobile rng pinch n w) i =
    exploded_orbit (vec3_at (mem w TargetExploded) i) (frame_jitter mobile rng w i) n
      (particle w i).
Proof.
  intros Hsz Hi Hp.
  split; [apply (frames_run mobile rng pinch w n Hsz) |].
  induction n as [|n IH]; [reflexivity |].
  destruct (frames_run mobile rng pinch w n Hsz) as (_ & _ & _ & _ & Hstep).
  rewrite (Hstep i Hi), IH. cbn [exploded_orbit]. unfold exploded_step, frame_jitter.
  rewrite integrate_exploded_branch by exact Hp.
  unfold draws_per_particle. destruct (Rgt_dec pinch 0.01) as [H1|_]; [lra |]. reflexivity.
Qed.

Lemma exploded_distance_particle w i :
  exploded_distance w i = dist_to (vec3_at (mem w TargetExploded) i) (particle w i).
Proof. reflexivity. Qed.

(** X8.  The scattered cloud stays together.  With the pinch strength held
    at or below 0.01 and the random numbers in [0, 1), every frame contracts
    the speed of particle [i] toward the terminal speed 2.484, and after
    enough frames the speed stays at most 2.49 and the distance to the exploded
    target stays at most 16, whatever the jitter does. *)
Theorem exploded_branch_ultimately_bounded (mobile : bool) (rng : nat -> R)
    (pinchStrength : R) (w : Particles) (i : nat) :
  buffers_sized (PARTICLE_COUNT mobile) w ->
  (i < PARTICLE_COUNT mobile)%nat ->
  pinchStrength <= 0.01 ->
  (forall k, 0 <= rng k < 1) ->
  (forall n,
     speed_of (frames mobile rng pinchStrength (S n) w) i <=
       0.90 * (speed_of (frames mobile rng pinchStrength n w) i + 0.276)) /\
  exists N, forall n, (N <= n)%nat ->
    speed_of (frames mobile rng pinchStrength n w) i <= 2.49 /\
    exploded_distance (frames mobile rng pinchStrength n w) i <= 16.
Proof.
  intros Hsz Hi Hp Hrng.
  assert (Hjs : forall n, vnorm (frame_jitter mobile rng w i n) <= 0.026).
  { intros n. apply jitter_norm, Hrng. }
  split.
  - intros n. rewrite !speed_of_particle.
    destruct (frames_exploded_branch mobile rng pinchStrength w i (S n) Hsz Hi Hp) as [_ ->].
    destruct (frames_exploded_branch mobile rng pinchStrength w i n Hsz Hi Hp) as [_ ->].
    cbn [exploded_orbit]. apply exploded_speed_step, Hjs.
  - destruct (eventually_scattered (vec3_at (mem w TargetExploded) i)
                (frame_jitter mobile rng w i) Hjs (particle w i)) as [N HN].
    exists N. intros n Hn.
    destruct (frames_exploded_branch mobile rng pinchStrength w i n Hsz Hi Hp) as [He Hpart].
    rewrite speed_of_particle, exploded_distance_particle, He, Hpart.
    specialize (HN n Hn). split; [apply HN | apply scattered_close, HN].
Qed.

Lemma exploded_branch_ultimately_bounded_witness :
  (forall n,
     speed_of (frames false (fun _ => 0.5) 0 (S n) (blank_particles false)) 7 <=
       0.90 * (speed_of (frames false (fun _ => 0.5) 0 n (blank_particles false)) 7 + 0.276)) /\
  exists N, forall n, (N <= n)%nat ->
    speed_of (frames false (fun _ => 0.5) 0 n (blank_particles false)) 7 <= 2.49 /\
    exploded_distance (frames false (fun _ => 0.5) 0 n (blank_particles false)) 7 <= 16.
Proof.
  apply (exploded_branch_ultimately_bounded false (fun _ => 0.5) 0 (blank_particles false) 7).
  - apply buffers_sized_blank.
  - unfold PARTICLE_COUNT. lia.
  - lra.
  - intros k. lra.
Defined.

(** ** More about the theme change *)

Section ThemeFrame.
Variable mobile : bool.
Variable rng : nat -> R.

Lemma changeTheme_body_frame newTheme i w :
  exists w',
    changeTheme_body rng newTheme i w = (Ok tt, w') /\
    (forall b, b <> Colors -> mem w' b = mem w b) /\
    (forall b, length (mem w' b) = length (mem w b)) /\
    draws w' = S (draws w) /\
    colorTheme w' = colorTheme w /\ currentTheme w' = currentTheme w /\
    particlesRef w' = particlesRef w.
Proof.
  unfold changeTheme_body. cbv zeta.
  rewrite run_random. rewrite !run_write. rewrite write_run.
  eexists. split; [reflexivity |]. simpl_state.
  split; [intros b Hb; rewrite !store_set_other by congruence; reflexivity |].
  split; [intros b; rewrite !length_store_set; reflexivity |].
  repeat split.
Qed.

Lemma changeTheme_loop_frame newTheme n : forall lo w,
  exists w',
    for_loop n lo (changeTheme_body rng newTheme) w = (Ok tt, w') /\
    (forall b, b <> Colors -> mem w' b = mem w b) /\
    (forall b, length (mem w' b) = length (mem w b)) /\
    draws w' = (draws w + n)%nat /\
    colorTheme w' = colorTheme w /\ currentTheme w' = currentTheme w /\
    particlesRef w' = particlesRef w.
Proof.
  induction n as [|n IH]; intros lo w.
  - exists w. simpl. repeat split; try reflexivity; lia.
  - destruct (changeTheme_body_frame newTheme lo w) as
      (w1 & E1 & Hfr & Hl & Hdr & Hc1 & Hc2 & Hc3).
    destruct (IH (S lo) w1) as (w' & E' & Hfr' & Hl' & Hdr' & Hc1' & Hc2' & Hc3').
    exists w'. split.
    { simpl. unfold bind at 1. rewrite E1. exact E'. }
    split; [intros b Hb; rewrite Hfr' by exact Hb; apply Hfr, Hb |].
    split; [intros b; rewrite Hl'; apply Hl |].
    repeat split; try congruence. rewrite Hdr', Hdr. lia.
Qed.

Lemma changeTheme_frame w :
  exists w',
    changeTheme mobile rng w = (Ok tt, w') /\
    colorTheme w' = ((colorTheme w + 1) mod 3)%nat /\
    currentTheme w' = nth (colorTheme w') themeNames EmptyString /\
    (forall b, b <> Colors -> mem w' b = mem w b) /\
    (forall b, length (mem w' b) = length (mem w b)) /\
    draws w' = (if particlesRef w then draws w + PARTICLE_COUNT mobile else draws w)%nat /\
    particlesRef w' = particlesRef w /\
    (particlesRef w = false -> mem w' = mem w).
Proof.
  set (newTheme := ((colorTheme w + 1) mod 3)%nat).
  set (w0 := set_currentTheme (nth newTheme themeNames EmptyString) (set_colorTheme newTheme w)).
  destruct (particlesRef w) eqn:Href.
  - destruct (changeTheme_loop_frame newTheme (PARTICLE_COUNT mobile) 0 w0)
      as (w' & E & Hfr & Hl & Hdr & Hc1 & Hc2 & Hc3).
    exists w'. split.
    { unfold changeTheme. fold newTheme. unfold bind.
      cbn [particlesRef set_colorTheme set_currentTheme]. rewrite Href. exact E. }
    split; [rewrite Hc1; reflexivity |].
    split; [rewrite Hc2, Hc1; reflexivity |].
    split; [exact Hfr |]. split; [exact Hl |]. split; [exact Hdr |].
    split; [rewrite Hc3; exact Href | discriminate].
  - exists w0. split.
    { unfold changeTheme. fold newTheme. unfold bind.
      cbn [particlesRef set_colorTheme set_currentTheme]. rewrite Href. reflexivity. }
    split; [reflexivity |]. split; [reflexivity |].
    split; [intros; reflexivity |]. split; [intros; reflexivity |].
    split; [reflexivity |]. split; [exact Href |]. intros _. reflexivity.
Qed.

End ThemeFrame.

(** X9.  A theme change returns from every world and touches the colours
    only: every other array is the same list afterwards, the colour array
    keeps its length, exactly one random number is drawn for each particle,
    and the label shown is the name of the new theme.  When the particle set
    is not there, no array is written and nothing is drawn: the theme index
    and the label change alone. *)
Theorem theme_change_touches_colors_only (mobile : bool) (rng : nat -> R) (w : Particles) :
  returns (changeTheme mobile rng) w /\
  (forall b, b <> Colors ->
     mem (exec (changeTheme mobile rng) w) b = mem w b) /\
  length (mem (exec (changeTheme mobile rng) w) Colors) = length (mem w Colors) /\
  draws (exec (changeTheme mobile rng) w) =
    (if particlesRef w then draws w + PARTICLE_COUNT mobile else draws w)%nat /\
  currentTheme (exec (changeTheme mobile rng) w) =
    nth (colorTheme (exec (changeTheme mobile rng) w)) themeNames EmptyString /\
  (particlesRef w = false -> mem (exec (changeTheme mobile rng) w) = mem w).
Proof.
  destruct (changeTheme_frame mobile rng w) as (w' & E & _ & Hn & Hfr & Hl & Hd & _ & Hoff).
  unfold returns, exec. rewrite E. cbn [fst snd].
  split; [eexists; reflexivity |]. auto.
Qed.

(** X10.  The theme button cycles through three themes: for a theme index
    below 3, one press and two presses lead to indices different from the
    first and from each other, and three presses lead back to the first index
    and to its label. *)
Theorem three_theme_changes_cycle (mobile : bool) (rng : nat -> R) (w : Particles) :
  (colorTheme w < 3)%nat ->
  colorTheme (exec (changeTheme mobile rng) w) <> colorTheme w /\
  colorTheme (exec (changeTheme mobile rng) (exec (changeTheme mobile rng) w)) <> colorTheme w /\
  colorTheme (exec (changeTheme mobile rng) (exec (changeTheme mobile rng) w)) <>
    colorTheme (exec (changeTheme mobile rng) w) /\
  colorTheme (exec (changeTheme mobile rng)
                (exec (changeTheme mobile rng) (exec (changeTheme mobile rng) w))) =
    colorTheme w /\
  currentTheme (exec (changeTheme mobile rng)
                  (exec (changeTheme mobile rng) (exec (changeTheme mobile rng) w))) =
    nth (colorTheme w) themeNames EmptyString.
Proof.
  intros Hlt.
  destruct (changeTheme_frame mobile rng w) as (w1 & E1 & Hc1 & _).
  destruct (changeTheme_frame mobile rng w1) as (w2 & E2 & Hc2 & _).
  destruct (changeTheme_frame mobile rng w2) as (w3 & E3 & Hc3 & Hn3 & _).
  unfold exec. rewrite E1. cbn [snd]. rewrite E2. cbn [snd]. rewrite E3. cbn [snd].
  rewrite Hn3, Hc3, Hc2, Hc1.
  destruct (colorTheme w) as [|[|[|t]]]; try lia; cbn; repeat split; try lia.
Qed.

Lemma three_theme_changes_cycle_witness :
  colorTheme (exec (changeTheme false four_draws) (themed_particles false 1)) <>
    colorTheme (themed_particles false 1) /\
  colorTheme (exec (changeTheme false four_draws)
                (exec (changeTheme false four_draws) (themed_particles false 1))) <>
    colorTheme (themed_particles false 1) /\
  colorTheme (exec (changeTheme false four_draws)
                (exec (changeTheme false four_draws) (themed_particles false 1))) <>
    colorTheme (exec (changeTheme false four_draws) (themed_particles false 1)) /\
  colorTheme (exec (changeTheme false four_draws)
                (exec (changeTheme false four_draws)
                   (exec (changeTheme false four_draws) (themed_particles false 1)))) =
    colorTheme (themed_particles false 1) /\
  currentTheme (exec (changeTheme false four_draws)
                  (exec (changeTheme false four_draws)
                     (exec (changeTheme false four_draws) (themed_particles false 1)))) =
    nth (colorTheme (themed_particles false 1)) themeNames EmptyString.
Proof.
  apply (three_theme_changes_cycle false four_draws (themed_particles false 1)).
  unfold themed_particles. cbn [colorTheme set_colorTheme]. lia.
Defined.

(** ** Gestures *)

Module Gestures.
Import Rotation.

Lemma run_cons ev evs s : run (ev :: evs) s = run evs (handle ev s).
Proof. reflexivity. Qed.

Lemma last_cons_default {A} (path : list A) : forall e d,
  List.last (e :: path) d = List.last path e.
Proof.
  induction path as [|e' path IH]; intros e d; [reflexivity |].
  change (List.last (e :: e' :: path) d) with (List.last (e' :: path) d).
  rewrite (IH e' d), (IH e' e). reflexivity.
Qed.

Lemma moves_run path : forall s,
  isDragging s = true -> isTreeFormed s = true ->
  rotationCurrent (run (map MouseMove path) s) =
    (fst (rotationCurrent s) + (clientY (List.last path (lastMouse s)) - snd (lastMouse s)) * 0.01,
     snd (rotationCurrent s) + (clientX (List.last path (lastMouse s)) - fst (lastMouse s)) * 0.01) /\
  lastMouse (run (map MouseMove path) s) = List.last path (lastMouse s) /\
  isDragging (run (map MouseMove path) s) = true /\
  isTreeFormed (run (map MouseMove path) s) = true.
Proof.
  induction path as [|e path IH]; intros s Hd Hf.
  - cbn. destruct (rotationCurrent s) as [x y], (lastMouse s) as [mx my].
    unfold clientX, clientY. cbn. repeat split; try assumption. f_equal; ring.
  - cbn [map]. rewrite run_cons. cbn [handle].
    assert (E : handleMouseMove e s =
                set_lastMouse e
                  (set_rotationCurrent
                     (fst (rotationCurrent s) + (clientY e - snd (lastMouse s)) * 0.01,
                      snd (rotationCurrent s) + (clientX e - fst (lastMouse s)) * 0.01) s)).
    { unfold handleMouseMove. rewrite Hd, Hf. destruct e as [x y]. reflexivity. }
    rewrite E. clear E.
    match goal with |- context [run _ ?s1] =>
      destruct (IH s1) as (Hr & Hl & Hd' & Hf'); [exact Hd | exact Hf |] end.
    rewrite Hr, Hl. cbn [lastMouse set_lastMouse rotationCurrent set_rotationCurrent fst snd].
    rewrite last_cons_default. repeat split; try assumption.
    destruct e as [x y], (List.last path (x, y)) as [lx ly]. unfold clientX, clientY. cbn.
    f_equal; ring.
Qed.

Lemma touch_drag_as_mouse_drag e0 path s :
  run (touch_drag e0 path) s = run (mouse_drag e0 path) s.
Proof.
  unfold touch_drag, mouse_drag. rewrite !run_cons.
  change (handle (TouchStart [e0]) s) with (handle (MouseDown e0) s).
  generalize (handle (MouseDown e0) s). clear s.
  induction path as [|e path IH]; intros s; [reflexivity |].
  cbn [map]. rewrite !run_cons. apply IH.
Qed.

(** X11.  On a formed tree a drag is independent of its path: when the
    button goes down at [e0] and the pointer then visits any points, the
    rotation has changed by 0.01 times the offset of the last point from [e0],
    the horizontal offset going to the [y] angle and the vertical one to the
    [x] angle; a pointer back at [e0] leaves the rotation where it was.  A
    drag with one finger does exactly the same. *)
Theorem drag_is_path_independent (s : State) (e0 : Pointer) (path : list Pointer) :
  isTreeFormed s = true ->
  rotationCurrent (run (mouse_drag e0 path) s) =
    (fst (rotationCurrent s) + (clientY (List.last path e0) - clientY e0) * 0.01,
     snd (rotationCurrent s) + (clientX (List.last path e0) - clientX e0) * 0.01) /\
  isDragging (run (mouse_drag e0 path) s) = true /\
  (List.last path e0 = e0 ->
   rotationCurrent (run (mouse_drag e0 path) s) = rotationCurrent s) /\
  run (touch_drag e0 path) s = run (mouse_drag e0 path) s.
Proof.
  intros Hf.
  assert (E : handle (MouseDown e0) s = set_lastMouse e0 (set_isDragging true s)).
  { cbn [handle]. unfold handleMouseDown. rewrite Hf. destruct e0; reflexivity. }
  destruct (moves_run path (set_lastMouse e0 (set_isDragging true s)))
    as (Hr & _ & Hd & _); [reflexivity | exact Hf |].
  cbn [lastMouse set_lastMouse rotationCurrent set_isDragging] in Hr.
  unfold mouse_drag at 1 2 3. rewrite !run_cons, E.
  split; [exact Hr |]. split; [exact Hd |]. split; [| apply touch_drag_as_mouse_drag].
  intros Hback. rewrite Hr, Hback.
  destruct (rotationCurrent s) as [x y], e0 as [a b]. unfold clientX, clientY. cbn.
  f_equal; ring.
Qed.

Lemma drag_is_path_independent_witness :
  rotationCurrent (run (mouse_drag (0, 0) [(30, 40); (100, 0)]) dragging) =
    (fst (rotationCurrent dragging) +
       (clientY (List.last [(30, 40); (100, 0)] (0, 0)) - clientY (0, 0)) * 0.01,
     snd (rotationCurrent dragging) +
       (clientX (List.last [(30, 40); (100, 0)] (0, 0)) - clientX (0, 0)) * 0.01) /\
  isDragging (run (mouse_drag (0, 0) [(30, 40); (100, 0)]) dragging) = true /\
  (List.last [(30, 40); (100, 0)] (0, 0) = (0, 0) ->
   rotationCurrent (run (mouse_drag (0, 0) [(30, 40); (100, 0)]) dragging) =
     rotationCurrent dragging) /\
  run (touch_drag (0, 0) [(30, 40); (100, 0)]) dragging =
    run (mouse_drag (0, 0) [(30, 40); (100, 0)]) dragging.
Proof.
  apply (drag_is_path_independent dragging (0, 0) [(30, 40); (100, 0)]).
  reflexivity.
Defined.

Lemma pointer_event_unformed ev s :
  pointer_event ev = true -> isTreeFormed s = false ->
  rotationCurrent (handle ev s) = rotationCurrent s /\
  isTreeFormed (handle ev s) = false /\
  lastMouse (handle ev s) = lastMouse s /\
  treeGroupRef (handle ev s) = treeGroupRef s /\
  (isDragging s = false -> isDragging (handle ev s) = false).
Proof.
  intros Hev Hf.
  destruct ev as [e | e | | ts | ts | | |]; cbn [handle]; try discriminate.
  - unfold handleMouseDown. rewrite Hf. auto.
  - unfold handleMouseMove. rewrite Hf, andb_false_r. auto.
  - unfold handleMouseUp. cbn. auto.
  - unfold handleTouchStart. destruct ts as [|t [|t' ts]]; rewrite ?Hf; auto.
  - unfold handleTouchMove. destruct ts as [|t [|t' ts]]; rewrite ?Hf, ?andb_false_r; auto.
  - unfold handleTouchEnd. cbn. auto.
Qed.

(** X12.  While the tree is not formed the pointer does nothing: whatever
    mouse and touch events arrive, the rotation, the rotation of the tree
    group and the recorded pointer stay as they are, and no drag begins. *)
Theorem unformed_tree_ignores_pointer (s : State) (evs : list Event) :
  isTreeFormed s = false ->
  forallb pointer_event evs = true ->
  rotationCurrent (run evs s) = rotationCurrent s /\
  treeGroupRef (run evs s) = treeGroupRef s /\
  lastMouse (run evs s) = lastMouse s /\
  (isDragging s = false -> isDragging (run evs s) = false).
Proof.
  revert s. induction evs as [|ev evs IH]; intros s Hf Hall; [cbn; auto |].
  cbn [forallb] in Hall. apply andb_prop in Hall as [Hev Hall].
  destruct (pointer_event_unformed ev s Hev Hf) as (Hr & Hf' & Hl & Hg & Hd).
  rewrite run_cons. destruct (IH (handle ev s) Hf' Hall) as (Hr' & Hg' & Hl' & Hd').
  split; [congruence |]. split; [congruence |]. split; [congruence |]. auto.
Qed.

Lemma unformed_tree_ignores_pointer_witness :
  rotationCurrent (run [MouseDown (5, 5); MouseMove (80, 20); TouchMove [(1, 2)]; MouseUp]
                     initial) = rotationCurrent initial /\
  treeGroupRef (run [MouseDown (5, 5); MouseMove (80, 20); TouchMove [(1, 2)]; MouseUp]
                  initial) = treeGroupRef initial /\
  lastMouse (run [MouseDown (5, 5); MouseMove (80, 20); TouchMove [(1, 2)]; MouseUp]
               initial) = lastMouse initial /\
  (isDragging initial = false ->
   isDragging (run [MouseDown (5, 5); MouseMove (80, 20); TouchMove [(1, 2)]; MouseUp]
                 initial) = false).
Proof.
  apply (unformed_tree_ignores_pointer initial
           [MouseDown (5, 5); MouseMove (80, 20); TouchMove [(1, 2)]; MouseUp]).
  - reflexivity.
  - reflexivity.
Defined.

Lemma animate_rotation_step s :
  pinchStrength (animate_rotation s) = pinchStrength s /\
  isDragging (animate_rotation s) = isDragging s /\
  rotationCurrent (animate_rotation s) =
    (fst (rotationCurrent s),
     snd (rotationCurrent s) +
       (if Rgt_dec (pinchStrength s) 0.5
        then if isDragging s then 0 else 0.005
        else 0)).
Proof.
  destruct s as [ps formed tgt [cx cy] drag [mx my] g]. unfold animate_rotation. cbn.
  destruct (Rgt_dec ps 0.5); destruct drag; destruct g; cbn;
    repeat split; f_equal; ring.
Qed.

(** X13.  Left alone, a formed tree turns at a steady rate: [n] frames with
    the pinch strength above 0.5 and no drag active advance the [y] angle by
    0.005 times [n] and leave the [x] angle alone; with the pinch strength at
    most 0.5, or during a drag, frames do not turn the tree at all. *)
Theorem frames_turn_the_tree (s : State) (n : nat) :
  rotationCurrent (run (replicate n Frame) s) =
    (fst (rotationCurrent s),
     snd (rotationCurrent s) +
       (if Rgt_dec (pinchStrength s) 0.5
        then if isDragging s then 0 else 0.005 * INR n
        else 0)).
Proof.
  revert s. induction n as [|n IH]; intros s.
  - cbn. destruct (rotationCurrent s) as [x y]. cbn.
    destruct (Rgt_dec (pinchStrength s) 0.5); destruct (isDragging s); f_equal; ring.
  - cbn [replicate]. rewrite run_cons. cbn [handle]. rewrite IH.
    destruct (animate_rotation_step s) as (Hp & Hd & Hr).
    rewrite Hp, Hd, Hr. cbn [fst snd]. rewrite S_INR.
    destruct (Rgt_dec (pinchStrength s) 0.5); destruct (isDragging s); f_equal; ring.
Qed.

End Gestures.

(** ** The fireworks, frame by frame *)

Module Fireworks.
Import Effects.

Ltac list_gets :=
  repeat first
    [ rewrite get_set_eq by (rewrite ?length_set; lia)
    | rewrite get_set_ne by lia ].

Lemma whiten_in_range af c :
  af <= 1 -> in_unit_range c ->
  in_unit_range (if Rgt_dec af 0.5 then c * (1 - (af - 0.5) * 0.6) + (af - 0.5) * 0.6 else c).
Proof.
  unfold in_unit_range. intros Haf Hc. destruct (Rgt_dec af 0.5); [| exact Hc]. split; nra.
Qed.

Lemma animate_fw_particle_run af i (P V C : list R) :
  (i * 3 + 2 < length P)%nat -> (i * 3 + 2 < length V)%nat -> (i * 3 + 2 < length C)%nat ->
  exists P' V' C',
    animate_fw_particle af i (P, V, C) = (P', V', C') /\
    length P' = length P /\ length V' = length V /\ length C' = length C /\
    vec3_at P' i = vadd (vec3_at P i) (vec3_at V i) /\
    vec3_at V' i = fw_velocity_step (vec3_at V i) /\
    vec3_at C' i = fw_color_step af (vec3_at C i) /\
    (forall j, j <> i ->
       vec3_at P' j = vec3_at P j /\ vec3_at V' j = vec3_at V j /\
       vec3_at C' j = vec3_at C j) /\
    (af <= 1 -> Forall in_unit_range C -> Forall in_unit_range C').
Proof.
  intros HP HV HC. unfold animate_fw_particle. cbv zeta.
  eexists _, _, _. split; [reflexivity |].
  split; [rewrite !length_set; reflexivity |].
  split; [rewrite !length_set; reflexivity |].
  split; [destruct (Rgt_dec af 0.5); rewrite ?length_set; reflexivity |].
  split; [unfold vec3_at, vadd, vx, vy, vz; cbn [fst snd]; list_gets; reflexivity |].
  split; [unfold vec3_at, fw_velocity_step, vx, vy, vz; cbn [fst snd]; list_gets; reflexivity |].
  split.
  { unfold fw_color_step, vec3_at, vx, vy, vz. cbn [fst snd].
    destruct (Rgt_dec af 0.5); [list_gets |]; reflexivity. }
  split.
  { intros j Hj. unfold vec3_at. repeat split.
    - list_gets. reflexivity.
    - list_gets. reflexivity.
    - destruct (Rgt_dec af 0.5); [list_gets |]; reflexivity. }
  intros Haf HF. destruct (Rgt_dec af 0.5) as [Hgt|Hle]; [| exact HF].
  assert (Hw : forall c, in_unit_range c ->
                 in_unit_range (c * (1 - (af - 0.5) * 0.6) + (af - 0.5) * 0.6)).
  { intros c Hc. pose proof (whiten_in_range af c Haf Hc) as H.
    destruct (Rgt_dec af 0.5); [exact H | contradiction]. }
  assert (Hget : forall (l : list R) k, Forall in_unit_range l -> in_unit_range (get l k)).
  { intros l k Hl. unfold get. destruct (l !! k) as [y|] eqn:E; cbn.
    - exact (proj1 (Forall_lookup _ _) Hl k y E).
    - unfold in_unit_range. lra. }
  unfold set.
  repeat (apply Forall_insert; [| apply Hw, Hget]); try exact HF;
    repeat (apply Forall_insert; [| apply Hw, Hget]); exact HF.
Qed.

Lemma animate_fw_loop_run af n : forall lo (P V C : list R),
  ((lo + n) * 3 <= length P)%nat -> ((lo + n) * 3 <= length V)%nat ->
  ((lo + n) * 3 <= length C)%nat ->
  exists P' V' C',
    fold_left (fun b i => animate_fw_particle af i b) (seq lo n) (P, V, C) = (P', V', C') /\
    length P' = length P /\ length V' = length V /\ length C' = length C /\
    (forall i, (lo <= i < lo + n)%nat ->
       vec3_at P' i = vadd (vec3_at P i) (vec3_at V i) /\
       vec3_at V' i = fw_velocity_step (vec3_at V i) /\
       vec3_at C' i = fw_color_step af (vec3_at C i)) /\
    (forall j, (j < lo \/ lo + n <= j)%nat ->
       vec3_at P' j = vec3_at P j /\ vec3_at V' j = vec3_at V j /\
       vec3_at C' j = vec3_at C j) /\
    (af <= 1 -> Forall in_unit_range C -> Forall in_unit_range C').
Proof.
  induction n as [|n IH]; intros lo P V C HP HV HC.
  - exists P, V, C. cbn. split; [reflexivity |]. repeat split; try reflexivity; try lia.
    auto.
  - destruct (animate_fw_particle_run af lo P V C) as
      (P1 & V1 & C1 & E1 & LP1 & LV1 & LC1 & Hp1 & Hv1 & Hc1 & Hoth1 & Hr1); [lia | lia | lia |].
    destruct (IH (S lo) P1 V1 C1) as
      (P' & V' & C' & E' & LP' & LV' & LC' & Hin & Hout & Hr'); [lia | lia | lia |].
    exists P', V', C'. split; [cbn [seq fold_left]; rewrite E1; exact E' |].
    split; [congruence |]. split; [congruence |]. split; [congruence |].
    split; [| split].
    + intros i Hi. destruct (decide (i = lo)) as [->|Hne].
      * destruct (Hout lo) as (H1 & H2 & H3); [lia |]. rewrite H1, H2, H3. auto.
      * destruct (Hin i) as (H1 & H2 & H3); [lia |].
        destruct (Hoth1 i Hne) as (G1 & G2 & G3).
        rewrite H1, H2, H3, G1, G2, G3. auto.
    + intros j Hj. destruct (Hout j) as (H1 & H2 & H3); [lia |].
      destruct (Hoth1 j) as (G1 & G2 & G3); [lia |].
      rewrite H1, H2, H3. auto.
    + intros Haf HF. apply Hr'; [exact Haf |]. apply Hr1; assumption.
Qed.

(** X15.  A frame moves every particle of a live layer by its velocity;
    the velocity then loses 0.015 on the vertical axis and is scaled by 0.97;
    past half of the lifetime the colour is blended toward white, the more the
    older the layer, and colour channels that were within [0, 1] stay there. *)
Theorem firework_layer_frame (fw : Firework) (p : Points) (m : nat) :
  particles fw = Some p ->
  age fw + 0.016 <= lifetime fw ->
  length (fwPositions p) = (m * 3)%nat ->
  length (velocities fw) = (m * 3)%nat ->
  length (fwColors p) = (m * 3)%nat ->
  exists p',
    particles (animate_firework fw) = Some p' /\
    (forall i, (i < m)%nat ->
       vec3_at (fwPositions p') i =
         vadd (vec3_at (fwPositions p) i) (vec3_at (velocities fw) i) /\
       vec3_at (velocities (animate_firework fw)) i =
         fw_velocity_step (vec3_at (velocities fw) i) /\
       vec3_at (fwColors p') i =
         fw_color_step ((age fw + 0.016) / lifetime fw) (vec3_at (fwColors p) i)) /\
    (0 < lifetime fw -> Forall in_unit_range (fwColors p) ->
     Forall in_unit_range (fwColors p')).
Proof.
  intros Hp Hage HP HV HC.
  destruct (animate_fw_loop_run ((age fw + 0.016) / lifetime fw) m 0
              (fwPositions p) (velocities fw) (fwColors p))
    as (P' & V' & C' & E & _ & _ & _ & Hin & _ & Hr); [lia | lia | lia |].
  assert (Hn : ((length (fwPositions p) + 2) / 3)%nat = m).
  { rewrite HP. symmetry. apply (Nat.div_unique _ 3%nat m 2%nat); lia. }
  unfold animate_firework. cbv zeta.
  destruct (Rgt_dec (age fw + 0.016) (lifetime fw)) as [H|_]; [lra |].
  rewrite Hp, Hn, E. eexists. split; [reflexivity |].
  cbn [fwPositions fwColors Effects.velocities]. split.
  - intros i Hi. apply Hin. lia.
  - intros Hl HF. apply Hr; [| exact HF].
    apply (Rmult_le_reg_r (lifetime fw)); [exact Hl |].
    unfold Rdiv. rewrite Rmult_assoc, Rinv_l by lra. lra.
Qed.

Lemma firework_layer_frame_witness :
  exists p',
    particles (animate_firework (fresh_firework 200 0)) = Some p' /\
    (forall i, (i < 200)%nat ->
       vec3_at (fwPositions p') i =
         vadd (vec3_at (Float32Array (200 * 3)) i)
           (vec3_at (velocities (fresh_firework 200 0)) i) /\
       vec3_at (velocities (animate_firework (fresh_firework 200 0))) i =
         fw_velocity_step (vec3_at (velocities (fresh_firework 200 0)) i) /\
       vec3_at (fwColors p') i =
         fw_color_step ((age (fresh_firework 200 0) + 0.016) / lifetime (fresh_firework 200 0))
           (vec3_at (Float32Array (200 * 3)) i)) /\
    (0 < lifetime (fresh_firework 200 0) -> Forall in_unit_range (Float32Array (200 * 3)) ->
     Forall in_unit_range (fwColors p')).
Proof.
  apply (firework_layer_frame (fresh_firework 200 0)
           (mkPoints (Float32Array (200 * 3)) (Float32Array (200 * 3)) (Float32Array 200)
              0.8 1 true false) 200).
  - reflexivity.
  - unfold fresh_firework. cbn [age lifetime]. lra.
  - apply length_replicate.
  - apply length_replicate.
  - apply length_replicate.
Defined.

Lemma frame_firework_inactive fw : active fw = false -> frame_firework fw = fw.
Proof. intros H. unfold frame_firework. rewrite H. reflexivity. Qed.

Lemma animate_firework_age fw :
  age (animate_firework fw) = age fw + 0.016 /\
  lifetime (animate_firework fw) = lifetime fw /\
  layerIndex (animate_firework fw) = layerIndex fw /\
  (active (animate_firework fw) = true -> age fw + 0.016 <= lifetime fw).
Proof.
  unfold animate_firework. cbv zeta.
  destruct (Rgt_dec (age fw + 0.016) (lifetime fw)) as [H|H].
  - cbn. repeat split. discriminate.
  - destruct (particles fw) as [p|]; [destruct (fold_left _ _ _) as [[a b] c] |];
      cbn; repeat split; intros; lra.
Qed.

Lemma iter_animate_fireworks n s :
  fireworksRef (Nat.iter n animate_fireworks s) =
    map (Nat.iter n frame_firework) (fireworksRef s) /\
  draws (Nat.iter n animate_fireworks s) = draws s /\
  timers (Nat.iter n animate_fireworks s) = timers s /\
  snow_flags (Nat.iter n animate_fireworks s) = snow_flags s /\
  uncaught (Nat.iter n animate_fireworks s) = uncaught s.
Proof.
  induction n as [|n (IH1 & IH2 & IH3 & IH4 & IH5)].
  - cbn. rewrite map_id. auto.
  - rewrite Nat.iter_succ. unfold animate_fireworks at 1 3 5 7 9.
    cbn [fireworksRef set_fireworksRef draws timers uncaught].
    rewrite IH1, map_map. repeat split; assumption.
Qed.

Lemma iter_frame_firework_inactive n fw :
  active fw = false -> Nat.iter n frame_firework fw = fw.
Proof.
  intros H. induction n as [|n IH]; [reflexivity |].
  rewrite Nat.iter_succ, IH. apply frame_firework_inactive, H.
Qed.

Lemma iter_frame_firework_age n : forall fw,
  active (Nat.iter n frame_firework fw) = true ->
  active fw = true /\
  age (Nat.iter n frame_firework fw) = age fw + 0.016 * INR n /\
  lifetime (Nat.iter n frame_firework fw) = lifetime fw /\
  ((0 < n)%nat -> age (Nat.iter n frame_firework fw) <= lifetime fw).
Proof.
  induction n as [|n IH]; intros fw H.
  - cbn in *. split; [exact H |]. split; [lra |]. split; [reflexivity | lia].
  - rewrite Nat.iter_succ in *. set (f := Nat.iter n frame_firework fw) in *.
    destruct (active f) eqn:Hf.
    + destruct (IH fw Hf) as (Ha & Hage & Hl & _). fold f in Hage, Hl.
      unfold frame_firework in *. rewrite Hf in *.
      destruct (animate_firework_age f) as (Hage' & Hl' & _ & Hle).
      rewrite Hage', Hl', Hage, Hl, S_INR. split; [exact Ha |]. split; [lra |].
      split; [reflexivity |]. intros _. specialize (Hle H). lra.
    + rewrite (frame_firework_inactive f Hf) in H. congruence.
Qed.

(** X16.  No frame ever removes an entry of the list of fireworks, and no
    frame touches the timers, the snow flags or the random draws.  An entry
    that is no longer active stays exactly as it is, for ever; an entry that is
    still active after [n] frames was active all along, has aged by 0.016 a
    frame, and has not outlived its lifetime. *)
Theorem fireworks_are_never_removed (s : State) (n : nat) :
  length (fireworksRef (Nat.iter n animate_fireworks s)) = length (fireworksRef s) /\
  (forall i fw, fireworksRef s !! i = Some fw -> active fw = false ->
     fireworksRef (Nat.iter n animate_fireworks s) !! i = Some fw) /\
  (forall i fw', fireworksRef (Nat.iter n animate_fireworks s) !! i = Some fw' ->
     active fw' = true ->
     exists fw, fireworksRef s !! i = Some fw /\ active fw = true /\
                age fw' = age fw + 0.016 * INR n /\
                ((0 < n)%nat -> age fw' <= lifetime fw)) /\
  draws (Nat.iter n animate_fireworks s) = draws s /\
  timers (Nat.iter n animate_fireworks s) = timers s /\
  snow_flags (Nat.iter n animate_fireworks s) = snow_flags s.
Proof.
  destruct (iter_animate_fireworks n s) as (Hfw & Hd & Ht & Hs & _).
  rewrite Hfw. split; [apply length_map |]. split; [| split; [| auto]].
  - intros i fw Hi Hin. rewrite list_lookup_fmap, Hi. cbn.
    rewrite iter_frame_firework_inactive by exact Hin. reflexivity.
  - intros i fw' Hi Hact. rewrite list_lookup_fmap in Hi.
    destruct (fireworksRef s !! i) as [fw|] eqn:E; [| discriminate].
    cbn in Hi. injection Hi as <-.
    destruct (iter_frame_firework_age n fw Hact) as (Ha & Hage & _ & Hle).
    exists fw. auto.
Qed.

(** X17.  A fireworks trigger draws two random numbers for the origin of
    the burst, which lies between -10 and 10 across and between 10 and 20 up,
    at depth 0, and on a component with no pending timer it arms exactly three
    timers, due now, in 100 ms and in 200 ms, one for each layer, in the order
    of the layers: 200, 150 and 100 particles on a desktop and 60, 45 and 30 on
    a mobile device, all three at the same origin.  Nothing else changes. *)
Theorem launch_arms_three_timers (rng : nat -> R) (mobile : bool) (s : State) :
  (forall k, 0 <= rng k < 1) ->
  timers s = [] ->
  exists x y,
    -10 <= x < 10 /\ 10 <= y < 20 /\
    exec (launchFireworks rng mobile) s =
      set_timers
        [ (now s, SpawnLayer (x, y, 0) (mkLayer (if mobile then 60 else 200) 0.8 0.8 0) 0);
          (now s + 100,
           SpawnLayer (x, y, 0) (mkLayer (if mobile then 45 else 150) 0.5 0.6 0.1) 1);
          (now s + 200,
           SpawnLayer (x, y, 0) (mkLayer (if mobile then 30 else 100) 0.3 0.4 0.2) 2) ]
        (set_draws (draws s + 2) s).
Proof.
  intros Hrng Hq.
  exists ((rng (draws s) - 0.5) * 20), (10 + rng (S (draws s)) * 10).
  pose proof (Hrng (draws s)). pose proof (Hrng (S (draws s))).
  split; [lra |]. split; [lra |].
  rewrite (EffectsFacts.launchFireworks_exec rng mobile s Hq). cbv zeta.
  unfold layers. cbn [nth].
  replace (now s + 0 * 1000) with (now s) by ring.
  replace (now s + 0.1 * 1000) with (now s + 100) by lra.
  replace (now s + 0.2 * 1000) with (now s + 200) by lra.
  replace (S (S (draws s))) with (draws s + 2)%nat by lia.
  reflexivity.
Qed.

Lemma launch_arms_three_timers_witness :
  exists x y,
    -10 <= x < 10 /\ 10 <= y < 20 /\
    exec (launchFireworks (fun _ => 0.5) false) idle =
      set_timers
        [ (now idle, SpawnLayer (x, y, 0) (mkLayer (if false then 60 else 200) 0.8 0.8 0) 0);
          (now idle + 100,
           SpawnLayer (x, y, 0) (mkLayer (if false then 45 else 150) 0.5 0.6 0.1) 1);
          (now idle + 200,
           SpawnLayer (x, y, 0) (mkLayer (if false then 30 else 100) 0.3 0.4 0.2) 2) ]
        (set_draws (draws idle + 2) idle).
Proof.
  apply (launch_arms_three_timers (fun _ => 0.5) false idle).
  - intros k. lra.
  - reflexivity.
Defined.

Lemma layer_life_witness :
  active (fresh_firework 200 0) = true /\
  let fw' := Nat.iter 188 frame_firework (fresh_firework 200 0) in
  lifetime fw' = 3.0 /\
  ((188 <= 187)%nat ->
     age fw' = 0.016 * INR 188 /\ active fw' = true /\
     exists p', particles fw' = Some p' /\ inScene p' = true /\
                opacity p' = fade (age fw' / 3.0) /\ 0 < opacity p') /\
  ((188 <= 188)%nat ->
     active fw' = false /\
     exists p', particles fw' = Some p' /\ inScene p' = false /\ disposed p' = true).
Proof.
  split; [reflexivity |].
  apply (EffectsFacts.layer_life (fresh_firework 200 0)
           (mkPoints (Float32Array (200 * 3)) (Float32Array (200 * 3)) (Float32Array 200)
              0.8 1 true false)); reflexivity.
Defined.

End Fireworks.

(** ** The snow, flake by flake *)

Module SnowFacts.
Import Snow.

Ltac list_gets :=
  repeat first
    [ rewrite get_set_eq by (rewrite ?length_set; lia)
    | rewrite get_set_ne by lia ].

Section Facts.
Variable mobile : bool.
Variable rng : nat -> R.












End Facts.







End SnowFacts.

(** ** The shape of the tree *)

Lemma Rabs_bound a b : Rabs a <= b -> - b <= a <= b.
Proof.
  unfold Rabs. destruct (Rcase_abs a); intros H; lra.
Qed.

Lemma Math_pow_le_1 x y : x <= 1 -> 0 <= y -> Math_pow x y <= 1.
Proof.
  intros Hx Hy. unfold Math_pow. destruct (Rle_dec x 0) as [|Hpos]; [lra |].
  unfold Rpower. rewrite <- exp_0.
  assert (Hln : ln x <= 0).
  { rewrite <- ln_1. destruct (Req_dec x 1) as [->|Hne]; [lra |].
    left. apply ln_increasing; lra. }
  destruct (Req_dec (y * ln x) 0) as [->|Hne]; [lra |].
  left. apply exp_increasing. nra.
Qed.

Section TreeShape.
Variable mobile : bool.
Variable i : nat.
Variable draw : nat -> R.
Hypothesis Hi : (i < PARTICLE_COUNT mobile)%nat.
Hypothesis Hdraw : forall k, 0 <= draw k < 1.

Lemma layer_max_radius_cone :
  layer_max_radius mobile (layer_height mobile i draw) <=
    TREE_RADIUS mobile * (1 - layer_height mobile i draw * 0.8).
Proof.
  unfold layer_max_radius.
  pose proof (layer_height_bounds mobile i draw Hi Hdraw) as Hh.
  pose proof (TREE_RADIUS_bound mobile) as HR.
  pose proof (Math_pow_le_1 (1 - layer_height mobile i draw) 1.3 ltac:(lra) ltac:(lra)) as Hp.
  nra.
Qed.

Lemma tree_target_box :
  Rabs (vx (tree_target mobile i draw)) <= TREE_RADIUS mobile + 0.3 /\
  Rabs (vz (tree_target mobile i draw)) <= TREE_RADIUS mobile + 0.3 /\
  - TREE_HEIGHT mobile / 2 - 0.4 * TREE_RADIUS mobile - 0.3 <= vy (tree_target mobile i draw) /\
  vy (tree_target mobile i draw) <= 5 / 12 * TREE_HEIGHT mobile + 0.3.
Proof.
  pose proof (layer_height_bounds mobile i draw Hi Hdraw) as Hh.
  pose proof (tree_radius_bounds mobile i draw Hi Hdraw) as Hr.
  pose proof layer_max_radius_cone as Hc.
  pose proof (tree_y_jitter_bound mobile i draw Hdraw) as Hy.
  pose proof (tree_depth_jitter_bound mobile i draw Hi Hdraw) as Hd.
  pose proof (TREE_RADIUS_bound mobile) as HR.
  assert (HH : 20 <= TREE_HEIGHT mobile <= 25) by (destruct mobile; simpl; lra).
  apply Rabs_bound in Hy. apply Rabs_bound in Hd.
  pose proof (COS_bound (tree_angle i)) as [Hc1 Hc2].
  pose proof (SIN_bound (tree_angle i)) as [Hs1 Hs2].
  set (r := tree_radius mobile i draw) in *.
  set (h := layer_height mobile i draw) in *.
  assert (Hrr : r <= TREE_RADIUS mobile) by nra.
  unfold tree_target, tree_droop, vx, vy, vz. cbn [fst snd]. fold r h.
  repeat split; try (apply Rabs_le; split); nra.
Qed.

End TreeShape.

(** X21.  The tree fits its box.  With the random numbers in [0, 1), every
    tree target the mount effect writes lies within the tree radius plus 0.3
    of the axis in both horizontal directions, at most 0.3 above eleven
    twelfths of the tree height, and at most 0.4 times the tree radius plus
    0.3 below the foot of the tree: the droop and the jitter are all that
    takes a particle out of the cone. *)
Theorem tree_fits_its_box (mobile : bool) (rng : nat -> R) (w : Particles) (i : nat) :
  (forall k, 0 <= rng k < 1) ->
  (i < PARTICLE_COUNT mobile)%nat ->
  Rabs (vx (vec3_at (mem (mounted mobile rng w) TargetTree) i)) <= TREE_RADIUS mobile + 0.3 /\
  Rabs (vz (vec3_at (mem (mounted mobile rng w) TargetTree) i)) <= TREE_RADIUS mobile + 0.3 /\
  - TREE_HEIGHT mobile / 2 - 0.4 * TREE_RADIUS mobile - 0.3 <=
    vy (vec3_at (mem (mounted mobile rng w) TargetTree) i) /\
  vy (vec3_at (mem (mounted mobile rng w) TargetTree) i) <=
    - TREE_HEIGHT mobile / 2 + 11 / 12 * TREE_HEIGHT mobile + 0.3.
Proof.
  intros Hrng Hi.
  destruct (mount_run mobile rng w) as (w1 & E1 & H1 & _).
  unfold mounted, exec. rewrite E1. cbn [snd].
  destruct (H1 i Hi) as [[d ->] _].
  assert (Hdraw : forall k, 0 <= rng (k + d)%nat < 1) by (intros k; apply Hrng).
  pose proof (tree_target_box mobile i (fun k => rng (k + d)%nat) Hi Hdraw) as (Hx & Hz & Hy1 & Hy2).
  repeat split; try assumption. lra.
Qed.

Lemma tree_fits_its_box_witness :
  Rabs (vx (vec3_at (mem (mounted false (fun _ => 0.5) (blank_particles false)) TargetTree) 7))
    <= TREE_RADIUS false + 0.3 /\
  Rabs (vz (vec3_at (mem (mounted false (fun _ => 0.5) (blank_particles false)) TargetTree) 7))
    <= TREE_RADIUS false + 0.3 /\
  - TREE_HEIGHT false / 2 - 0.4 * TREE_RADIUS false - 0.3 <=
    vy (vec3_at (mem (mounted false (fun _ => 0.5) (blank_particles false)) TargetTree) 7) /\
  vy (vec3_at (mem (mounted false (fun _ => 0.5) (blank_particles false)) TargetTree) 7) <=
    - TREE_HEIGHT false / 2 + 11 / 12 * TREE_HEIGHT false + 0.3.
Proof.
  apply (tree_fits_its_box false (fun _ => 0.5) (blank_particles false) 7).
  - intros k. lra.
  - unfold PARTICLE_COUNT. lia.
Defined.

(** ** The speed limit *)

Lemma integrate_speed pinch t e j p v :
  pinch <= 1 -> vnorm j <= 0.026 ->
  vnorm (snd (integrate pinch t e j p v)) <= 0.90 * (vnorm v + 0.35).
Proof.
  intros Hp Hj. unfold integrate. cbv zeta. cbn [snd].
  rewrite vnorm_vscale, (Rabs_right 0.90) by lra.
  apply Rmult_le_compat_l; [lra |].
  pose proof (vnorm_nonneg v) as Hv.
  set (target := active_target pinch t e).
  assert (Hf : 0 <= force_constant pinch <= 0.35 /\
               (~ pinch > 0.01 -> force_constant pinch = 0.25)).
  { unfold force_constant. destruct (Rgt_dec pinch 0.01); split; intros;
      try lra; try contradiction. }
  destruct Hf as [Hf Hfe].
  assert (H1 : vnorm (if Rgt_dec (vnorm (vsub target p)) 0.01
                      then vadd v (vscale (force_constant pinch) (unit_toward p target))
                      else v) <= vnorm v + force_constant pinch).
  { destruct (Rgt_dec (vnorm (vsub target p)) 0.01) as [Hd|Hd]; [| lra].
    eapply Rle_trans; [apply vnorm_triangle |].
    rewrite vnorm_vscale, (Rabs_right (force_constant pinch)) by lra.
    unfold unit_toward. rewrite vnorm_unit by lra. lra. }
  destruct (Rgt_dec pinch 0.01) as [Hg|Hg]; [lra |].
  eapply Rle_trans; [apply vnorm_triangle |].
  rewrite (Hfe Hg) in H1 |- *. lra.
Qed.

Lemma perform_speed mobile rng a w i :
  (forall k, 0 <= rng k < 1) ->
  particlesRef w = true ->
  buffers_sized (PARTICLE_COUNT mobile) w ->
  (i < PARTICLE_COUNT mobile)%nat ->
  pinch_in_range a ->
  speed_of w i <= 3.15 ->
  exists w',
    perform mobile rng a w = (Ok tt, w') /\
    particlesRef w' = true /\
    buffers_sized (PARTICLE_COUNT mobile) w' /\
    speed_of w' i <= 3.15.
Proof.
  intros Hrng Href Hsz Hi Ha Hs. destruct a as [pinch|]; cbn [perform pinch_in_range] in *.
  - destruct (animate_particles_run mobile rng pinch w Hsz) as (w1 & E & Hin & _ & Hsz1 & _).
    destruct (animate_particles_steady mobile rng pinch w) as (u & w1' & E' & _ & _ & _ & Hp).
    assert (w1' = w1) as -> by congruence.
    exists w1. split; [exact E |]. split; [rewrite Hp; exact Href |]. split; [exact Hsz1 |].
    rewrite speed_of_particle, (Hin i Hi).
    pose proof (integrate_speed pinch (vec3_at (mem w TargetTree) i)
                  (vec3_at (mem w TargetExploded) i)
                  (jitter_at rng (draws w + i * draws_per_particle pinch))
                  (vec3_at (mem w Positions) i) (vec3_at (mem w Velocities) i) Ha
                  (jitter_norm rng _ Hrng)) as H.
    unfold speed. unfold speed_of in Hs. lra.
  - destruct (changeTheme_sized mobile rng w Href Hsz) as (w1 & E & Hfr & Hsz1 & Hp).
    exists w1. split; [exact E |]. split; [exact Hp |]. split; [exact Hsz1 |].
    unfold speed_of in *. rewrite Hfr by discriminate. exact Hs.
Qed.

Lemma perform_all_speed mobile rng l i : forall w,
  (forall k, 0 <= rng k < 1) ->
  particlesRef w = true ->
  buffers_sized (PARTICLE_COUNT mobile) w ->
  (i < PARTICLE_COUNT mobile)%nat ->
  Forall pinch_in_range l ->
  speed_of w i <= 3.15 ->
  exists w', perform_all mobile rng l w = (Ok tt, w') /\ speed_of w' i <= 3.15.
Proof.
  induction l as [|a l IH]; intros w Hrng Href Hsz Hi Hl Hs.
  - exists w. split; [reflexivity | exact Hs].
  - apply Forall_cons in Hl as [Ha Hl].
    destruct (perform_speed mobile rng a w i Hrng Href Hsz Hi Ha Hs)
      as (w1 & E1 & Href1 & Hsz1 & Hs1).
    destruct (IH w1 Hrng Href1 Hsz1 Hi Hl Hs1) as (w' & E' & Hs').
    exists w'. split; [| exact Hs'].
    cbn [perform_all]. unfold bind at 1. rewrite E1. exact E'.
Qed.

(** X22.  No particle ever runs away.  With the random numbers in [0, 1),
    whatever frames and theme changes follow the mount effect, at whatever
    pinch strengths up to 1, the speed of every particle stays at most 3.15,
    the terminal speed of the tree branch; since a frame moves a particle by
    its new velocity, no particle moves by more than 3.15 in a frame. *)
Theorem speed_limit (mobile : bool) (rng : nat -> R) (w : Particles) (l : list Action)
    (i : nat) :
  (forall k, 0 <= rng k < 1) ->
  Forall pinch_in_range l ->
  (i < PARTICLE_COUNT mobile)%nat ->
  returns (mount mobile rng ;; perform_all mobile rng l) w /\
  speed_of (exec (mount mobile rng ;; perform_all mobile rng l) w) i <= 3.15.
Proof.
  intros Hrng Hl Hi.
  destruct (mount_full mobile rng w) as (w1 & E1 & H1 & _).
  destruct (mount_run mobile rng w) as (w1' & E1' & _ & Hsz1 & Href1).
  assert (w1' = w1) as -> by congruence.
  destruct (perform_all_speed mobile rng l i w1 Hrng Href1 Hsz1 Hi Hl) as (w' & E' & Hs').
  { destruct (H1 i Hi) as [Hpart _]. pose proof (f_equal snd Hpart) as Hv.
    unfold particle in Hv. cbn [snd] in Hv. unfold speed_of. rewrite Hv, vnorm_zero. lra. }
  unfold returns, exec, bind. rewrite E1, E'. cbn [fst snd].
  split; [eexists; reflexivity | exact Hs'].
Qed.

Lemma speed_limit_witness :
  returns (mount false (fun _ => 0.5) ;;
           perform_all false (fun _ => 0.5) [Animate 0; Animate 0.4; ChangeTheme; Animate 1])
    (blank_particles false) /\
  speed_of (exec (mount false (fun _ => 0.5) ;;
                  perform_all false (fun _ => 0.5)
                    [Animate 0; Animate 0.4; ChangeTheme; Animate 1])
              (blank_particles false)) 7 <= 3.15.
Proof.
  apply (speed_limit false (fun _ => 0.5) (blank_particles false)
           [Animate 0; Animate 0.4; ChangeTheme; Animate 1] 7).
  - intros k. lra.
  - repeat (apply Forall_cons; split; [cbn; lra || exact I |]). apply Forall_nil_2.
  - unfold PARTICLE_COUNT. lia.
Defined.
